(** * Field ownership, schema lookup and RuntimeClass wire format

    A shallow embedding of three parts of the repository:

    - [OpenAPI]: [LookupProtoSchema] and [parseGroupVersionKind]
      (package openapi);
    - [NodeV1beta1]: the generated protobuf code of [RuntimeClass]
      (k8s.io/api/node/v1beta1/generated.pb.go);
    - [FieldManager]: the managed-fields ledger and the Apply/Update pipeline
      exercised by the fieldmanager tests. *)

From Stdlib Require Import ZArith Lia List Bool Ascii String DecimalString DecimalNat.
From stdpp Require Import base option list strings gmap sorting.

Local Open Scope Z_scope.

(* ===================================================================== *)
(** ** Package openapi: schema lookup by GroupVersionKind                 *)
(* ===================================================================== *)

Module OpenAPI.

(** [schema.GroupVersionKind]: three strings compared field by field. *)
Record GroupVersionKind := mkGVK {
  Group : string;
  Version : string;
  Kind : string
}.

#[global] Instance GroupVersionKind_eq_dec : EqDecision GroupVersionKind.
Proof. solve_decision. Defined.

(** Go's [interface{}] as produced by the YAML decoder: the dynamic type is
    the constructor.  [map[interface{}]interface{}] and
    [map[string]interface{}] are different dynamic types; a map is kept as
    the list of its bindings and read through [mapIndex]. *)
#[local] Unset Elimination Schemes.
Inductive Iface : Type :=
| INil
| IBool (b : bool)
| IInt (n : Z)
| IString (s : string)
| ISlice (l : list Iface)
| IMapIface (m : list (Iface * Iface))
| IMapString (m : list (string * Iface)).
#[local] Set Elimination Schemes.

(** [gvkMap["group"]]: the value bound to the string key, the nil interface
    when the key is absent. *)
Fixpoint mapIndex (m : list (Iface * Iface)) (key : string) : Iface :=
  match m with
  | [] => INil
  | (IString k, v) :: rest => if String.eqb k key then v else mapIndex rest key
  | _ :: rest => mapIndex rest key
  end.

(** The type assertion [x.(string)]. *)
Definition assertString (x : Iface) : option string :=
  match x with IString s => Some s | _ => None end.

(** [proto.Schema], reduced to the one method the package calls. *)
Record Schema := mkSchema {
  SchemaName : string;
  GetExtensions : gmap string Iface
}.

(** [proto.Models]; [LookupModel] may answer nil, which is [None]. *)
Record Models := mkModels {
  ListModels : list string;
  LookupModel : string -> option Schema
}.

Definition groupVersionKindExtensionKey : string := "x-kubernetes-group-version-kind".

Inductive LookupError :=
| ErrModelCannotBeLookedUp
| ErrNoModelFound (key : string) (gvk : GroupVersionKind).

(** One iteration of the loop over [gvkList]: [None] is [continue]. *)
Definition parseEntry (gvk : Iface) : option GroupVersionKind :=
  match gvk with
  | IMapIface gvkMap =>
      match assertString (mapIndex gvkMap "group") with
      | None => None
      | Some group =>
          match assertString (mapIndex gvkMap "version") with
          | None => None
          | Some version =>
              match assertString (mapIndex gvkMap "kind") with
              | None => None
              | Some kind => Some (mkGVK group version kind)
              end
          end
      end
  | _ => None
  end.

(** The loop of [parseGroupVersionKind], [gvkListResult] being the
    accumulator that [append] extends. *)
Fixpoint parseLoop (gvkList : list Iface) (gvkListResult : list GroupVersionKind)
  : list GroupVersionKind :=
  match gvkList with
  | [] => gvkListResult
  | gvk :: rest =>
      match parseEntry gvk with
      | None => parseLoop rest gvkListResult
      | Some r => parseLoop rest (gvkListResult ++ [r])
      end
  end.

Definition parseGroupVersionKind (s : Schema) : list GroupVersionKind :=
  match GetExtensions s !! groupVersionKindExtensionKey with
  | None => []
  | Some (ISlice gvkList) => parseLoop gvkList []
  | Some _ => []
  end.

(** The inner loop of [LookupProtoSchema]: is some parsed triple equal to
    [gvk]? *)
Fixpoint containsGVK (gvkList : list GroupVersionKind) (gvk : GroupVersionKind) : bool :=
  match gvkList with
  | [] => false
  | modelGVK :: rest => if decide (modelGVK = gvk) then true else containsGVK rest gvk
  end.

(** The outer loop of [LookupProtoSchema] over [models.ListModels()]. *)
Fixpoint lookupLoop (models : Models) (gvk : GroupVersionKind) (names : list string)
  : Schema + LookupError :=
  match names with
  | [] => inr (ErrNoModelFound groupVersionKindExtensionKey gvk)
  | modelName :: rest =>
      match LookupModel models modelName with
      | None => inr ErrModelCannotBeLookedUp
      | Some model =>
          if containsGVK (parseGroupVersionKind model) gvk
          then inl model
          else lookupLoop models gvk rest
      end
  end.

Definition LookupProtoSchema (models : Models) (gvk : GroupVersionKind)
  : Schema + LookupError :=
  lookupLoop models gvk (ListModels models).

Definition isError {A E} (r : A + E) : Prop :=
  match r with inl _ => False | inr _ => True end.

(** A listed name is skipped by the scan: it resolves to a model that does
    not carry [gvk]. *)
Definition skipped (models : Models) (gvk : GroupVersionKind) (name : string) : Prop :=
  exists model, LookupModel models name = Some model
                /\ gvk ∉ parseGroupVersionKind model.

(** An entry of the extension list that is a map with string group, version
    and kind fields. *)
Definition isGVKMap (e : Iface) (gvk : GroupVersionKind) : Prop :=
  exists gvkMap, e = IMapIface gvkMap
    /\ mapIndex gvkMap "group" = IString (Group gvk)
    /\ mapIndex gvkMap "version" = IString (Version gvk)
    /\ mapIndex gvkMap "kind" = IString (Kind gvk).

(** Example data: a Deployment schema tagged apps/v1, and two model sets that
    also list a name [LookupModel] cannot resolve. *)
Definition deploymentGVK : GroupVersionKind := mkGVK "apps" "v1" "Deployment".

Definition deploymentSchema : Schema :=
  mkSchema "io.k8s.api.apps.v1.Deployment"
    {[ groupVersionKindExtensionKey :=
         ISlice [ IString "not-a-map";
                  IMapIface [(IString "group", IString "apps");
                             (IString "version", IString "v1");
                             (IString "kind", IString "Deployment")] ] ]}.

Definition lookupDeployment (name : string) : option Schema :=
  if String.eqb name "deployment" then Some deploymentSchema else None.

Definition danglingFirst : Models := mkModels ["dangling"; "deployment"] lookupDeployment.
Definition danglingLast : Models := mkModels ["deployment"; "dangling"] lookupDeployment.

End OpenAPI.

(* ===================================================================== *)
(** ** k8s.io/api/node/v1beta1: generated protobuf code of RuntimeClass   *)
(* ===================================================================== *)

Module NodeV1beta1.

(** Go's fixed-width integers, kept as [Z] with the wrap-around of each
    conversion written out.  [int] is 64 bits wide. *)
Definition uint64 (x : Z) : Z := x mod 2 ^ 64.
Definition int (x : Z) : Z := (x + 2 ^ 63) mod 2 ^ 64 - 2 ^ 63.
Definition int32 (x : Z) : Z := (x + 2 ^ 31) mod 2 ^ 32 - 2 ^ 31.
Definition uint8 (x : Z) : Z := x mod 2 ^ 8.

(** [len] of a slice or string, as an [int]. *)
Definition len {A} (l : list A) : Z := Z.of_nat (length l).

Inductive error :=
| ErrInvalidLengthGenerated
| ErrIntOverflowGenerated
| ErrUnexpectedEOF
| ErrEndGroupForNonGroup
| ErrIllegalTag (fieldNum wire : Z)
| ErrWrongWireType (wireType : Z) (field : string)
| ErrIllegalWireType (wireType : Z)
| ErrOther (msg : string).

(** Outcome of a call: a value, a returned [error], a run-time panic (index
    or slice bounds out of range, [panic("unreachable")]), or a loop of the
    model that ran out of its iteration budget. *)
Inductive result (A : Type) :=
| Ok (a : A)
| Err (e : error)
| Panic
| OutOfFuel.
Arguments Ok {A} a.
Arguments Err {A} e.
Arguments Panic {A}.
Arguments OutOfFuel {A}.

#[global] Instance result_bind : MBind result := fun A B f r =>
  match r with
  | Ok a => f a
  | Err e => Err e
  | Panic => Panic
  | OutOfFuel => OutOfFuel
  end.

(** [dAtA[i] = b]. *)
Definition store (dAtA : list Z) (i b : Z) : result (list Z) :=
  if (0 <=? i) && (i <? len dAtA)
  then Ok (<[Z.to_nat i := b]> dAtA)
  else Panic.

(** [copy(dAtA[i:], src)]: copies [min(len(dAtA[i:]), len(src))] bytes. *)
Definition copyAt (dAtA : list Z) (i : Z) (src : list Z) : result (list Z) :=
  if (0 <=? i) && (i <=? len dAtA)
  then let n := Nat.min (length dAtA - Z.to_nat i) (length src) in
       Ok (take (Z.to_nat i) dAtA ++ take n src ++ drop (Z.to_nat i + n) dAtA)
  else Panic.

(** [dAtA[lo:hi]] of a slice whose capacity is its length. *)
Definition slice (dAtA : list Z) (lo hi : Z) : result (list Z) :=
  if (0 <=? lo) && (lo <=? hi) && (hi <=? len dAtA)
  then Ok (take (Z.to_nat (hi - lo)) (drop (Z.to_nat lo) dAtA))
  else Panic.

(** [math_bits.Len64]: the number of bits needed to represent [x]. *)
Definition Len64 (x : Z) : Z := if x =? 0 then 0 else Z.log2 x + 1.

Definition sovGenerated (x : Z) : Z := (Len64 (Z.lor x 1) + 6) / 7.

(** The loop of [encodeVarintGenerated]; a [uint64] takes at most ten
    iterations. *)
Fixpoint encodeVarintLoop (fuel : nat) (dAtA : list Z) (offset v : Z)
  : result (list Z) :=
  match fuel with
  | O => OutOfFuel
  | S fuel' =>
      if 128 <=? v
      then dAtA' ← store dAtA offset (uint8 (Z.lor (Z.land v 127) 128));
           encodeVarintLoop fuel' dAtA' (offset + 1) (Z.shiftr v 7)
      else store dAtA offset (uint8 v)
  end.

(** Returns the buffer after the writes and [base]. *)
Definition encodeVarintGenerated (dAtA : list Z) (offset v : Z)
  : result (list Z * Z) :=
  let offset := offset - sovGenerated v in
  let base := offset in
  dAtA' ← encodeVarintLoop 10 dAtA offset v;
  Ok (dAtA', base).

(** The varint-reading loop that [Unmarshal] and [skipGenerated] repeat for
    each length and tag.  [conv] is the conversion to the accumulator's type
    ([uint64] for [wire] and [stringLen], [int] for [msglen] and [length]);
    the result is the accumulator and the index after the varint.  The
    check [shift >= 64] ends the loop within eleven iterations. *)
Fixpoint readVarint (fuel : nat) (conv : Z -> Z) (dAtA : list Z) (l : Z)
    (shift iNdEx acc : Z) : result (Z * Z) :=
  match fuel with
  | O => OutOfFuel
  | S fuel' =>
      if 64 <=? shift then Err ErrIntOverflowGenerated
      else if l <=? iNdEx then Err ErrUnexpectedEOF
      else match dAtA !! Z.to_nat iNdEx with
           | None => Panic
           | Some b =>
               let iNdEx := iNdEx + 1 in
               let acc := Z.lor acc (conv (Z.shiftl (conv (Z.land b 127)) shift)) in
               if b <? 128 then Ok (acc, iNdEx)
               else readVarint fuel' conv dAtA l (shift + 7) iNdEx acc
           end
  end.

(** Wire type 0 of [skipGenerated]: steps over a varint without decoding. *)
Fixpoint skipVarint (fuel : nat) (dAtA : list Z) (l : Z) (shift iNdEx : Z)
  : result Z :=
  match fuel with
  | O => OutOfFuel
  | S fuel' =>
      if 64 <=? shift then Err ErrIntOverflowGenerated
      else if l <=? iNdEx then Err ErrUnexpectedEOF
      else let iNdEx := iNdEx + 1 in
           match dAtA !! Z.to_nat (iNdEx - 1) with
           | None => Panic
           | Some b => if b <? 128 then Ok iNdEx
                       else skipVarint fuel' dAtA l (shift + 7) iNdEx
           end
  end.

(** [skipGenerated] and the loop of its wire type 3 (start group), which
    calls [skipGenerated] on [dAtA[start:]] until it meets an end-group tag.
    Every case of the switch returns, so the outer [for iNdEx < l] runs at
    most once, and falls through to [panic("unreachable")] on empty input. *)
Fixpoint skipGenerated (fuel : nat) (dAtA : list Z) : result Z :=
  match fuel with
  | O => OutOfFuel
  | S fuel' =>
      let l := len dAtA in
      if 0 <? l then
        '(wire, iNdEx) ← readVarint 11 uint64 dAtA l 0 0 0;
        let wireType := int (Z.land wire 7) in
        if wireType =? 0 then skipVarint 11 dAtA l 0 iNdEx
        else if wireType =? 1 then Ok (int (iNdEx + 8))
        else if wireType =? 2 then
          '(length, iNdEx) ← readVarint 11 int dAtA l 0 iNdEx 0;
          if length <? 0 then Err ErrInvalidLengthGenerated
          else let iNdEx := int (iNdEx + length) in
               if iNdEx <? 0 then Err ErrInvalidLengthGenerated
               else Ok iNdEx
        else if wireType =? 3 then skipGroup fuel' dAtA l iNdEx
        else if wireType =? 4 then Ok iNdEx
        else if wireType =? 5 then Ok (int (iNdEx + 4))
        else Err (ErrIllegalWireType wireType)
      else Panic
  end
with skipGroup (fuel : nat) (dAtA : list Z) (l : Z) (iNdEx : Z) : result Z :=
  match fuel with
  | O => OutOfFuel
  | S fuel' =>
      let start := iNdEx in
      '(innerWire, iNdEx) ← readVarint 11 uint64 dAtA l 0 iNdEx 0;
      let innerWireType := int (Z.land innerWire 7) in
      if innerWireType =? 4 then Ok iNdEx
      else
        rest ← slice dAtA start l;
        next ← skipGenerated fuel' rest;
        let iNdEx := int (start + next) in
        if iNdEx <? 0 then Err ErrInvalidLengthGenerated
        else skipGroup fuel' dAtA l iNdEx
  end.

(** [metav1.ObjectMeta] is declared in another package; the generated code
    uses its zero value and three of its methods.  [LahsramOt om buf] is
    called on the slice [dAtA[:i]] and answers the contents of that slice
    after the call together with the size it reports; [Unmarshal] answers
    the receiver after the call. *)
Record ObjectMetaMethods := {
  ObjectMeta : Type;
  ObjectMeta_zero : ObjectMeta;
  ObjectMeta_Size : ObjectMeta -> Z;
  ObjectMeta_LahsramOt : ObjectMeta -> list Z -> result (list Z * Z);
  ObjectMeta_Unmarshal : ObjectMeta -> list Z -> result ObjectMeta
}.

Section RuntimeClass.
Context (meta : ObjectMetaMethods).

(** [Handler] is a Go string: a sequence of bytes. *)
Record RuntimeClass := mkRuntimeClass {
  RuntimeClass_ObjectMeta : ObjectMeta meta;
  Handler : list Z
}.

(** [RuntimeClass{}]. *)
Definition RuntimeClass_zero : RuntimeClass :=
  mkRuntimeClass (ObjectMeta_zero meta) [].

(** [Size] on a non-nil receiver. *)
Definition RuntimeClass_Size (m : RuntimeClass) : Z :=
  let n := 0 in
  let l := ObjectMeta_Size meta (RuntimeClass_ObjectMeta m) in
  let n := int (n + int (int (1 + l) + sovGenerated (uint64 l))) in
  let l := len (Handler m) in
  let n := int (n + int (int (1 + l) + sovGenerated (uint64 l))) in
  n.

(** Fills [dAtA] from its end; answers the buffer after the writes and
    [len(dAtA) - i]. *)
Definition RuntimeClass_LahsramOt (m : RuntimeClass) (dAtA : list Z)
  : result (list Z * Z) :=
  let i := len dAtA in
  let i := int (i - len (Handler m)) in
  dAtA ← copyAt dAtA i (Handler m);
  '(dAtA, i) ← encodeVarintGenerated dAtA i (uint64 (len (Handler m)));
  let i := i - 1 in
  dAtA ← store dAtA i 18;
  head ← slice dAtA 0 i;
  '(head, size) ← ObjectMeta_LahsramOt meta (RuntimeClass_ObjectMeta m) head;
  let dAtA := head ++ drop (Z.to_nat i) dAtA in
  let i := int (i - size) in
  '(dAtA, i) ← encodeVarintGenerated dAtA i (uint64 size);
  let i := i - 1 in
  dAtA ← store dAtA i 10;
  Ok (dAtA, len dAtA - i).

(** [make([]byte, size)]. *)
Definition make (size : Z) : result (list Z) :=
  if 0 <=? size then Ok (replicate (Z.to_nat size) 0) else Panic.

Definition RuntimeClass_Marshal (m : RuntimeClass) : result (list Z) :=
  let size := RuntimeClass_Size m in
  dAtA ← make size;
  head ← slice dAtA 0 size;
  '(dAtA, n) ← RuntimeClass_LahsramOt m head;
  slice dAtA 0 n.

(** The loop [for iNdEx < l] of [Unmarshal].  Each iteration consumes at
    least one byte.  On an error only the error is kept. *)
Fixpoint unmarshalLoop (fuel : nat) (dAtA : list Z) (m : RuntimeClass) (iNdEx : Z)
  : result RuntimeClass :=
  let l := len dAtA in
  match fuel with
  | O => OutOfFuel
  | S fuel' =>
      if iNdEx <? l then
        let preIndex := iNdEx in
        '(wire, iNdEx) ← readVarint 11 uint64 dAtA l 0 iNdEx 0;
        let fieldNum := int32 (Z.shiftr wire 3) in
        let wireType := int (Z.land wire 7) in
        if wireType =? 4 then Err ErrEndGroupForNonGroup
        else if fieldNum <=? 0 then Err (ErrIllegalTag fieldNum wire)
        else if fieldNum =? 1 then
          if negb (wireType =? 2) then Err (ErrWrongWireType wireType "ObjectMeta")
          else
            '(msglen, iNdEx) ← readVarint 11 int dAtA l 0 iNdEx 0;
            if msglen <? 0 then Err ErrInvalidLengthGenerated
            else
              let postIndex := int (iNdEx + msglen) in
              if postIndex <? 0 then Err ErrInvalidLengthGenerated
              else if l <? postIndex then Err ErrUnexpectedEOF
              else
                sub ← slice dAtA iNdEx postIndex;
                om ← ObjectMeta_Unmarshal meta (RuntimeClass_ObjectMeta m) sub;
                unmarshalLoop fuel' dAtA (mkRuntimeClass om (Handler m)) postIndex
        else if fieldNum =? 2 then
          if negb (wireType =? 2) then Err (ErrWrongWireType wireType "Handler")
          else
            '(stringLen, iNdEx) ← readVarint 11 uint64 dAtA l 0 iNdEx 0;
            let intStringLen := int stringLen in
            if intStringLen <? 0 then Err ErrInvalidLengthGenerated
            else
              let postIndex := int (iNdEx + intStringLen) in
              if postIndex <? 0 then Err ErrInvalidLengthGenerated
              else if l <? postIndex then Err ErrUnexpectedEOF
              else
                sub ← slice dAtA iNdEx postIndex;
                unmarshalLoop fuel' dAtA
                  (mkRuntimeClass (RuntimeClass_ObjectMeta m) sub) postIndex
        else
          let iNdEx := preIndex in
          rest ← slice dAtA iNdEx l;
          skippy ← skipGenerated (2 * length rest + 2) rest;
          if skippy <? 0 then Err ErrInvalidLengthGenerated
          else if int (iNdEx + skippy) <? 0 then Err ErrInvalidLengthGenerated
          else if l <? int (iNdEx + skippy) then Err ErrUnexpectedEOF
          else unmarshalLoop fuel' dAtA m (int (iNdEx + skippy))
      else if l <? iNdEx then Err ErrUnexpectedEOF
      else Ok m
  end.

Definition RuntimeClass_Unmarshal (m : RuntimeClass) (dAtA : list Z)
  : result RuntimeClass :=
  unmarshalLoop (S (length dAtA)) dAtA m 0.

(** The wire image of a message: tag, length and payload of field 1 and of
    field 2, given the bytes of the ObjectMeta sub-message. *)
Fixpoint varintBytes (fuel : nat) (v : Z) : list Z :=
  match fuel with
  | O => []
  | S fuel' =>
      if 128 <=? v then Z.lor (Z.land v 127) 128 :: varintBytes fuel' (Z.shiftr v 7)
      else [v]
  end.

Definition wireImage (sub : list Z) (handler : list Z) : list Z :=
  10 :: varintBytes 10 (len sub) ++ sub
  ++ 18 :: varintBytes 10 (len handler) ++ handler.


(** What the generated code relies on from the ObjectMeta sub-message of
    [m]: its marshaller fills the last [Size] bytes of the slice it is given
    with [sub] and reports that size. *)
Definition subMarshals m (sub : list Z) : Prop :=
  let om := RuntimeClass_ObjectMeta m in
  len sub = ObjectMeta_Size meta om
  /\ forall buf, len sub <= len buf ->
       ObjectMeta_LahsramOt meta om buf
       = Ok (take (length buf - length sub) buf ++ sub, len sub).

(** The size of the message before any wrap-around. *)
Definition wireSize m : Z :=
  let sz := ObjectMeta_Size meta (RuntimeClass_ObjectMeta m) in
  let hl := len (Handler m) in
  (1 + sz + sovGenerated sz) + (1 + hl + sovGenerated hl).

End RuntimeClass.

(** A conversion that leaves the non-negative [int] range alone. *)
Definition keepsSmall (conv : Z -> Z) : Prop :=
  forall x, 0 <= x < 2 ^ 63 -> conv x = x.

Arguments RuntimeClass_ObjectMeta {meta} _.
Arguments Handler {meta} _.
Arguments mkRuntimeClass {meta} _ _.
Arguments subMarshals {meta} _ _.
Arguments wireSize {meta} _.

(** A stand-in for [metav1.ObjectMeta] whose wire image is its bytes. *)
Definition rawMeta : ObjectMetaMethods := {|
  ObjectMeta := list Z;
  ObjectMeta_zero := [];
  ObjectMeta_Size := fun om => len om;
  ObjectMeta_LahsramOt := fun om buf =>
    if len om <=? len buf
    then Ok (take (length buf - length om) buf ++ om, len om)
    else Panic;
  ObjectMeta_Unmarshal := fun _ dAtA => Ok dAtA
|}.

Definition runcClass : RuntimeClass rawMeta :=
  mkRuntimeClass (meta := rawMeta) [1; 2; 3] [114; 117; 110; 99].

End NodeV1beta1.

(* ===================================================================== *)
(** ** Package fieldmanager: the managed-fields ledger and the pipeline   *)
(* ===================================================================== *)

(** The tests of package fieldmanager are among the sources; the package
    itself, and the structured-merge-diff library below it, are not.  The
    engine is therefore modelled from the specification, and the harness
    and the documents of the tests are translated from the test file.  A
    document is the finite map from the paths of its leaves to their
    values; the clock is an argument of every write. *)

Module FieldManager.


(** *** Value model and field paths *)

(** Modelled from the spec: the value package of structured-merge-diff is
    not among the sources.  A leaf value of a document. *)
Inductive Scalar :=
| SNull
| SBool (b : bool)
| SInt (n : Z)
| SFloat (repr : string)
| SString (s : string).

#[global] Instance Scalar_eq_dec : EqDecision Scalar.
Proof. solve_decision. Defined.

(** Modelled from the spec: the fieldpath package of structured-merge-diff
    is not among the sources.  One step of a field path: a field name, the
    key fields of an item of a keyed list, the value of an item of a set, or
    a list index. *)
Inductive PathElement :=
| FieldName (name : string)
| Key (fields : list (string * string))
| ValueElem (v : string)
| Index (i : nat).

#[global] Instance PathElement_eq_dec : EqDecision PathElement.
Proof. solve_decision. Defined.

#[global] Instance PathElement_countable : Countable PathElement.
Proof.
  refine (inj_countable'
    (fun e => match e with
              | FieldName s => inl (inl s)
              | Key l => inl (inr l)
              | ValueElem v => inr (inl v)
              | Index i => inr (inr i)
              end)
    (fun x => match x with
              | inl (inl s) => FieldName s
              | inl (inr l) => Key l
              | inr (inl v) => ValueElem v
              | inr (inr i) => Index i
              end) _).
  by intros [].
Defined.

(** Modelled from the spec: the fieldpath package of structured-merge-diff
    is not among the sources.  A field path, from the root of the document. *)
Definition Path := list PathElement.


(** *** Canonical serialization of field paths (FieldsV1) *)

#[local] Unset Elimination Schemes.
(** Modelled from the spec: the serializer of fieldpath.Set (the FieldsV1
    format) is not among the sources.  The nested-map encoding: every key is
    an encoded path element or the sentinel. *)
Inductive FieldsV1 :=
| FieldsNode (children : list (string * FieldsV1)).
#[local] Set Elimination Schemes.

(** Modelled from the spec: the serializer of fieldpath.Set (the FieldsV1
    format) is not among the sources.  The key that stands for the container
    itself. *)
Definition sentinel : string := ".".

(** Modelled from the spec: the serializer of fieldpath.Set (the FieldsV1
    format) is not among the sources.  Whether a separator occurs in a
    string; used by the codec of path elements. *)
Fixpoint hasChar (c : ascii) (s : string) : bool :=
  match s with
  | EmptyString => false
  | String a rest => Ascii.eqb a c || hasChar c rest
  end.

(** Modelled from the spec: the serializer of fieldpath.Set (the FieldsV1
    format) is not among the sources.  [splitOn sep s]: the pieces of [s]
    between occurrences of [sep]. *)
Fixpoint splitOn (sep : ascii) (s : string) : list string :=
  match s with
  | EmptyString => [EmptyString]
  | String a rest =>
      if Ascii.eqb a sep then EmptyString :: splitOn sep rest
      else match splitOn sep rest with
           | [] => [String a EmptyString]
           | x :: xs => String a x :: xs
           end
  end.

(** Modelled from the spec: the serializer of fieldpath.Set (the FieldsV1
    format) is not among the sources.  The pieces joined by [sep]. *)
Fixpoint joinWith (sep : ascii) (l : list string) : string :=
  match l with
  | [] => EmptyString
  | [x] => x
  | x :: rest => x +:+ String sep (joinWith sep rest)
  end.

(** Modelled from the spec: the serializer of fieldpath.Set (the FieldsV1
    format) is not among the sources.  [cutAt sep s]: [s] cut at the first
    [sep]. *)
Fixpoint cutAt (sep : ascii) (s : string) : option (string * string) :=
  match s with
  | EmptyString => None
  | String a rest =>
      if Ascii.eqb a sep then Some (EmptyString, rest)
      else match cutAt sep rest with
           | Some (x, y) => Some (String a x, y)
           | None => None
           end
  end.

(** Modelled from the spec: the serializer of fieldpath.Set (the FieldsV1
    format) is not among the sources.  One key field, as name=value. *)
Definition encodeKeyField (kv : string * string) : string :=
  fst kv +:+ String "="%char (snd kv).

(** Modelled from the spec: the serializer of fieldpath.Set (the FieldsV1
    format) is not among the sources.  The prefixes [f:], [k:], [v:] and
    [i:] of the persisted format. *)
Definition encodePathElement (e : PathElement) : string :=
  match e with
  | FieldName name => "f:" +:+ name
  | Key fields => "k:" +:+ joinWith ","%char (encodeKeyField <$> fields)
  | ValueElem v => "v:" +:+ v
  | Index i => "i:" +:+ NilEmpty.string_of_uint (Nat.to_uint i)
  end.

(** Modelled from the spec: the serializer of fieldpath.Set (the FieldsV1
    format) is not among the sources.  The key fields of a [k:] element. *)
Definition decodeKeyFields (payload : string) : option (list (string * string)) :=
  match payload with
  | EmptyString => Some []
  | _ => mapM (cutAt "="%char) (splitOn ","%char payload)
  end.

(** Modelled from the spec: the serializer of fieldpath.Set (the FieldsV1
    format) is not among the sources.  Decoding rejects unknown prefixes. *)
Definition decodePathElement (s : string) : option PathElement :=
  match s with
  | String "f" (String ":" name) => Some (FieldName name)
  | String "k" (String ":" payload) => Key <$> decodeKeyFields payload
  | String "v" (String ":" v) => Some (ValueElem v)
  | String "i" (String ":" digits) =>
      (fun d => Index (Nat.of_uint d)) <$> NilEmpty.uint_of_string digits
  | _ => None
  end.

(** Modelled from the spec: the serializer of fieldpath.Set (the FieldsV1
    format) is not among the sources.  The first elements of the non-empty
    paths of a set. *)
Definition heads (s : gset Path) : gset PathElement :=
  set_omap (fun p : Path => head p) s.

(** Modelled from the spec: the serializer of fieldpath.Set (the FieldsV1
    format) is not among the sources.  The paths of a set that continue
    below [e]. *)
Definition below (e : PathElement) (s : gset Path) : gset Path :=
  set_omap (fun p : Path => match p with
                            | e' :: q => if decide (e' = e) then Some q else None
                            | [] => None
                            end) s.

(** Modelled from the spec: the serializer of fieldpath.Set (the FieldsV1
    format) is not among the sources.  The length of the longest path of a
    set; it bounds the recursion of the encoder. *)
Definition depth (s : gset Path) : nat :=
  max_list (length <$> elements s).

(** Modelled from the spec: the serializer of fieldpath.Set (the FieldsV1
    format) is not among the sources.  A field that is owned as a leaf is an
    empty map; the sentinel marks a container that is owned as a unit
    besides members below it. *)
Fixpoint encodeSetAt (fuel : nat) (s : gset Path) : FieldsV1 :=
  FieldsNode
    ((if decide ([] ∈ s) then [(sentinel, FieldsNode [])] else [])
     ++ match fuel with
        | O => []
        | S fuel' =>
            (fun e => (encodePathElement e,
                       if decide (below e s = {[ [] ]}) then FieldsNode []
                       else encodeSetAt fuel' (below e s)))
              <$> elements (heads s)
        end).

(** Modelled from the spec: the serializer of fieldpath.Set (the FieldsV1
    format) is not among the sources.  The canonical encoding of a set of
    paths. *)
Definition encodeSet (s : gset Path) : FieldsV1 := encodeSetAt (depth s) s.

(** Modelled from the spec: the serializer of fieldpath.Set (the FieldsV1
    format) is not among the sources.  [None] when a key has no known prefix
    or a payload does not parse. *)
Fixpoint decodeSet (f : FieldsV1) : option (gset Path) :=
  match f with
  | FieldsNode children =>
      (fix go (l : list (string * FieldsV1)) : option (gset Path) :=
         match l with
         | [] => Some ∅
         | (k, child) :: rest =>
             if String.eqb k sentinel then
               union {[ [] ]} <$> go rest
             else
               match decodePathElement k,
                     match child with
                     | FieldsNode [] => Some {[ [] ]}
                     | _ => decodeSet child
                     end,
                     go rest with
               | Some e, Some sub, Some acc => Some (set_map (cons e) sub ∪ acc)
               | _, _, _ => None
               end
         end) children
  end.


(** Modelled from the spec: the serializer of fieldpath.Set (the FieldsV1
    format) is not among the sources.  A key field whose encoding can be
    read back: its name holds no separator and its value no comma. *)
Definition keyFieldOk (kv : string * string) : Prop :=
  hasChar "="%char (fst kv) = false
  /\ hasChar ","%char (fst kv) = false
  /\ hasChar ","%char (snd kv) = false.

(** Modelled from the spec: the serializer of fieldpath.Set (the FieldsV1
    format) is not among the sources.  A path element whose encoding can be
    read back. *)
Definition encodable (e : PathElement) : Prop :=
  match e with
  | Key fields => Forall keyFieldOk fields
  | _ => True
  end.

(** Modelled from the spec: the serializer of fieldpath.Set (the FieldsV1
    format) is not among the sources.  A set of paths whose encoding can be
    read back. *)
Definition encodableSet (s : gset Path) : Prop :=
  forall p, p ∈ s -> Forall encodable p.


(** *** The managed-fields ledger *)

(** Modelled from the spec: the managed-fields code of package
    fieldmanager/internal is not among the sources.  The operation kind of a
    ledger row. *)
Inductive Operation := OpApply | OpUpdate.

#[global] Instance Operation_eq_dec : EqDecision Operation.
Proof. solve_decision. Defined.

(** Modelled from the spec: the managed-fields code of package
    fieldmanager/internal is not among the sources.  One ledger row, kept
    under its manager identifier: operation, API version, timestamp and
    owned set. *)
Record LedgerEntry := mkLedgerEntry {
  entryOperation : Operation;
  entryAPIVersion : string;
  entryTime : option Z;
  entryFields : gset Path
}.

#[global] Instance LedgerEntry_eq_dec : EqDecision LedgerEntry.
Proof. solve_decision. Defined.

(** Modelled from the spec: metav1.ManagedFieldsEntry is not among the
    sources.  One row of the persisted ledger. *)
Record ManagedFieldsEntry := mkManagedFieldsEntry {
  Manager : string;
  Operation_ : Operation;
  APIVersion : string;
  Time : option Z;
  FieldsType : string;
  FieldsV1_ : FieldsV1
}.

(** Modelled from the spec: the managed-fields code of package
    fieldmanager/internal is not among the sources.  The one recognized
    discriminator. *)
Definition fieldsTypeV1 : string := "FieldsV1".

(** Modelled from the spec: the managed-fields code of package
    fieldmanager/internal is not among the sources.  The persisted row of a
    ledger entry. *)
Definition encodeEntry (kv : string * LedgerEntry) : ManagedFieldsEntry :=
  mkManagedFieldsEntry (fst kv) (entryOperation (snd kv)) (entryAPIVersion (snd kv))
    (entryTime (snd kv)) fieldsTypeV1 (encodeSet (entryFields (snd kv))).

(** Modelled from the spec: the managed-fields code of package
    fieldmanager/internal is not among the sources.  The persisted list is
    ordered by manager identifier; the tests read the rows in that order. *)
Definition managerLe (a b : string * LedgerEntry) : Prop :=
  String.leb (fst a) (fst b) = true.

#[global] Instance managerLe_dec a b : Decision (managerLe a b).
Proof. unfold managerLe. apply _. Defined.

(** Modelled from the spec: the managed-fields code of package
    fieldmanager/internal is not among the sources.  Encode: the ledger as
    the persisted list of rows. *)
Definition EncodeManagedFields (m : gmap string LedgerEntry) : list ManagedFieldsEntry :=
  encodeEntry <$> merge_sort managerLe (map_to_list m).

(** Modelled from the spec: the managed-fields code of package
    fieldmanager/internal is not among the sources.  [None] for a corrupt
    row: an unknown or missing discriminator, or a field set that does not
    decode. *)
Definition decodeEntry (e : ManagedFieldsEntry) : option (string * LedgerEntry) :=
  if String.eqb (FieldsType e) fieldsTypeV1 then
    match decodeSet (FieldsV1_ e) with
    | Some s => Some (Manager e, mkLedgerEntry (Operation_ e) (APIVersion e) (Time e) s)
    | None => None
    end
  else None.

(** Modelled from the spec: the managed-fields code of package
    fieldmanager/internal is not among the sources.  Decode: corrupt rows
    are dropped and decoding continues. *)
Definition DecodeManagedFields (l : list ManagedFieldsEntry) : gmap string LedgerEntry :=
  list_to_map (omap decodeEntry l).

(** Modelled from the spec: the managed-fields code of package
    fieldmanager/internal is not among the sources.  A ledger whose sets can
    all be read back from their encoding. *)
Definition wellFormed (m : gmap string LedgerEntry) : Prop :=
  forall manager e, m !! manager = Some e -> encodableSet (entryFields e).

#[global] Instance keyFieldOk_dec (kv : string * string) : Decision (keyFieldOk kv).
Proof. unfold keyFieldOk. apply _. Defined.

#[global] Instance encodable_dec (e : PathElement) : Decision (encodable e).
Proof. destruct e; simpl; apply _. Defined.

#[global] Instance encodableSet_dec (s : gset Path) : Decision (encodableSet s).
Proof. exact (set_Forall_dec (Forall encodable) s). Defined.

#[global] Instance wellFormed_dec (m : gmap string LedgerEntry) : Decision (wellFormed m).
Proof.
  exact (map_Forall_dec (fun (_ : string) e => encodableSet (entryFields e)) m).
Defined.

(** *** Objects and errors *)

(** Modelled from the spec: runtime.Object and its unstructured content are
    not among the sources.  A document: its declared API version and kind,
    its leaves by path, and the persisted ledger of its metadata. *)
Record Object := mkObject {
  objAPIVersion : string;
  objKind : string;
  objFields : gmap Path Scalar;
  objManagedFields : list ManagedFieldsEntry
}.

(** Modelled from the spec: the error types of apimachinery are not among
    the sources.  The errors of the taxonomy that the pipeline raises. *)
Inductive Error :=
| Conflict (conflicts : gmap string (gset Path))
| VersionMismatch (declared live : string)
| Invalid (msg : string).

(** Modelled from the spec: the status codes of apimachinery's errors are
    not among the sources.  TestVersionCheck reads the code of
    VersionMismatch as http.StatusBadRequest. *)
Definition statusCode (e : Error) : Z :=
  match e with
  | VersionMismatch _ _ => 400
  | Conflict _ => 409
  | Invalid _ => 422
  end.

(** Modelled from the spec: package fieldmanager, which the tests import, is
    not among the sources.  A returned value or an error. *)
Inductive Result (A : Type) :=
| Ok (a : A)
| Err (e : Error).
Arguments Ok {A} a.
Arguments Err {A} e.

#[global] Instance Result_bind : MBind Result := fun A B f r =>
  match r with
  | Ok a => f a
  | Err e => Err e
  end.

(** *** The core structured-merge manager *)

(** Modelled from the spec: the structured-merge manager of package
    fieldmanager and the merge package of structured-merge-diff are not
    among the sources.  The paths a submitted document writes a new value
    to. *)
Definition changedPaths (live new : gmap Path Scalar) : gset Path :=
  dom (filter (fun kv => live !! fst kv <> Some (snd kv)) new).

(** Modelled from the spec: the structured-merge manager of package
    fieldmanager and the merge package of structured-merge-diff are not
    among the sources.  Per other manager, the owned paths whose value a
    write changes. *)
Definition conflictsOf (manager : string) (managed : gmap string LedgerEntry)
    (changed : gset Path) : gmap string (gset Path) :=
  filter (fun kv => snd kv <> ∅)
    ((fun e => entryFields e ∩ changed) <$> delete manager managed).

(** Modelled from the spec: the managed-fields code of package
    fieldmanager/internal is not among the sources.  A row without the paths
    taken from it. *)
Definition withoutPaths (taken : gset Path) (e : LedgerEntry) : LedgerEntry :=
  mkLedgerEntry (entryOperation e) (entryAPIVersion e) (entryTime e)
    (entryFields e ∖ taken).

(** Modelled from the spec: the managed-fields code of package
    fieldmanager/internal is not among the sources.  A row with another
    owned set. *)
Definition withFields (s : gset Path) (e : LedgerEntry) : LedgerEntry :=
  mkLedgerEntry (entryOperation e) (entryAPIVersion e) (entryTime e) s.

(** Modelled from the spec: the managed-fields code of package
    fieldmanager/internal is not among the sources.  A row with another
    timestamp. *)
Definition withTime (t : option Z) (e : LedgerEntry) : LedgerEntry :=
  mkLedgerEntry (entryOperation e) (entryAPIVersion e) t (entryFields e).

(** Modelled from the spec: the managed-fields code of package
    fieldmanager/internal is not among the sources.  A row is deleted when
    its set becomes empty. *)
Definition keepNonEmpty (e : LedgerEntry) : option LedgerEntry :=
  if decide (entryFields e = ∅) then None else Some e.

(** Modelled from the spec: the managed-fields code of package
    fieldmanager/internal is not among the sources.  The ledger without the
    rows whose set is empty. *)
Definition dropEmpty (m : gmap string LedgerEntry) : gmap string LedgerEntry :=
  omap keepNonEmpty m.

(** Modelled from the spec: the managed-fields code of package
    fieldmanager/internal is not among the sources.  The set a manager owns,
    empty when it has no row. *)
Definition ownedBy (managed : gmap string LedgerEntry) (manager : string) : gset Path :=
  default ∅ (entryFields <$> managed !! manager).

(** Modelled from the spec: the managed-fields code of package
    fieldmanager/internal is not among the sources.  The ledger's Update:
    the manager's row becomes the union of what it owned and [ownedDelta],
    which every other row loses. *)
Definition ledgerUpdate (current : gmap string LedgerEntry) (manager : string)
    (operation : Operation) (apiVersion : string) (ownedDelta : gset Path)
  : gmap string LedgerEntry :=
  dropEmpty
    (<[manager := mkLedgerEntry operation apiVersion (current !! manager ≫= entryTime)
                    (ownedBy current manager ∪ ownedDelta)]>
       (withoutPaths ownedDelta <$> current)).

(** Modelled from the spec: the structured-merge manager of package
    fieldmanager and the merge package of structured-merge-diff are not
    among the sources.  The ledger after an Apply: the acting manager owns
    the intent set, and the others lose the paths whose value the Apply
    changed.  TestNoOpChanges fixes the second half: a manager keeps the
    paths that another manager applies with the live value. *)
Definition ledgerApply (current : gmap string LedgerEntry) (manager : string)
    (apiVersion : string) (intentSet changed : gset Path)
  : gmap string LedgerEntry :=
  dropEmpty
    (<[manager := mkLedgerEntry OpApply apiVersion (current !! manager ≫= entryTime)
                    intentSet]>
       (withoutPaths changed <$> current)).

(** Modelled from the spec: the structured-merge manager of package
    fieldmanager and the merge package of structured-merge-diff are not
    among the sources.  The paths some manager other than [manager] owns. *)
Definition ownedByOthers (manager : string) (managed : gmap string LedgerEntry)
  : gset Path :=
  ⋃ (entryFields <$> (map_to_list (delete manager managed)).*2).

(** Modelled from the spec: the structured-merge manager of package
    fieldmanager and the merge package of structured-merge-diff are not
    among the sources.  The merge of an Apply: the intent's values, and the
    live values of the paths that a remaining manager owns; the rest is
    pruned. *)
Definition applyFields (live intent : gmap Path Scalar) (kept : gset Path)
  : gmap Path Scalar :=
  intent ∪ filter (fun kv => fst kv ∈ kept) live.

(** Modelled from the spec: package fieldmanager, which the tests import, is
    not among the sources.  The interface fieldmanager.Manager: the two
    write operations, each given the live object, the submitted document,
    the decoded ledger, the manager identifier and the time of the request. *)
Record FieldManagerOps := mkFieldManagerOps {
  Apply : Object -> Object -> gmap string LedgerEntry -> string -> bool -> Z ->
          Result (Object * gmap string LedgerEntry);
  Update : Object -> Object -> gmap string LedgerEntry -> string -> Z ->
           Result (Object * gmap string LedgerEntry)
}.

(** Modelled from the spec: the structured-merge manager of package
    fieldmanager and the merge package of structured-merge-diff are not
    among the sources.  Steps 1 to 4 of the Apply semantics. *)
Definition structuredMergeApply (live intent : Object)
    (managed : gmap string LedgerEntry) (manager : string) (force : bool) (now : Z)
  : Result (Object * gmap string LedgerEntry) :=
  let changed := changedPaths (objFields live) (objFields intent) in
  let conflicts := conflictsOf manager managed changed in
  if decide (conflicts <> ∅ /\ force = false) then Err (Conflict conflicts)
  else
    let managed' := ledgerApply managed manager (objAPIVersion live)
                      (dom (objFields intent)) changed in
    let fields := applyFields (objFields live) (objFields intent)
                    (ownedByOthers manager managed') in
    Ok (mkObject (objAPIVersion live) (objKind live) fields [], managed').

(** Modelled from the spec: the structured-merge manager of package
    fieldmanager and the merge package of structured-merge-diff are not
    among the sources.  The Update semantics: the submitted leaves over the
    live ones, and the changed paths to the acting manager. *)
Definition structuredMergeUpdate (live new : Object)
    (managed : gmap string LedgerEntry) (manager : string) (now : Z)
  : Result (Object * gmap string LedgerEntry) :=
  let changed := changedPaths (objFields live) (objFields new) in
  let managed' := if decide (changed = ∅) then managed
                  else ledgerUpdate managed manager OpUpdate (objAPIVersion live) changed in
  Ok (mkObject (objAPIVersion live) (objKind live)
        (objFields new ∪ objFields live) [], managed').

(** Modelled from the spec: the structured-merge manager of package
    fieldmanager and the merge package of structured-merge-diff are not
    among the sources.  The core manager. *)
Definition StructuredMergeManager : FieldManagerOps :=
  mkFieldManagerOps structuredMergeApply structuredMergeUpdate.

(** *** The decorators *)

(** Modelled from the spec: the version converter and the reserved manager
    names are external collaborators.  What the pipeline takes from them. *)
Record Collaborators := mkCollaborators {
  Convert : Object -> string -> option Object;
  reservedManagers : gset string
}.

(** Modelled from the spec: the version converter is an external
    collaborator.  The converter gives no document at the target version. *)
Definition cannotTranslate (c : Collaborators) (intent : Object) (target : string) : Prop :=
  forall o, Convert c intent target = Some o -> objAPIVersion o <> target.

(** Modelled from the spec: internal.NewVersionConverter is not among the
    sources.  The intent is brought to the live object's version before the
    core runs; VersionMismatch when that fails. *)
Definition VersionConverter (c : Collaborators) (inner : FieldManagerOps)
  : FieldManagerOps :=
  mkFieldManagerOps
    (fun live intent managed manager force now =>
       if decide (objAPIVersion intent = objAPIVersion live)
       then Apply inner live intent managed manager force now
       else match Convert c intent (objAPIVersion live) with
            | Some intent' =>
                if decide (objAPIVersion intent' = objAPIVersion live)
                then Apply inner live intent' managed manager force now
                else Err (VersionMismatch (objAPIVersion intent) (objAPIVersion live))
            | None => Err (VersionMismatch (objAPIVersion intent) (objAPIVersion live))
            end)
    (Update inner).

(** Modelled from the spec: package fieldmanager, which the tests import, is
    not among the sources.  A field of the object's metadata. *)
Definition metadata (name : string) : Path := [FieldName "metadata"; FieldName name].

(** Modelled from the spec: package fieldmanager, which the tests import, is
    not among the sources.  The fields no manager owns; they are the fields
    TestApplyStripsFields sets. *)
Definition strippedFields : gset Path :=
  {[ metadata "name"; metadata "namespace"; metadata "uid";
     metadata "clusterName"; metadata "generation";
     metadata "resourceVersion"; metadata "creationTimestamp" ]}.

(** Modelled from the spec: package fieldmanager, which the tests import, is
    not among the sources.  Removes the stripped fields that the acting
    manager acquired in a write. *)
Definition stripAcquired (before : gmap string LedgerEntry) (manager : string)
    (after : gmap string LedgerEntry) : gmap string LedgerEntry :=
  match after !! manager with
  | None => after
  | Some e =>
      let s := entryFields e ∖ (strippedFields ∖ ownedBy before manager) in
      if decide (s = entryFields e) then after
      else if decide (s = ∅) then delete manager after
      else <[manager := withFields s e]> after
  end.

(** Modelled from the spec: fieldmanager.NewStripMetaManager is not among
    the sources.  A request that carries managed-fields metadata is rejected
    as Invalid.  On Update the rows that do not decode count for nothing
    (TestApplyStripsFields and TestInvalidManagedFieldsIsDropped submit such
    rows and expect no error); on Apply any row is rejected
    (TestApplyFailsWithManagedFields). *)
Definition StripMeta (inner : FieldManagerOps) : FieldManagerOps :=
  mkFieldManagerOps
    (fun live intent managed manager force now =>
       match objManagedFields intent with
       | _ :: _ => Err (Invalid "metadata.managedFields must be nil")
       | [] =>
           '(obj, managed') ← Apply inner live intent managed manager force now;
           Ok (obj, stripAcquired managed manager managed')
       end)
    (fun live new managed manager now =>
       if decide (DecodeManagedFields (objManagedFields new) = ∅) then
         '(obj, managed') ← Update inner live new managed manager now;
         Ok (obj, stripAcquired managed manager managed')
       else Err (Invalid "metadata.managedFields must be nil")).

(** Modelled from the spec: package fieldmanager, which the tests import, is
    not among the sources.  The acting manager's row takes the time of the
    request. *)
Definition stamp (manager : string) (now : Z) (m : gmap string LedgerEntry)
  : gmap string LedgerEntry :=
  alter (withTime (Some now)) manager m.

(** Modelled from the spec: fieldmanager.NewManagedFieldsUpdater is not
    among the sources.  After a successful inner call the acting manager's
    row is stamped, unless the call changed neither the fields nor the row
    (TestNoOpChanges). *)
Definition ManagedFieldsUpdater (inner : FieldManagerOps) : FieldManagerOps :=
  mkFieldManagerOps
    (fun live intent managed manager force now =>
       '(obj, managed') ← Apply inner live intent managed manager force now;
       if decide (objFields obj = objFields live
                  /\ managed' !! manager = managed !! manager)
       then Ok (obj, managed')
       else Ok (obj, stamp manager now managed'))
    (fun live new managed manager now =>
       '(obj, managed') ← Update inner live new managed manager now;
       if decide (objFields obj = objFields live
                  /\ managed' !! manager = managed !! manager)
       then Ok (obj, managed')
       else Ok (obj, stamp manager now managed')).

(** Modelled from the spec: fieldmanager.NewBuildManagerInfoManager is not
    among the sources.  Invalid when the manager identifier is empty or
    reserved. *)
Definition BuildManagerInfo (c : Collaborators) (inner : FieldManagerOps)
  : FieldManagerOps :=
  mkFieldManagerOps
    (fun live intent managed manager force now =>
       if decide (manager = "" \/ manager ∈ reservedManagers c)
       then Err (Invalid "invalid field manager")
       else Apply inner live intent managed manager force now)
    (fun live new managed manager now =>
       if decide (manager = "" \/ manager ∈ reservedManagers c)
       then Err (Invalid "invalid field manager")
       else Update inner live new managed manager now).

(** *** The produced surface *)

(** Modelled from the spec: package fieldmanager, which the tests import, is
    not among the sources.  The ledger persisted on the returned object. *)
Definition withManagedFields (managed : gmap string LedgerEntry) (o : Object) : Object :=
  mkObject (objAPIVersion o) (objKind o) (objFields o) (EncodeManagedFields managed).

(** Modelled from the spec: package fieldmanager, which the tests import, is
    not among the sources.  The object without its persisted ledger. *)
Definition removeManagedFields (o : Object) : Object :=
  mkObject (objAPIVersion o) (objKind o) (objFields o) [].

(** Modelled from the spec: fieldmanager.NewFieldManager and its Apply are
    not among the sources.  The ledger is decoded from the live object, the
    chain runs, and the ledger it returns is encoded on the result. *)
Definition FieldManager_Apply (f : FieldManagerOps) (live intent : Object)
    (manager : string) (force : bool) (now : Z) : Result Object :=
  let managed := DecodeManagedFields (objManagedFields live) in
  '(obj, managed') ← Apply f (removeManagedFields live) intent managed manager force now;
  Ok (withManagedFields managed' obj).

(** Modelled from the spec: fieldmanager.NewFieldManager and its Update are
    not among the sources.  As [FieldManager_Apply]. *)
Definition FieldManager_Update (f : FieldManagerOps) (live new : Object)
    (manager : string) (now : Z) : Result Object :=
  let managed := DecodeManagedFields (objManagedFields live) in
  '(obj, managed') ← Update f (removeManagedFields live) new managed manager now;
  Ok (withManagedFields managed' obj).

(** *** The test harness *)

Record TestFieldManager := mkTestFieldManager {
  fieldManager : FieldManagerOps;
  emptyObj : Object;
  liveObj : Object
}.

(** Modelled from the spec: fieldmanager.NewStructuredMergeManager is not
    among the sources.  The core manager behind the version converter it is
    given. *)
Definition NewStructuredMergeManager (c : Collaborators) : FieldManagerOps :=
  VersionConverter c StructuredMergeManager.

Definition NewTestFieldManager (c : Collaborators) (apiVersion kind : string)
  : TestFieldManager :=
  let f := NewStructuredMergeManager c in
  let live := mkObject apiVersion kind ∅ [] in
  let f := StripMeta f in
  let f := ManagedFieldsUpdater f in
  let f := BuildManagerInfo c f in
  mkTestFieldManager f live live.

(** The chain that [NewTestFieldManager] builds. *)
Definition Pipeline (c : Collaborators) : FieldManagerOps :=
  BuildManagerInfo c
    (ManagedFieldsUpdater (StripMeta (NewStructuredMergeManager c))).


Definition TestFieldManager_Apply (f : TestFieldManager) (obj : Object)
    (manager : string) (force : bool) (now : Z) : TestFieldManager * option Error :=
  match FieldManager_Apply (fieldManager f) (liveObj f) obj manager force now with
  | Ok out => (mkTestFieldManager (fieldManager f) (emptyObj f) out, None)
  | Err err => (f, Some err)
  end.

Definition TestFieldManager_Update (f : TestFieldManager) (obj : Object)
    (manager : string) (now : Z) : TestFieldManager * option Error :=
  match FieldManager_Update (fieldManager f) (liveObj f) obj manager now with
  | Ok out => (mkTestFieldManager (fieldManager f) (emptyObj f) out, None)
  | Err err => (f, Some err)
  end.

Definition TestFieldManager_Reset (f : TestFieldManager) : TestFieldManager :=
  mkTestFieldManager (fieldManager f) (emptyObj f) (emptyObj f).

Definition TestFieldManager_ManagedFields (f : TestFieldManager)
  : list ManagedFieldsEntry :=
  objManagedFields (liveObj f).

(** [fakeObjectConvertor.ConvertToVersion] returns its input. *)
Definition fakeCollaborators : Collaborators :=
  mkCollaborators (fun o _ => Some o) ∅.



(** *** The documents of the tests *)

Definition quoted (s : string) : string :=
  String "034"%char (s +:+ String "034"%char EmptyString).

Definition field (names : list string) : Path := FieldName <$> names.

Definition nginxContainer (name : string) : Path :=
  field ["spec"; "template"; "spec"; "containers"]
  ++ [Key [("name", quoted "nginx")]; FieldName name].

Definition deploymentFields : gmap Path Scalar :=
  {[ field ["metadata"; "name"] := SString "deployment";
     field ["metadata"; "labels"; "app"] := SString "nginx";
     field ["spec"; "replicas"] := SInt 3;
     field ["spec"; "selector"; "matchLabels"; "app"] := SString "nginx";
     field ["spec"; "template"; "metadata"; "labels"; "app"] := SString "nginx";
     nginxContainer "name" := SString "nginx";
     nginxContainer "image" := SString "nginx:latest" ]}.

Definition deploymentObj : Object :=
  mkObject "apps/v1" "Deployment" deploymentFields [].

Definition appliedObj : Object :=
  mkObject "apps/v1" "Deployment"
    {[ field ["metadata"; "name"] := SString "deployment";
       field ["spec"; "replicas"] := SInt 101 ]} [].

Definition podObj : Object :=
  mkObject "v1" "Pod" {[ field ["metadata"; "labels"; "a"] := SString "b" ]} [].

(** The object of TestApplyStripsFields, with the managed-fields entry it
    sets on the submitted document. *)
Definition strippedObj : Object :=
  mkObject "apps/v1" "Deployment"
    {[ metadata "name" := SString "b"; metadata "namespace" := SString "b";
       metadata "uid" := SString "b"; metadata "clusterName" := SString "b";
       metadata "generation" := SInt 0; metadata "resourceVersion" := SString "b";
       metadata "creationTimestamp" := SString "2019-01-01T00:00:00Z" ]}
    [mkManagedFieldsEntry "update" OpApply "apps/v1" None "" (FieldsNode [])].

(** TestInvalidManagedFieldsIsDropped: the first ledger row loses its
    discriminator and changes manager, and the label changes. *)
Definition invalidate (o : Object) : Object :=
  mkObject (objAPIVersion o) (objKind o)
    (<[field ["metadata"; "labels"; "app"] := SString "my-nginx"]> (objFields o))
    (match objManagedFields o with
     | e :: rest =>
         mkManagedFieldsEntry "replacement" (Operation_ e) (APIVersion e) (Time e)
           "" (FieldsV1_ e) :: rest
     | [] => []
     end).

(** TestVersionCheck and TestVersionCheckDoesNotPanic: a document that
    holds its version and kind only, and the empty document. *)
Definition versionObj (apiVersion : string) : Object :=
  mkObject apiVersion "Deployment" ∅ [].

Definition emptyDoc : Object := mkObject "" "" ∅ [].

(** TestApplyFailsWithManagedFields: the row names its manager and nothing
    else. *)
Definition forgedObj : Object :=
  mkObject "v1" "Pod" ∅
    [mkManagedFieldsEntry "test" OpApply "" None "" (FieldsNode [])].

(** *** The tests, call by call *)

Definition podManager : TestFieldManager :=
  NewTestFieldManager fakeCollaborators "v1" "Pod".

Definition deploymentManager : TestFieldManager :=
  NewTestFieldManager fakeCollaborators "apps/v1" "Deployment".

(** TestNoOpChanges; the second that passes between two calls is the step
    of the clock. *)
Definition noOp1 := TestFieldManager_Apply podManager podObj "fieldmanager_test_apply" false 1.
Definition noOp2 :=
  TestFieldManager_Apply (fst noOp1) podObj "fieldmanager_test_apply_other" false 2.
Definition noOp3 := TestFieldManager_Update (fst noOp2) podObj "fieldmanager_test_update" 3.
Definition noOp4 := TestFieldManager_Apply (fst noOp3) podObj "fieldmanager_test_apply" true 4.

(** TestUpdateApplyConflict. *)
Definition conflict1 :=
  TestFieldManager_Update deploymentManager deploymentObj "fieldmanager_test" 1.
Definition conflict2 :=
  TestFieldManager_Apply (fst conflict1) appliedObj "fieldmanager_conflict" false 2.

(** TestInvalidManagedFieldsIsDropped. *)
Definition dropped2 :=
  TestFieldManager_Update (fst conflict1) (invalidate (liveObj (fst conflict1)))
    "fieldmanager_test_2" 2.

(** TestApplyStripsFields. *)
Definition strips1 :=
  TestFieldManager_Update deploymentManager strippedObj "fieldmanager_test" 1.

(** TestVersionCheck and TestVersionCheckDoesNotPanic. *)
Definition version1 :=
  TestFieldManager_Apply deploymentManager (versionObj "apps/v1") "fieldmanager_test" false 1.
Definition version2 :=
  TestFieldManager_Apply (fst version1) (versionObj "apps/v1beta1") "fieldmanager_test"
    false 2.
Definition version3 :=
  TestFieldManager_Apply (fst version1) emptyDoc "fieldmanager_test" false 2.

(** TestApplyDoesNotStripLabels and TestApplyFailsWithManagedFields. *)
Definition labels1 := TestFieldManager_Apply podManager podObj "fieldmanager_test" false 1.
Definition forged1 := TestFieldManager_Apply podManager forgedObj "fieldmanager_test" false 1.

(** *** Further documents and ledgers *)






End FieldManager.

(* ===================================================================== *)
(** ** More of the generated code: RuntimeClassList, MarshalTo, zigzag     *)
(* ===================================================================== *)

Module NodeExt.
Import NodeV1beta1.

(** [int64(x)]: the two's-complement reading of a 64-bit word. *)
Definition int64 (x : Z) : Z := (x + 2 ^ 63) mod 2 ^ 64 - 2 ^ 63.

(** [int64(x) >> 63] is an arithmetic shift, [x << 1] wraps. *)
Definition sozGenerated (x : Z) : Z :=
  sovGenerated
    (uint64 (Z.lxor (uint64 (Z.shiftl x 1)) (uint64 (Z.shiftr (int64 x) 63)))).

(** The call returned, with a value or an error: it neither panicked nor
    exhausted the iteration budget of the model. *)
Definition returned {A} (r : result A) : Prop :=
  match r with
  | Ok _ | Err _ => True
  | Panic | OutOfFuel => False
  end.

(** The call returned an error. *)
Definition failed {A} (r : result A) : Prop :=
  match r with Err _ => True | _ => False end.

(** What a skip answers on a non-empty buffer: an error, or an index at
    least [low] that fits an [int]. *)
Definition skipped_ahead (low : Z) (r : result Z) : Prop :=
  match r with
  | Ok n => low <= n < 2 ^ 63
  | Err _ => True
  | Panic | OutOfFuel => False
  end.

(** A field the message does not know, by wire type: a varint, eight
    bytes, a length-delimited payload, four bytes. *)
Inductive UnknownValue :=
| UVarint (v : Z)
| UFixed64 (b : list Z)
| UBytes (payload : list Z)
| UFixed32 (b : list Z).

Definition wireTypeOf (u : UnknownValue) : Z :=
  match u with
  | UVarint _ => 0
  | UFixed64 _ => 1
  | UBytes _ => 2
  | UFixed32 _ => 5
  end.

(** The bytes of the field on the wire: the tag, then the value. *)
Definition unknownField (fieldNum : Z) (u : UnknownValue) : list Z :=
  varintBytes 10 (fieldNum * 8 + wireTypeOf u)
  ++ match u with
     | UVarint v => varintBytes 10 v
     | UFixed64 b => b
     | UBytes payload => varintBytes 10 (len payload) ++ payload
     | UFixed32 b => b
     end.

Definition unknownOk (u : UnknownValue) : Prop :=
  match u with
  | UVarint v => 0 <= v < 2 ^ 64
  | UFixed64 b => len b = 8
  | UBytes payload => len payload < 2 ^ 63
  | UFixed32 b => len b = 4
  end.

(** A field by its number and value: one of the four plain wire types, or
    a group (wire type 3) that holds fields, groups among them, up to an
    end-group tag (wire type 4), whose number the code does not compare
    with the number of the start. *)
#[local] Unset Elimination Schemes.
Inductive Wire :=
| WPlain (fieldNum : Z) (u : UnknownValue)
| WGroup (fieldNum : Z) (inner : list Wire) (endNum : Z).
#[local] Set Elimination Schemes.

Definition wireNum (w : Wire) : Z :=
  match w with WPlain fieldNum _ | WGroup fieldNum _ _ => fieldNum end.

Definition wireType (w : Wire) : Z :=
  match w with WPlain _ u => wireTypeOf u | WGroup _ _ _ => 3 end.

Fixpoint wireBytes (w : Wire) : list Z :=
  match w with
  | WPlain fieldNum u => unknownField fieldNum u
  | WGroup fieldNum inner endNum =>
      varintBytes 10 (fieldNum * 8 + 3)
      ++ concat (map wireBytes inner)
      ++ varintBytes 10 (endNum * 8 + 4)
  end.

Fixpoint wireOk (w : Wire) : Prop :=
  match w with
  | WPlain fieldNum u => 0 <= fieldNum < 2 ^ 60 /\ unknownOk u
  | WGroup fieldNum inner endNum =>
      0 <= fieldNum < 2 ^ 60 /\ 0 <= endNum < 2 ^ 60
      /\ (fix all (l : list Wire) : Prop :=
            match l with
            | [] => True
            | w' :: l' => wireOk w' /\ all l'
            end) inner
  end.

(** [skipGenerated] steps over the field [w], whatever follows. *)
Definition skipsOver (w : Wire) : Prop :=
  forall fuel rest,
    (length (wireBytes w) <= fuel)%nat ->
    len (wireBytes w ++ rest) + 8 < 2 ^ 63 ->
    skipGenerated fuel (wireBytes w ++ rest) = Ok (len (wireBytes w)).

(** One field of a [RuntimeClass] on the wire. *)
Inductive Field :=
| FObjectMeta (sub : list Z)
| FHandler (handler : list Z)
| FUnknown (w : Wire).

Definition fieldBytes (f : Field) : list Z :=
  match f with
  | FObjectMeta sub => 10 :: varintBytes 10 (len sub) ++ sub
  | FHandler handler => 18 :: varintBytes 10 (len handler) ++ handler
  | FUnknown w => wireBytes w
  end.

Definition fieldOk (f : Field) : Prop :=
  match f with
  | FObjectMeta _ | FHandler _ => True
  | FUnknown w => 3 <= wireNum w < 2 ^ 29 /\ wireOk w
  end.

(** The bytes of a sequence of fields, one after the other. *)
Definition streamBytes (fs : list Field) : list Z := concat (fieldBytes <$> fs).

Section RuntimeClassMore.
Context (meta : ObjectMetaMethods).

(** One iteration of the loop of [Unmarshal], taken when [iNdEx < l]: the
    receiver and the index after the field at [iNdEx]. *)
Definition unmarshalStep (dAtA : list Z) (m : RuntimeClass meta) (iNdEx : Z)
  : result (RuntimeClass meta * Z) :=
  let l := len dAtA in
  let preIndex := iNdEx in
  '(wire, iNdEx) ← readVarint 11 uint64 dAtA l 0 iNdEx 0;
  let fieldNum := int32 (Z.shiftr wire 3) in
  let wireType := int (Z.land wire 7) in
  if wireType =? 4 then Err ErrEndGroupForNonGroup
  else if fieldNum <=? 0 then Err (ErrIllegalTag fieldNum wire)
  else if fieldNum =? 1 then
    if negb (wireType =? 2) then Err (ErrWrongWireType wireType "ObjectMeta")
    else
      '(msglen, iNdEx) ← readVarint 11 int dAtA l 0 iNdEx 0;
      if msglen <? 0 then Err ErrInvalidLengthGenerated
      else
        let postIndex := int (iNdEx + msglen) in
        if postIndex <? 0 then Err ErrInvalidLengthGenerated
        else if l <? postIndex then Err ErrUnexpectedEOF
        else
          sub ← slice dAtA iNdEx postIndex;
          om ← ObjectMeta_Unmarshal meta (RuntimeClass_ObjectMeta m) sub;
          Ok (mkRuntimeClass om (Handler m), postIndex)
  else if fieldNum =? 2 then
    if negb (wireType =? 2) then Err (ErrWrongWireType wireType "Handler")
    else
      '(stringLen, iNdEx) ← readVarint 11 uint64 dAtA l 0 iNdEx 0;
      let intStringLen := int stringLen in
      if intStringLen <? 0 then Err ErrInvalidLengthGenerated
      else
        let postIndex := int (iNdEx + intStringLen) in
        if postIndex <? 0 then Err ErrInvalidLengthGenerated
        else if l <? postIndex then Err ErrUnexpectedEOF
        else
          sub ← slice dAtA iNdEx postIndex;
          Ok (mkRuntimeClass (RuntimeClass_ObjectMeta m) sub, postIndex)
  else
    let iNdEx := preIndex in
    rest ← slice dAtA iNdEx l;
    skippy ← skipGenerated (2 * length rest + 2) rest;
    if skippy <? 0 then Err ErrInvalidLengthGenerated
    else if int (iNdEx + skippy) <? 0 then Err ErrInvalidLengthGenerated
    else if l <? int (iNdEx + skippy) then Err ErrUnexpectedEOF
    else Ok (m, int (iNdEx + skippy)).

(** The sub-message's [Unmarshal] returns. *)
Definition metaReturns : Prop :=
  forall om sub, returned (ObjectMeta_Unmarshal meta om sub).

(** What one iteration answers: an error, or a receiver and an index
    further on, within the buffer. *)
Definition stepped_ahead (dAtA : list Z) (iNdEx : Z)
    (r : result (RuntimeClass meta * Z)) : Prop :=
  match r with
  | Ok (_, iNdEx') => iNdEx < iNdEx' <= len dAtA
  | Err _ => True
  | Panic | OutOfFuel => False
  end.

(** [MarshalTo]: [LahsramOt] on [dAtA[:size]], for a buffer whose capacity
    is its length; the buffer after the call and the count written. *)
Definition RuntimeClass_MarshalTo (m : RuntimeClass meta) (dAtA : list Z)
  : result (list Z * Z) :=
  let size := RuntimeClass_Size meta m in
  head ← slice dAtA 0 size;
  '(head, n) ← RuntimeClass_LahsramOt meta m head;
  Ok (head ++ drop (Z.to_nat size) dAtA, n).

(** [XXX_Marshal]: [b] is taken up to its capacity, which is all of the
    list; [deterministic] is not read. *)
Definition RuntimeClass_XXX_Marshal (m : RuntimeClass meta) (b : list Z)
    (deterministic : bool) : result (list Z) :=
  '(b, n) ← RuntimeClass_MarshalTo m b;
  slice b 0 n.

Definition RuntimeClass_XXX_Size (m : RuntimeClass meta) : Z :=
  RuntimeClass_Size meta m.

Definition RuntimeClass_XXX_Unmarshal (m : RuntimeClass meta) (b : list Z)
  : result (RuntimeClass meta) :=
  RuntimeClass_Unmarshal meta m b.

(** What a field does to the receiver: field 1 is handed to the
    sub-message's [Unmarshal], field 2 replaces [Handler], any other field
    is skipped. *)
Definition applyField (m : RuntimeClass meta) (f : Field)
  : result (RuntimeClass meta) :=
  match f with
  | FObjectMeta sub =>
      om ← ObjectMeta_Unmarshal meta (RuntimeClass_ObjectMeta m) sub;
      Ok (mkRuntimeClass om (Handler m))
  | FHandler handler => Ok (mkRuntimeClass (RuntimeClass_ObjectMeta m) handler)
  | FUnknown _ => Ok m
  end.

Fixpoint applyFields (m : RuntimeClass meta) (fs : list Field)
  : result (RuntimeClass meta) :=
  match fs with
  | [] => Ok m
  | f :: rest => m' ← applyField m f; applyFields m' rest
  end.

End RuntimeClassMore.

(** What the generated code relies on from a sub-message [om] with methods
    [mt]: its marshaller fills the last [Size] bytes of the slice it is
    given with [sub] and reports that size. *)
Definition metaMarshals (mt : ObjectMetaMethods) (om : ObjectMeta mt)
    (sub : list Z) : Prop :=
  len sub = ObjectMeta_Size mt om
  /\ forall buf, len sub <= len buf ->
       ObjectMeta_LahsramOt mt om buf
       = Ok (take (length buf - length sub) buf ++ sub, len sub).

Section RuntimeClassList.
(** [meta] stands for [metav1.ObjectMeta], [lmeta] for [metav1.ListMeta]. *)
Context (meta lmeta : ObjectMetaMethods).

Record RuntimeClassList := mkRuntimeClassList {
  ListMeta : ObjectMeta lmeta;
  Items : list (RuntimeClass meta)
}.

(** [RuntimeClassList{}]. *)
Definition RuntimeClassList_zero : RuntimeClassList :=
  mkRuntimeClassList (ObjectMeta_zero lmeta) [].

(** The loop [for _, e := range m.Items] of [Size]. *)
Fixpoint sizeItems (items : list (RuntimeClass meta)) (n : Z) : Z :=
  match items with
  | [] => n
  | e :: rest =>
      let l := RuntimeClass_Size meta e in
      sizeItems rest (int (n + int (int (1 + l) + sovGenerated (uint64 l))))
  end.

(** [Size] on a non-nil receiver. *)
Definition RuntimeClassList_Size (m : RuntimeClassList) : Z :=
  let n := 0 in
  let l := ObjectMeta_Size lmeta (ListMeta m) in
  let n := int (n + int (int (1 + l) + sovGenerated (uint64 l))) in
  sizeItems (Items m) n.

(** The loop [for iNdEx := len(m.Items) - 1; iNdEx >= 0; iNdEx--] of
    [LahsramOt], over the items from the last to the first. *)
Fixpoint lahsramItems (itemsRev : list (RuntimeClass meta)) (dAtA : list Z) (i : Z)
  : result (list Z * Z) :=
  match itemsRev with
  | [] => Ok (dAtA, i)
  | e :: rest =>
      head ← slice dAtA 0 i;
      '(head, size) ← RuntimeClass_LahsramOt meta e head;
      let dAtA := head ++ drop (Z.to_nat i) dAtA in
      let i := int (i - size) in
      '(dAtA, i) ← encodeVarintGenerated dAtA i (uint64 size);
      let i := i - 1 in
      dAtA ← store dAtA i 18;
      lahsramItems rest dAtA i
  end.

Definition RuntimeClassList_LahsramOt (m : RuntimeClassList) (dAtA : list Z)
  : result (list Z * Z) :=
  let i := len dAtA in
  '(dAtA, i) ← lahsramItems (rev (Items m)) dAtA i;
  head ← slice dAtA 0 i;
  '(head, size) ← ObjectMeta_LahsramOt lmeta (ListMeta m) head;
  let dAtA := head ++ drop (Z.to_nat i) dAtA in
  let i := int (i - size) in
  '(dAtA, i) ← encodeVarintGenerated dAtA i (uint64 size);
  let i := i - 1 in
  dAtA ← store dAtA i 10;
  Ok (dAtA, len dAtA - i).

Definition RuntimeClassList_Marshal (m : RuntimeClassList) : result (list Z) :=
  let size := RuntimeClassList_Size m in
  dAtA ← make size;
  head ← slice dAtA 0 size;
  '(dAtA, n) ← RuntimeClassList_LahsramOt m head;
  slice dAtA 0 n.

(** The loop [for iNdEx < l] of [Unmarshal].  The messages of the errors
    name [RuntimeClassList] where those of [RuntimeClass] name
    [RuntimeClass]; the constructors keep the kind and the numbers. *)
Fixpoint listUnmarshalLoop (fuel : nat) (dAtA : list Z) (m : RuntimeClassList)
    (iNdEx : Z) : result RuntimeClassList :=
  let l := len dAtA in
  match fuel with
  | O => OutOfFuel
  | S fuel' =>
      if iNdEx <? l then
        let preIndex := iNdEx in
        '(wire, iNdEx) ← readVarint 11 uint64 dAtA l 0 iNdEx 0;
        let fieldNum := int32 (Z.shiftr wire 3) in
        let wireType := int (Z.land wire 7) in
        if wireType =? 4 then Err ErrEndGroupForNonGroup
        else if fieldNum <=? 0 then Err (ErrIllegalTag fieldNum wire)
        else if fieldNum =? 1 then
          if negb (wireType =? 2) then Err (ErrWrongWireType wireType "ListMeta")
          else
            '(msglen, iNdEx) ← readVarint 11 int dAtA l 0 iNdEx 0;
            if msglen <? 0 then Err ErrInvalidLengthGenerated
            else
              let postIndex := int (iNdEx + msglen) in
              if postIndex <? 0 then Err ErrInvalidLengthGenerated
              else if l <? postIndex then Err ErrUnexpectedEOF
              else
                sub ← slice dAtA iNdEx postIndex;
                om ← ObjectMeta_Unmarshal lmeta (ListMeta m) sub;
                listUnmarshalLoop fuel' dAtA (mkRuntimeClassList om (Items m)) postIndex
        else if fieldNum =? 2 then
          if negb (wireType =? 2) then Err (ErrWrongWireType wireType "Items")
          else
            '(msglen, iNdEx) ← readVarint 11 int dAtA l 0 iNdEx 0;
            if msglen <? 0 then Err ErrInvalidLengthGenerated
            else
              let postIndex := int (iNdEx + msglen) in
              if postIndex <? 0 then Err ErrInvalidLengthGenerated
              else if l <? postIndex then Err ErrUnexpectedEOF
              else
                sub ← slice dAtA iNdEx postIndex;
                item ← RuntimeClass_Unmarshal meta (RuntimeClass_zero meta) sub;
                listUnmarshalLoop fuel' dAtA
                  (mkRuntimeClassList (ListMeta m) (Items m ++ [item])) postIndex
        else
          let iNdEx := preIndex in
          rest ← slice dAtA iNdEx l;
          skippy ← skipGenerated (2 * length rest + 2) rest;
          if skippy <? 0 then Err ErrInvalidLengthGenerated
          else if int (iNdEx + skippy) <? 0 then Err ErrInvalidLengthGenerated
          else if l <? int (iNdEx + skippy) then Err ErrUnexpectedEOF
          else listUnmarshalLoop fuel' dAtA m (int (iNdEx + skippy))
      else if l <? iNdEx then Err ErrUnexpectedEOF
      else Ok m
  end.

Definition RuntimeClassList_Unmarshal (m : RuntimeClassList) (dAtA : list Z)
  : result RuntimeClassList :=
  listUnmarshalLoop (S (length dAtA)) dAtA m 0.

(** The bytes [W] unmarshal into the item [c], from the zero value. *)
Definition itemUnmarshals (W : list Z) (c : RuntimeClass meta) : Prop :=
  RuntimeClass_Unmarshal meta (RuntimeClass_zero meta) W = Ok c.

End RuntimeClassList.

Arguments ListMeta {meta lmeta} _.
Arguments Items {meta lmeta} _.
Arguments mkRuntimeClassList {meta lmeta} _ _.

(** The item [e] marshals into [W]: its ObjectMeta marshals into some
    [sub] as [subMarshals] says, the message fits an [int], and [W] is the
    wire image of the two fields. *)
Definition marshalsTo {meta : ObjectMetaMethods} (e : RuntimeClass meta)
    (W : list Z) : Prop :=
  exists sub, subMarshals e sub /\ wireSize e < 2 ^ 63
              /\ W = wireImage sub (Handler e).

(** The item [e] marshals into [W], and the sub-message's [Unmarshal]
    rebuilds the ObjectMeta of [e] from its bytes. *)
Definition itemRoundTrips {meta : ObjectMetaMethods} (e : RuntimeClass meta)
    (W : list Z) : Prop :=
  exists sub, subMarshals e sub /\ wireSize e < 2 ^ 63
              /\ W = wireImage sub (Handler e)
              /\ ObjectMeta_Unmarshal meta (ObjectMeta_zero meta) sub
                 = Ok (RuntimeClass_ObjectMeta e).

(** One item on the wire: the tag of field 2, the length, the message. *)
Definition itemBytes (W : list Z) : list Z := 18 :: varintBytes 10 (len W) ++ W.

(** The wire image of a list: field 1 with the bytes of the ListMeta, then
    one field 2 per item. *)
Definition listImage (lsub : list Z) (items : list (list Z)) : list Z :=
  10 :: varintBytes 10 (len lsub) ++ lsub ++ concat (itemBytes <$> items).

(** Example data: a second class and a list of two classes, over the
    stand-in for the ObjectMeta and the ListMeta. *)
Definition kataClass : RuntimeClass rawMeta :=
  mkRuntimeClass (meta := rawMeta) [9] [107; 97; 116; 97].

Definition runcList : RuntimeClassList rawMeta rawMeta :=
  mkRuntimeClassList (meta := rawMeta) (lmeta := rawMeta) [7; 7] [runcClass; kataClass].

End NodeExt.

Module OpenAPIExt.
Import OpenAPI.

(** What an answer of the scan tells about the names it went through: a
    model is the one of the first name that carries [gvk], every name
    before it resolving to a model without [gvk]; the look-up error names
    the first name that resolves to nil; the other error says that every
    name resolves to a model without [gvk]. *)
Definition scanned (models : Models) (gvk : GroupVersionKind) (names : list string)
    (r : Schema + LookupError) : Prop :=
  match r with
  | inl model =>
      exists pre name post,
        names = pre ++ name :: post
        /\ Forall (skipped models gvk) pre
        /\ LookupModel models name = Some model
        /\ exists l e,
             GetExtensions model !! groupVersionKindExtensionKey = Some (ISlice l)
             /\ e ∈ l /\ isGVKMap e gvk
  | inr ErrModelCannotBeLookedUp =>
      exists pre name post,
        names = pre ++ name :: post
        /\ Forall (skipped models gvk) pre
        /\ LookupModel models name = None
  | inr (ErrNoModelFound key g) =>
      key = groupVersionKindExtensionKey /\ g = gvk
      /\ Forall (skipped models gvk) names
  end.

End OpenAPIExt.

(* ===================================================================== *)
(** ** Facts about package openapi                                        *)
(* ===================================================================== *)

Module OpenAPIFacts.
Import OpenAPI.

Lemma containsGVK_true l gvk : containsGVK l gvk = true <-> gvk ∈ l.
Proof.
  induction l as [|x l IH]; simpl.
  - split; [discriminate | intros H; inversion H].
  - destruct (decide (x = gvk)) as [->|Hne].
    + split; [intros _; left | reflexivity].
    + rewrite IH. split; [intros H; by right |].
      intros H. inversion H; subst; [congruence | assumption].
Qed.

Lemma containsGVK_false l gvk : containsGVK l gvk = false <-> gvk ∉ l.
Proof.
  rewrite <- containsGVK_true. destruct (containsGVK l gvk); split; try done.
Qed.

(** The accumulator of the parse loop is only ever extended. *)
Lemma parseLoop_acc l acc : parseLoop l acc = acc ++ parseLoop l [].
Proof.
  revert acc. induction l as [|e l IH]; intros acc; simpl.
  - by rewrite app_nil_r.
  - destruct (parseEntry e) as [r|]; [|apply IH].
    rewrite (IH (acc ++ [r])), (IH [r]). by rewrite <- app_assoc.
Qed.

Lemma parseLoop_app l1 l2 acc :
  parseLoop (l1 ++ l2) acc = parseLoop l2 (parseLoop l1 acc).
Proof.
  revert acc. induction l1 as [|e l1 IH]; intros acc; simpl; [done|].
  destruct (parseEntry e); apply IH.
Qed.

(** The scan skips a prefix of names that all resolve and do not match. *)
Lemma lookupLoop_skip models gvk pre rest :
  Forall (skipped models gvk) pre ->
  lookupLoop models gvk (pre ++ rest) = lookupLoop models gvk rest.
Proof.
  induction 1 as [|n pre (model & Hm & Hnot) _ IH]; simpl; [done|].
  rewrite Hm. apply containsGVK_false in Hnot. by rewrite Hnot.
Qed.

Lemma parseLoop_omap l : parseLoop l [] = omap parseEntry l.
Proof.
  induction l as [|e l IH]; simpl; [done|].
  destruct (parseEntry e) as [r|]; [|done].
  rewrite parseLoop_acc. simpl. by rewrite IH.
Qed.

Lemma parseEntry_Some e gvk : parseEntry e = Some gvk <-> isGVKMap e gvk.
Proof.
  split.
  - destruct e as [| | | | |m|]; simpl; try discriminate.
    destruct (mapIndex m "group") as [| | |g| | |] eqn:Hg; simpl; try discriminate.
    destruct (mapIndex m "version") as [| | |v| | |] eqn:Hv; simpl; try discriminate.
    destruct (mapIndex m "kind") as [| | |k| | |] eqn:Hk; simpl; try discriminate.
    intros [= <-]. exists m. simpl. auto.
  - intros (m & -> & Hg & Hv & Hk). simpl. rewrite Hg, Hv, Hk. simpl.
    by destruct gvk.
Qed.

Lemma parseEntry_None e : parseEntry e = None <-> (forall gvk, ~ isGVKMap e gvk).
Proof.
  split.
  - intros Hn gvk Hw. apply parseEntry_Some in Hw. congruence.
  - intros Hn. destruct (parseEntry e) as [gvk|] eqn:E; [|done].
    exfalso. apply (Hn gvk). by apply parseEntry_Some.
Qed.

(** C9, as stated, fails on model sets with a dangling name: when the
    dangling name is listed before the matching model the lookup is an error
    although a listed model carries [gvk], and when it is listed after, the
    lookup succeeds although [ListModels] names a model that resolves to
    nil. *)
Lemma LookupProtoSchema_dangling_counterexample :
  ("deployment" ∈ ListModels danglingFirst
   /\ LookupModel danglingFirst "deployment" = Some deploymentSchema
   /\ deploymentGVK ∈ parseGroupVersionKind deploymentSchema
   /\ LookupProtoSchema danglingFirst deploymentGVK = inr ErrModelCannotBeLookedUp)
  /\
  ("dangling" ∈ ListModels danglingLast
   /\ LookupModel danglingLast "dangling" = None
   /\ LookupProtoSchema danglingLast deploymentGVK = inl deploymentSchema).
Proof.
  assert (Hparse : parseGroupVersionKind deploymentSchema = [deploymentGVK])
    by reflexivity.
  split.
  - split; [simpl; set_solver|]. split; [reflexivity|].
    split; [rewrite Hparse; set_solver | reflexivity].
  - split; [simpl; set_solver|]. split; [reflexivity|].
    unfold LookupProtoSchema. simpl. rewrite Hparse. simpl.
    by destruct (decide (deploymentGVK = deploymentGVK)).
Qed.

(** C9 (amended).  [LookupProtoSchema] scans [ListModels] in order.  It
    returns the first listed model whose extension parses to a list
    containing [gvk], provided every name listed before it resolves; it is an
    error when every listed name resolves and none matches, and when a name
    that resolves to nil is reached before any match.
    [parseGroupVersionKind] is empty when the extension is absent or not a
    list, and otherwise keeps, in order, exactly the entries that are maps
    with string group, version and kind fields. *)
Theorem LookupProtoSchema_scan (models : Models) (gvk : GroupVersionKind) :
  (forall pre name post model,
      ListModels models = pre ++ name :: post ->
      Forall (skipped models gvk) pre ->
      LookupModel models name = Some model ->
      gvk ∈ parseGroupVersionKind model ->
      LookupProtoSchema models gvk = inl model)
  /\ (Forall (skipped models gvk) (ListModels models) ->
      LookupProtoSchema models gvk
      = inr (ErrNoModelFound groupVersionKindExtensionKey gvk))
  /\ (forall pre name post,
      ListModels models = pre ++ name :: post ->
      Forall (skipped models gvk) pre ->
      LookupModel models name = None ->
      LookupProtoSchema models gvk = inr ErrModelCannotBeLookedUp)
  /\ (forall s : Schema,
      (GetExtensions s !! groupVersionKindExtensionKey = None ->
       parseGroupVersionKind s = [])
      /\ (forall x, GetExtensions s !! groupVersionKindExtensionKey = Some x ->
                    (forall l, x <> ISlice l) -> parseGroupVersionKind s = [])
      /\ (forall l, GetExtensions s !! groupVersionKindExtensionKey = Some (ISlice l) ->
           parseGroupVersionKind s = omap parseEntry l
           /\ forall e, (parseEntry e = None <-> forall r, ~ isGVKMap e r)
                        /\ (forall r, parseEntry e = Some r <-> isGVKMap e r))).
Proof.
  unfold LookupProtoSchema. repeat split.
  - intros pre name post model -> Hpre Hm Hin.
    rewrite lookupLoop_skip by done. simpl. rewrite Hm.
    apply containsGVK_true in Hin. by rewrite Hin.
  - intros Hall. rewrite <- (app_nil_r (ListModels models)).
    by rewrite lookupLoop_skip.
  - intros pre name post -> Hpre Hm.
    rewrite lookupLoop_skip by done. simpl. by rewrite Hm.
  - intros H. unfold parseGroupVersionKind. by rewrite H.
  - intros x H Hx. unfold parseGroupVersionKind. rewrite H.
    destruct x; try done. by destruct (Hx l).
  - unfold parseGroupVersionKind. rewrite H. apply parseLoop_omap.
  - apply parseEntry_None.
  - apply parseEntry_None.
  - apply parseEntry_Some.
  - apply parseEntry_Some.
Qed.

(** The scan on the example model set: the malformed first entry of the
    extension list is skipped and the Deployment schema is found. *)
Lemma LookupProtoSchema_scan_witness :
  LookupProtoSchema danglingLast deploymentGVK = inl deploymentSchema.
Proof.
  refine (proj1 (LookupProtoSchema_scan danglingLast deploymentGVK)
            [] "deployment" ["dangling"] deploymentSchema _ _ _ _).
  - reflexivity.
  - constructor.
  - reflexivity.
  - change (parseGroupVersionKind deploymentSchema) with [deploymentGVK].
    set_solver.
Defined.

End OpenAPIFacts.

(* ===================================================================== *)
(** ** Facts about the RuntimeClass wire format                           *)
(* ===================================================================== *)

Module NodeV1beta1Facts.
Import NodeV1beta1.

Lemma lor_1_nonzero v : 0 <= v -> Z.lor v 1 <> 0.
Proof.
  intros Hv H. apply Z.lor_eq_0_iff in H. lia.
Qed.

Lemma Len64_lor_1 v : 0 <= v -> Len64 (Z.lor v 1) = Z.log2 v + 1.
Proof.
  intros Hv. unfold Len64.
  destruct (Z.eqb_spec (Z.lor v 1) 0) as [E|_]; [by apply lor_1_nonzero in E|].
  rewrite Z.log2_lor by lia. change (Z.log2 1) with 0.
  pose proof (Z.log2_nonneg v). lia.
Qed.

Lemma sovGenerated_small v : 0 <= v < 128 -> sovGenerated v = 1.
Proof.
  intros Hv. unfold sovGenerated. rewrite Len64_lor_1 by lia.
  assert (0 <= Z.log2 v < 7).
  { split; [apply Z.log2_nonneg|].
    destruct (Z.eq_dec v 0) as [->|]; [done|].
    apply Z.log2_lt_pow2; lia. }
  symmetry. apply Z.div_unique with (r := Z.log2 v); lia.
Qed.

Lemma sovGenerated_step v :
  128 <= v -> sovGenerated v = 1 + sovGenerated (Z.shiftr v 7).
Proof.
  intros Hv. unfold sovGenerated.
  assert (0 <= Z.shiftr v 7) by (apply Z.shiftr_nonneg; lia).
  rewrite !Len64_lor_1 by lia.
  rewrite Z.log2_shiftr by lia.
  assert (7 <= Z.log2 v) by (apply Z.log2_le_pow2; lia).
  rewrite Z.max_r by lia.
  replace (Z.log2 v + 1 + 6) with ((Z.log2 v - 7 + 1 + 6) + 1 * 7) by lia.
  rewrite Z.div_add by lia. lia.
Qed.

Lemma shiftr7_lt v : 128 <= v -> 0 <= Z.shiftr v 7 < v.
Proof.
  intros Hv. rewrite Z.shiftr_div_pow2 by lia. change (2 ^ 7) with 128.
  split; [apply Z.div_pos; lia | apply Z.div_lt; lia].
Qed.

Lemma shiftr7_bound v n :
  0 <= v < 2 ^ (7 * Z.of_nat (S n)) -> 0 <= Z.shiftr v 7 < 2 ^ (7 * Z.of_nat n).
Proof.
  intros Hv. rewrite Z.shiftr_div_pow2 by lia.
  split; [apply Z.div_pos; lia|].
  apply Z.div_lt_upper_bound; [lia|].
  rewrite <- Z.pow_add_r by lia.
  replace (7 + 7 * Z.of_nat n) with (7 * Z.of_nat (S n)) by lia. lia.
Qed.

Lemma varintBytes_S n v :
  varintBytes (S n) v
  = if 128 <=? v then Z.lor (Z.land v 127) 128 :: varintBytes n (Z.shiftr v 7)
    else [v].
Proof. reflexivity. Qed.

(** The varint of [v] has [sovGenerated v] bytes. *)
Lemma varintBytes_length n v :
  0 <= v < 2 ^ (7 * Z.of_nat (S n)) -> len (varintBytes (S n) v) = sovGenerated v.
Proof.
  revert v. induction n as [|n IH]; intros v Hv.
  - change (2 ^ (7 * Z.of_nat 1)) with 128 in Hv. cbn [varintBytes].
    destruct (Z.leb_spec 128 v). { lia. } by rewrite sovGenerated_small.
  - rewrite varintBytes_S. destruct (Z.leb_spec 128 v) as [Hge|Hlt].
    + rewrite sovGenerated_step by done.
      rewrite <- IH by (by apply shiftr7_bound).
      unfold len. rewrite length_cons. lia.
    + by rewrite sovGenerated_small by lia.
Qed.

Lemma uint64_bound_70 v : 0 <= v < 2 ^ 64 -> 0 <= v < 2 ^ (7 * Z.of_nat 10).
Proof. change (2 ^ (7 * Z.of_nat 10)) with (2 ^ 70). lia. Qed.

Lemma sovGenerated_range v : 0 <= v < 2 ^ 64 -> 1 <= sovGenerated v <= 10.
Proof.
  intros Hv. rewrite <- (varintBytes_length 9) by (by apply uint64_bound_70).
  assert (forall n w, (1 <= length (varintBytes (S n) w) <= S n)%nat) as Hlen.
  { induction n as [|n IH]; intros w; rewrite varintBytes_S.
    - destruct (128 <=? w); simpl; lia.
    - destruct (128 <=? w); [|simpl; lia].
      specialize (IH (Z.shiftr w 7)). rewrite length_cons. lia. }
  specialize (Hlen 9%nat v). unfold len. lia.
Qed.

(** Bytes of a varint: all but the last carry the continuation bit. *)
Lemma varintBytes_bytes n v :
  0 <= v -> Forall (fun b => 0 <= b < 256) (varintBytes n v).
Proof.
  revert v. induction n as [|n IH]; intros v Hv; cbn [varintBytes]; [constructor|].
  destruct (Z.leb_spec 128 v) as [Hge|Hlt].
  - constructor; [|apply IH, Z.shiftr_nonneg; lia].
    change 127 with (Z.ones 7). rewrite Z.land_ones by lia.
    rewrite <- Z.add_nocarry_lor.
    + pose proof (Z.mod_pos_bound v (2 ^ 7)). lia.
    + change 128 with (Z.shiftl 1 7). 
      apply Z.bits_inj'. intros k Hk. rewrite Z.land_spec, Z.bits_0.
      destruct (Z.ltb_spec k 7).
      * rewrite Z.shiftl_spec_low by lia. apply andb_false_r.
      * rewrite Z.mod_pow2_bits_high by lia. done.
  - constructor; [lia|constructor].
Qed.

Lemma uint64_small x : 0 <= x < 2 ^ 64 -> uint64 x = x.
Proof. intros H. unfold uint64. by rewrite Z.mod_small. Qed.

Lemma int_small x : - 2 ^ 63 <= x < 2 ^ 63 -> int x = x.
Proof. intros H. unfold int. rewrite Z.mod_small; lia. Qed.

Lemma uint8_small x : 0 <= x < 256 -> uint8 x = x.
Proof. intros H. unfold uint8. by rewrite Z.mod_small. Qed.


Lemma keepsSmall_uint64 : keepsSmall uint64.
Proof. intros x Hx. apply uint64_small. lia. Qed.

Lemma keepsSmall_int : keepsSmall int.
Proof. intros x Hx. apply int_small. lia. Qed.

Lemma low7_plus_flag v : 0 <= v -> Z.lor (Z.land v 127) 128 = v mod 128 + 128.
Proof.
  intros Hv. change 127 with (Z.ones 7). rewrite Z.land_ones by lia.
  change (2 ^ 7) with 128. symmetry. apply Z.add_nocarry_lor.
  change 128 with (Z.shiftl 1 7). change (Z.shiftl 1 7) with (2 ^ 7) at 1.
  apply Z.bits_inj'. intros k Hk. rewrite Z.land_spec, Z.bits_0.
  destruct (Z.ltb_spec k 7).
  - rewrite Z.shiftl_spec_low by lia. apply andb_false_r.
  - by rewrite Z.mod_pow2_bits_high by lia.
Qed.

Lemma lor_shifted acc x s :
  0 <= s -> 0 <= acc < 2 ^ s -> Z.lor acc (x * 2 ^ s) = acc + x * 2 ^ s.
Proof.
  intros Hs Hacc. symmetry. apply Z.add_nocarry_lor.
  apply Z.bits_inj'. intros k Hk. rewrite Z.land_spec, Z.bits_0.
  destruct (Z.ltb_spec k s).
  - rewrite Z.mul_pow2_bits_low by lia. apply andb_false_r.
  - rewrite <- (Z.mod_small acc (2 ^ s)) by lia.
    by rewrite Z.mod_pow2_bits_high by lia.
Qed.

Lemma store_app dAtA pre x post b :
  dAtA = pre ++ x :: post -> store dAtA (len pre) b = Ok (pre ++ b :: post).
Proof.
  intros ->. unfold store, len. rewrite length_app, length_cons.
  destruct (Z.leb_spec 0 (Z.of_nat (length pre))); [|lia].
  destruct (Z.ltb_spec (Z.of_nat (length pre)) (Z.of_nat (length pre + S (length post))));
    [|lia].
  simpl. rewrite Nat2Z.id. f_equal.
  rewrite insert_app_r_alt by lia. by rewrite Nat.sub_diag.
Qed.

Lemma encodeVarintLoop_S n dAtA offset v :
  encodeVarintLoop (S n) dAtA offset v
  = if 128 <=? v
    then dAtA' ← store dAtA offset (uint8 (Z.lor (Z.land v 127) 128));
         encodeVarintLoop n dAtA' (offset + 1) (Z.shiftr v 7)
    else store dAtA offset (uint8 v).
Proof. reflexivity. Qed.

Lemma encodeVarintLoop_spec n v pre mid post :
  0 <= v < 2 ^ (7 * Z.of_nat (S n)) ->
  length mid = length (varintBytes (S n) v) ->
  encodeVarintLoop (S n) (pre ++ mid ++ post) (len pre) v
  = Ok (pre ++ varintBytes (S n) v ++ post).
Proof.
  revert v pre mid. induction n as [|n IH]; intros v pre mid Hv Hlen.
  - change (2 ^ (7 * Z.of_nat 1)) with 128 in Hv.
    rewrite (varintBytes_S 0 v) in *. rewrite encodeVarintLoop_S.
    destruct (Z.leb_spec 128 v); [lia|].
    destruct mid as [|x [|]]; try discriminate.
    rewrite uint8_small by lia. exact (store_app _ pre x post v eq_refl).
  - rewrite (varintBytes_S (S n) v) in *. rewrite encodeVarintLoop_S.
    destruct (Z.leb_spec 128 v) as [Hge|Hlt].
    + destruct mid as [|x mid]; [discriminate|]. injection Hlen as Hlen.
      assert (0 <= v) as Hv0 by (clear -Hge; lia).
      rewrite low7_plus_flag by done.
      assert (0 <= v mod 128 + 128 < 256) as Hb
        by (clear; pose proof (Z.mod_pos_bound v 128); lia).
      rewrite uint8_small by done.
      rewrite (store_app _ pre x (mid ++ post) _ eq_refl). cbn [mbind result_bind].
      replace (len pre + 1) with (len (pre ++ [v mod 128 + 128]))
        by (unfold len; rewrite length_app; simpl; lia).
      replace (pre ++ (v mod 128 + 128) :: mid ++ post)
        with ((pre ++ [v mod 128 + 128]) ++ mid ++ post)
        by (by rewrite <- app_assoc).
      rewrite IH; [|by apply shiftr7_bound|done].
      by rewrite <- app_assoc.
    + destruct mid as [|x [|]]; try discriminate.
      rewrite uint8_small by (clear -Hv Hlt; lia).
      exact (store_app _ pre x post v eq_refl).
Qed.

Lemma encodeVarintGenerated_spec v pre mid post :
  0 <= v < 2 ^ 64 ->
  len mid = sovGenerated v ->
  encodeVarintGenerated (pre ++ mid ++ post) (len pre + len mid) v
  = Ok (pre ++ varintBytes 10 v ++ post, len pre).
Proof.
  intros Hv Hmid. unfold encodeVarintGenerated.
  replace (len pre + len mid - sovGenerated v) with (len pre) by lia.
  rewrite encodeVarintLoop_spec; [done|by apply uint64_bound_70|].
  apply Nat2Z.inj. fold (len mid). fold (len (varintBytes 10 v)).
  rewrite varintBytes_length by (by apply uint64_bound_70). done.
Qed.

Lemma readVarint_S fuel conv dAtA l shift iNdEx acc :
  readVarint (S fuel) conv dAtA l shift iNdEx acc
  = if 64 <=? shift then Err ErrIntOverflowGenerated
    else if l <=? iNdEx then Err ErrUnexpectedEOF
    else match dAtA !! Z.to_nat iNdEx with
         | None => Panic
         | Some b =>
             let iNdEx := iNdEx + 1 in
             let acc := Z.lor acc (conv (Z.shiftl (conv (Z.land b 127)) shift)) in
             if b <? 128 then Ok (acc, iNdEx)
             else readVarint fuel conv dAtA l (shift + 7) iNdEx acc
         end.
Proof. reflexivity. Qed.

(** What is left of the buffer at an index. *)
Lemma drop_cons_inv (dAtA : list Z) iNdEx b rest :
  0 <= iNdEx ->
  drop (Z.to_nat iNdEx) dAtA = b :: rest ->
  dAtA !! Z.to_nat iNdEx = Some b
  /\ iNdEx < len dAtA
  /\ drop (Z.to_nat (iNdEx + 1)) dAtA = rest.
Proof.
  intros Hi Hd. split; [|split].
  - rewrite <- (Nat.add_0_r (Z.to_nat iNdEx)), <- lookup_drop. by rewrite Hd.
  - apply (f_equal length) in Hd. rewrite length_drop in Hd. simpl in Hd.
    unfold len. lia.
  - replace (Z.to_nat (iNdEx + 1)) with (Z.to_nat iNdEx + 1)%nat by lia.
    rewrite <- drop_drop, Hd. done.
Qed.

Lemma drop_app_inv (dAtA : list Z) iNdEx pre rest :
  0 <= iNdEx <= len dAtA ->
  drop (Z.to_nat iNdEx) dAtA = pre ++ rest ->
  iNdEx + len pre <= len dAtA
  /\ take (length pre) (drop (Z.to_nat iNdEx) dAtA) = pre
  /\ drop (Z.to_nat (iNdEx + len pre)) dAtA = rest.
Proof.
  intros Hi Hd. split; [|split].
  - apply (f_equal length) in Hd. rewrite length_drop, length_app in Hd.
    unfold len in *. lia.
  - rewrite Hd. by rewrite take_app_length.
  - unfold len. replace (Z.to_nat (iNdEx + Z.of_nat (length pre)))
      with (Z.to_nat iNdEx + length pre)%nat by lia.
    rewrite <- drop_drop, Hd. by rewrite drop_app_length.
Qed.

Lemma readVarint_varintBytes conv n :
  keepsSmall conv ->
  forall fuel v shift acc dAtA iNdEx rest,
    0 <= v < 2 ^ (7 * Z.of_nat (S n)) ->
    0 <= shift < 64 ->
    0 <= acc < 2 ^ shift ->
    acc + v * 2 ^ shift < 2 ^ 63 ->
    0 <= iNdEx ->
    drop (Z.to_nat iNdEx) dAtA = varintBytes (S n) v ++ rest ->
    (n < fuel)%nat ->
    readVarint fuel conv dAtA (len dAtA) shift iNdEx acc
    = Ok (acc + v * 2 ^ shift, iNdEx + len (varintBytes (S n) v)).
Proof.
  intros Hconv. induction n as [|n IH];
    intros fuel v shift acc dAtA iNdEx rest Hv Hshift Hacc Hfit Hi Hd Hfuel.
  - change (2 ^ (7 * Z.of_nat 1)) with 128 in Hv.
    destruct fuel as [|fuel]; [lia|]. rewrite readVarint_S.
    rewrite (varintBytes_S 0 v) in *.
    destruct (Z.leb_spec 128 v); [lia|].
    apply drop_cons_inv in Hd as (Hb & Hlt & _); [|done].
    destruct (Z.leb_spec 64 shift); [lia|].
    destruct (Z.leb_spec (len dAtA) iNdEx); [lia|].
    rewrite Hb. cbv zeta.
    destruct (Z.ltb_spec v 128); [|lia].
    change 127 with (Z.ones 7). rewrite Z.land_ones by lia.
    rewrite Z.mod_small by (change (2 ^ 7) with 128; lia).
    assert (0 < 2 ^ shift) by (apply Z.pow_pos_nonneg; lia).
    rewrite (Hconv v) by lia.
    rewrite Z.shiftl_mul_pow2 by lia.
    rewrite Hconv by nia.
    rewrite lor_shifted by lia. done.
  - destruct fuel as [|fuel]; [lia|]. rewrite readVarint_S.
    rewrite (varintBytes_S (S n) v) in *.
    assert (0 < 2 ^ shift) as Hpow by (apply Z.pow_pos_nonneg; lia).
    destruct (Z.leb_spec 128 v) as [Hge|Hlt].
    + assert (0 <= v) as Hv0 by (clear -Hge; lia).
      rewrite low7_plus_flag in * by done.
      pose proof (Z.mod_pos_bound v 128 ltac:(lia)) as Hmod.
      rewrite <- app_comm_cons in Hd.
      apply drop_cons_inv in Hd as (Hb & Hlt & Hd); [|done].
      destruct (Z.leb_spec 64 shift); [lia|].
      destruct (Z.leb_spec (len dAtA) iNdEx); [lia|].
      rewrite Hb. cbv zeta.
      destruct (Z.ltb_spec (v mod 128 + 128) 128); [lia|].
      change 127 with (Z.ones 7). rewrite Z.land_ones by lia.
      change (2 ^ 7) with 128.
      replace ((v mod 128 + 128) mod 128) with (v mod 128).
      2:{ rewrite <- (Z.mul_1_l 128) at 3. rewrite Z.mod_add by lia.
          by rewrite Z.mod_mod by lia. }
      pose proof (Z.div_mod v 128 ltac:(lia)) as Hdm.
      pose proof (shiftr7_lt v Hge) as Hsh.
      pose proof (shiftr7_bound v (S n) Hv) as Hbd.
      rewrite Z.shiftr_div_pow2 in * by lia. change (2 ^ 7) with 128 in *.
      assert (v mod 128 * 2 ^ shift <= v * 2 ^ shift) by nia.
      rewrite (Hconv (v mod 128)) by lia.
      rewrite Z.shiftl_mul_pow2 by lia.
      rewrite Hconv by nia.
      rewrite lor_shifted by lia.
      assert (2 ^ (shift + 7) = 2 ^ shift * 128) as Hp7
        by (rewrite Z.pow_add_r by lia; done).
      assert (1 <= v / 128) by (apply Z.div_le_lower_bound; lia).
      assert (shift + 7 < 64).
      { destruct (Z.lt_ge_cases (shift + 7) 64); [done|]. exfalso.
        assert (2 ^ 64 <= 2 ^ (shift + 7)) by (apply Z.pow_le_mono_r; lia).
        nia. }
      rewrite (IH fuel (v / 128) (shift + 7) _ dAtA (iNdEx + 1) rest).
      * f_equal. f_equal; [rewrite Hp7; nia|].
        unfold len. rewrite length_cons. lia.
      * exact Hbd.
      * lia.
      * rewrite Hp7. nia.
      * rewrite Hp7. nia.
      * lia.
      * done.
      * lia.
    + apply drop_cons_inv in Hd as (Hb & Hlt' & _); [|done].
      destruct (Z.leb_spec 64 shift); [lia|].
      destruct (Z.leb_spec (len dAtA) iNdEx); [lia|].
      rewrite Hb. cbv zeta.
      destruct (Z.ltb_spec v 128); [|lia].
      change 127 with (Z.ones 7). rewrite Z.land_ones by lia.
      rewrite Z.mod_small by (change (2 ^ 7) with 128; lia).
      rewrite (Hconv v) by lia.
      rewrite Z.shiftl_mul_pow2 by lia.
      rewrite Hconv by nia.
      rewrite lor_shifted by lia. done.
Qed.

Lemma len_app {A} (l1 l2 : list A) : len (l1 ++ l2) = len l1 + len l2.
Proof. unfold len. rewrite length_app. lia. Qed.

Lemma len_cons {A} (x : A) (l : list A) : len (x :: l) = 1 + len l.
Proof. unfold len. rewrite length_cons. lia. Qed.

Lemma len_nonneg {A} (l : list A) : 0 <= len l.
Proof. unfold len. lia. Qed.

Lemma copyAt_app pre old src :
  length old = length src -> copyAt (pre ++ old) (len pre) src = Ok (pre ++ src).
Proof.
  intros Hlen. unfold copyAt. rewrite len_app.
  pose proof (len_nonneg pre). pose proof (len_nonneg old).
  destruct (Z.leb_spec 0 (len pre)); [|lia].
  destruct (Z.leb_spec (len pre) (len pre + len old)); [|lia].
  simpl. unfold len. rewrite Nat2Z.id, length_app.
  replace (length pre + length old - length pre)%nat with (length old) by lia.
  rewrite Hlen, Nat.min_id, take_app_length, firstn_all.
  rewrite drop_ge by (rewrite length_app; lia). by rewrite app_nil_r.
Qed.

Lemma slice_prefix pre post : slice (pre ++ post) 0 (len pre) = Ok pre.
Proof.
  unfold slice. rewrite len_app.
  pose proof (len_nonneg pre). pose proof (len_nonneg post).
  destruct (Z.leb_spec 0 (len pre)); [|lia].
  destruct (Z.leb_spec (len pre) (len pre + len post)); [|lia].
  cbn [andb]. rewrite Z.sub_0_r. change (Z.to_nat 0) with 0%nat.
  rewrite drop_0. unfold len. rewrite Nat2Z.id.
  by rewrite take_app_length.
Qed.

Lemma slice_mid pre mid post :
  slice (pre ++ mid ++ post) (len pre) (len pre + len mid) = Ok mid.
Proof.
  unfold slice. rewrite !len_app.
  pose proof (len_nonneg pre). pose proof (len_nonneg mid).
  pose proof (len_nonneg post).
  destruct (Z.leb_spec 0 (len pre)); [|lia].
  destruct (Z.leb_spec (len pre) (len pre + len mid)); [|lia].
  destruct (Z.leb_spec (len pre + len mid) (len pre + (len mid + len post))); [|lia].
  cbn [andb]. replace (len pre + len mid - len pre) with (len mid) by lia.
  unfold len. rewrite !Nat2Z.id. rewrite drop_app_length.
  by rewrite take_app_length.
Qed.

Lemma drop_len_app {A} (pre post : list A) :
  drop (Z.to_nat (len pre)) (pre ++ post) = post.
Proof. unfold len. rewrite Nat2Z.id. apply drop_app_length. Qed.

Lemma split_at {A} (l : list A) (n : Z) :
  0 <= n <= len l -> exists l1 l2, l = l1 ++ l2 /\ len l1 = n.
Proof.
  intros Hn. exists (take (Z.to_nat n) l), (drop (Z.to_nat n) l).
  split; [by rewrite take_drop|].
  unfold len in *. rewrite length_take. lia.
Qed.

Lemma sovGenerated_nonneg v : 0 <= v -> 1 <= sovGenerated v.
Proof.
  intros Hv. unfold sovGenerated. rewrite Len64_lor_1 by done.
  pose proof (Z.log2_nonneg v).
  apply Z.div_le_lower_bound; lia.
Qed.

Lemma wireImage_len sub handler :
  len sub < 2 ^ 64 -> len handler < 2 ^ 64 ->
  len (wireImage sub handler)
  = (1 + len sub + sovGenerated (len sub))
    + (1 + len handler + sovGenerated (len handler)).
Proof.
  intros Hs Hh. unfold wireImage.
  pose proof (len_nonneg sub). pose proof (len_nonneg handler).
  rewrite len_cons, len_app, len_app, len_cons, len_app.
  rewrite !(varintBytes_length 9) by (apply uint64_bound_70; lia). lia.
Qed.

Section Marshal.
Context (meta : ObjectMetaMethods).
Implicit Types m : RuntimeClass meta.



Lemma wireSize_bounds m sub :
  subMarshals m sub -> wireSize m < 2 ^ 63 ->
  0 <= len sub < 2 ^ 63 - 2 /\ 0 <= len (Handler m) < 2 ^ 63 - 2
  /\ wireSize m = len (wireImage sub (Handler m)).
Proof.
  intros [Hsz _] Hfit. unfold wireSize in *. cbv zeta in *.
  rewrite <- Hsz in *.
  pose proof (len_nonneg sub). pose proof (len_nonneg (Handler m)).
  pose proof (sovGenerated_nonneg (len sub) ltac:(lia)).
  pose proof (sovGenerated_nonneg (len (Handler m)) ltac:(lia)).
  rewrite wireImage_len by lia. lia.
Qed.

Lemma RuntimeClass_Size_wireSize m sub :
  subMarshals m sub -> wireSize m < 2 ^ 63 ->
  RuntimeClass_Size meta m = wireSize m.
Proof.
  intros Hsub Hfit.
  destruct (wireSize_bounds m sub Hsub Hfit) as (Hs & Hh & _).
  destruct Hsub as [Hsz _].
  unfold wireSize, RuntimeClass_Size in *. cbv zeta in *. rewrite <- Hsz in *.
  pose proof (sovGenerated_nonneg (len sub) ltac:(lia)).
  pose proof (sovGenerated_nonneg (len (Handler m)) ltac:(lia)).
  rewrite !uint64_small by lia.
  rewrite (int_small (1 + len sub)) by lia.
  rewrite (int_small (1 + len (Handler m))) by lia.
  rewrite (int_small (1 + len sub + _)) by lia.
  rewrite (int_small (1 + len (Handler m) + _)) by lia.
  rewrite Z.add_0_l.
  rewrite (int_small (1 + len sub + _)) by lia.
  rewrite int_small by lia. done.
Qed.

(** [LahsramOt] on a buffer of exactly [Size] bytes writes the wire image
    and reports the whole length. *)
Lemma RuntimeClass_LahsramOt_image m sub dAtA :
  subMarshals m sub -> wireSize m < 2 ^ 63 ->
  len dAtA = wireSize m ->
  RuntimeClass_LahsramOt meta m dAtA
  = Ok (wireImage sub (Handler m), wireSize m).
Proof.
  intros Hsub Hfit Hlen.
  destruct (wireSize_bounds m sub Hsub Hfit) as (Hs & Hh & Himg).
  destruct Hsub as [Hsz Hmar].
  pose proof (sovGenerated_nonneg (len sub) ltac:(lia)) as Hsov1.
  pose proof (sovGenerated_nonneg (len (Handler m)) ltac:(lia)) as Hsov2.
  assert (Hws : wireSize m = (1 + len sub + sovGenerated (len sub))
                + (1 + len (Handler m) + sovGenerated (len (Handler m)))).
  { unfold wireSize. cbv zeta. by rewrite <- Hsz. }
  (* cut the buffer into the six regions the code fills *)
  destruct (split_at dAtA 1 ltac:(lia)) as (A & r1 & -> & HA).
  rewrite len_app in Hlen.
  destruct (split_at r1 (sovGenerated (len sub)) ltac:(lia)) as (B & r2 & -> & HB).
  rewrite len_app in Hlen.
  destruct (split_at r2 (len sub) ltac:(lia)) as (C & r3 & -> & HC).
  rewrite len_app in Hlen.
  destruct (split_at r3 1 ltac:(lia)) as (D & r4 & -> & HD).
  rewrite len_app in Hlen.
  destruct (split_at r4 (sovGenerated (len (Handler m))) ltac:(lia))
    as (E & F & -> & HE).
  rewrite len_app in Hlen.
  assert (HF : len F = len (Handler m)) by lia.
  destruct A as [|a [|]]; try (unfold len in HA; simpl in HA; lia).
  destruct D as [|d [|]]; try (unfold len in HD; simpl in HD; lia).
  unfold RuntimeClass_LahsramOt. cbv zeta.
  (* the handler bytes *)
  replace (int (len ([a] ++ B ++ C ++ [d] ++ E ++ F) - len (Handler m)))
    with (len ([a] ++ B ++ C ++ [d] ++ E)).
  2:{ rewrite !len_app in *. rewrite int_small; lia. }
  replace ([a] ++ B ++ C ++ [d] ++ E ++ F) with (([a] ++ B ++ C ++ [d] ++ E) ++ F)
    by (by rewrite <- !app_assoc).
  rewrite copyAt_app by (unfold len in HF; lia).
  cbn [mbind result_bind].
  (* its length *)
  rewrite uint64_small by lia.
  replace (([a] ++ B ++ C ++ [d] ++ E) ++ Handler m)
    with (([a] ++ B ++ C ++ [d]) ++ E ++ Handler m)
    by (by rewrite <- !app_assoc).
  replace (len ([a] ++ B ++ C ++ [d] ++ E)) with (len ([a] ++ B ++ C ++ [d]) + len E)
    by (rewrite !len_app; lia).
  rewrite encodeVarintGenerated_spec by (done || lia).
  cbn [mbind result_bind].
  (* the tag of field 2 *)
  replace (len ([a] ++ B ++ C ++ [d]) - 1) with (len ([a] ++ B ++ C))
    by (rewrite !len_app; unfold len; simpl; lia).
  rewrite (store_app _ ([a] ++ B ++ C) d
             (varintBytes 10 (len (Handler m)) ++ Handler m) 18)
    by (by rewrite <- !app_assoc).
  cbn [mbind result_bind].
  (* the sub-message *)
  rewrite slice_prefix. cbn [mbind result_bind].
  rewrite Hmar by (rewrite !len_app; lia).
  cbn [mbind result_bind].
  rewrite drop_len_app.
  replace (take (length ([a] ++ B ++ C) - length sub) ([a] ++ B ++ C))
    with ([a] ++ B).
  2:{ replace ([a] ++ B ++ C) with (([a] ++ B) ++ C) by (by rewrite <- app_assoc).
      rewrite length_app. unfold len in HC.
      replace (length ([a] ++ B) + length C - length sub)%nat
        with (length ([a] ++ B)) by lia.
      by rewrite take_app_length. }
  replace (int (len ([a] ++ B ++ C) - len sub)) with (len [a] + len B).
  2:{ rewrite !len_app. rewrite int_small; lia. }
  rewrite uint64_small by lia.
  replace ((([a] ++ B) ++ sub) ++ 18 :: varintBytes 10 (len (Handler m)) ++ Handler m)
    with ([a] ++ B ++ (sub ++ 18 :: varintBytes 10 (len (Handler m)) ++ Handler m))
    by (by rewrite <- !app_assoc).
  rewrite encodeVarintGenerated_spec by (done || lia).
  cbn [mbind result_bind].
  (* the tag of field 1 *)
  change (len [a] - 1) with (len (@nil Z)).
  rewrite (store_app _ [] a
             (varintBytes 10 (len sub)
                ++ sub ++ 18 :: varintBytes 10 (len (Handler m)) ++ Handler m) 10)
    by reflexivity.
  cbn [mbind result_bind]. f_equal. f_equal.
  change ([] ++ 10 :: varintBytes 10 (len sub)
            ++ sub ++ 18 :: varintBytes 10 (len (Handler m)) ++ Handler m)
    with (wireImage sub (Handler m)).
  rewrite <- Himg. change (len []) with 0. lia.
Qed.

Lemma RuntimeClass_Marshal_image m sub :
  subMarshals m sub -> wireSize m < 2 ^ 63 ->
  RuntimeClass_Marshal meta m = Ok (wireImage sub (Handler m)).
Proof.
  intros Hsub Hfit.
  destruct (wireSize_bounds m sub Hsub Hfit) as (Hs & Hh & Himg).
  unfold RuntimeClass_Marshal. cbv zeta.
  rewrite (RuntimeClass_Size_wireSize m sub) by done.
  pose proof (len_nonneg (wireImage sub (Handler m))).
  unfold make. destruct (Z.leb_spec 0 (wireSize m)); [|lia].
  cbn [mbind result_bind].
  set (buf := replicate (Z.to_nat (wireSize m)) 0).
  assert (Hbuf : len buf = wireSize m)
    by (unfold buf, len; rewrite length_replicate; lia).
  rewrite <- Hbuf at 1. rewrite <- (app_nil_r buf) at 1.
  rewrite slice_prefix. cbn [mbind result_bind].
  rewrite (RuntimeClass_LahsramOt_image m sub) by done.
  cbn [mbind result_bind].
  rewrite Himg. rewrite <- (app_nil_r (wireImage _ _)) at 1.
  apply slice_prefix.
Qed.

Lemma unmarshalLoop_S fuel dAtA m iNdEx :
  unmarshalLoop meta (S fuel) dAtA m iNdEx
  = let l := len dAtA in
    if iNdEx <? l then
      let preIndex := iNdEx in
      '(wire, iNdEx) ← readVarint 11 uint64 dAtA l 0 iNdEx 0;
      let fieldNum := int32 (Z.shiftr wire 3) in
      let wireType := int (Z.land wire 7) in
      if wireType =? 4 then Err ErrEndGroupForNonGroup
      else if fieldNum <=? 0 then Err (ErrIllegalTag fieldNum wire)
      else if fieldNum =? 1 then
        if negb (wireType =? 2) then Err (ErrWrongWireType wireType "ObjectMeta")
        else
          '(msglen, iNdEx) ← readVarint 11 int dAtA l 0 iNdEx 0;
          if msglen <? 0 then Err ErrInvalidLengthGenerated
          else
            let postIndex := int (iNdEx + msglen) in
            if postIndex <? 0 then Err ErrInvalidLengthGenerated
            else if l <? postIndex then Err ErrUnexpectedEOF
            else
              sub ← slice dAtA iNdEx postIndex;
              om ← ObjectMeta_Unmarshal meta (RuntimeClass_ObjectMeta m) sub;
              unmarshalLoop meta fuel dAtA (mkRuntimeClass om (Handler m)) postIndex
      else if fieldNum =? 2 then
        if negb (wireType =? 2) then Err (ErrWrongWireType wireType "Handler")
        else
          '(stringLen, iNdEx) ← readVarint 11 uint64 dAtA l 0 iNdEx 0;
          let intStringLen := int stringLen in
          if intStringLen <? 0 then Err ErrInvalidLengthGenerated
          else
            let postIndex := int (iNdEx + intStringLen) in
            if postIndex <? 0 then Err ErrInvalidLengthGenerated
            else if l <? postIndex then Err ErrUnexpectedEOF
            else
              sub ← slice dAtA iNdEx postIndex;
              unmarshalLoop meta fuel dAtA
                (mkRuntimeClass (RuntimeClass_ObjectMeta m) sub) postIndex
      else
        let iNdEx := preIndex in
        rest ← slice dAtA iNdEx l;
        skippy ← skipGenerated (2 * length rest + 2) rest;
        if skippy <? 0 then Err ErrInvalidLengthGenerated
        else if int (iNdEx + skippy) <? 0 then Err ErrInvalidLengthGenerated
        else if l <? int (iNdEx + skippy) then Err ErrUnexpectedEOF
        else unmarshalLoop meta fuel dAtA m (int (iNdEx + skippy))
    else if l <? iNdEx then Err ErrUnexpectedEOF
    else Ok m.
Proof. reflexivity. Qed.

(** Reading one length-delimited field header: a one-byte tag followed by
    the varint of the payload length. *)
Lemma read_tag conv dAtA pre tag rest iNdEx :
  keepsSmall conv -> 0 <= tag < 128 ->
  dAtA = pre ++ tag :: rest -> iNdEx = len pre ->
  readVarint 11 conv dAtA (len dAtA) 0 iNdEx 0 = Ok (tag, iNdEx + 1).
Proof.
  intros Hconv Htag -> ->.
  rewrite (readVarint_varintBytes conv 0 Hconv 11 tag 0 0 _ (len pre) rest).
  - rewrite Z.mul_1_r, Z.add_0_l. rewrite (varintBytes_S 0).
    destruct (Z.leb_spec 128 tag); [lia|]. done.
  - change (2 ^ (7 * Z.of_nat 1)) with 128. lia.
  - lia.
  - change (2 ^ 0) with 1. lia.
  - lia.
  - apply len_nonneg.
  - rewrite drop_len_app, (varintBytes_S 0).
    destruct (Z.leb_spec 128 tag); [lia|]. done.
  - lia.
Qed.

Lemma read_length conv dAtA pre v rest iNdEx :
  keepsSmall conv -> 0 <= v < 2 ^ 63 ->
  dAtA = pre ++ varintBytes 10 v ++ rest -> iNdEx = len pre ->
  readVarint 11 conv dAtA (len dAtA) 0 iNdEx 0
  = Ok (v, iNdEx + sovGenerated v).
Proof.
  intros Hconv Hv -> ->.
  rewrite (readVarint_varintBytes conv 9 Hconv 11 v 0 0 _ (len pre) rest).
  - rewrite Z.mul_1_r, Z.add_0_l.
    rewrite varintBytes_length by (apply uint64_bound_70; lia). done.
  - apply uint64_bound_70; lia.
  - lia.
  - change (2 ^ 0) with 1. lia.
  - lia.
  - apply len_nonneg.
  - by rewrite drop_len_app.
  - lia.
Qed.

Lemma unmarshalLoop_image fuel (m0 : RuntimeClass meta) sub handler om' :
  len sub < 2 ^ 63 -> len handler < 2 ^ 63 ->
  len (wireImage sub handler) < 2 ^ 63 ->
  ObjectMeta_Unmarshal meta (RuntimeClass_ObjectMeta m0) sub = Ok om' ->
  (3 <= fuel)%nat ->
  unmarshalLoop meta fuel (wireImage sub handler) m0 0
  = Ok (mkRuntimeClass om' handler).
Proof.
  intros Hs Hh Hfit Hunm Hfuel.
  pose proof (len_nonneg sub). pose proof (len_nonneg handler).
  pose proof (sovGenerated_nonneg (len sub) ltac:(lia)) as Hsov1.
  pose proof (sovGenerated_nonneg (len handler) ltac:(lia)) as Hsov2.
  pose proof (wireImage_len sub handler ltac:(lia) ltac:(lia)) as Hlen.
  set (W := wireImage sub handler) in *.
  set (vs := varintBytes 10 (len sub)).
  set (vh := varintBytes 10 (len handler)).
  assert (Hvs : len vs = sovGenerated (len sub))
    by (apply (varintBytes_length 9), uint64_bound_70; lia).
  assert (Hvh : len vh = sovGenerated (len handler))
    by (apply (varintBytes_length 9), uint64_bound_70; lia).
  destruct fuel as [|[|[|fuel]]]; try lia.
  (* field 1: tag, length, ObjectMeta *)
  rewrite unmarshalLoop_S. cbv zeta.
  destruct (Z.ltb_spec 0 (len W)); [|lia].
  rewrite (read_tag uint64 W [] 10 (vs ++ sub ++ 18 :: vh ++ handler) 0)
    by (done || apply keepsSmall_uint64 || lia).
  cbn [mbind result_bind].
  change (int32 (Z.shiftr 10 3)) with 1. change (int (Z.land 10 7)) with 2.
  cbn [Z.eqb Z.leb Z.compare Pos.eqb Pos.compare Pos.compare_cont negb].
  rewrite (read_length int W [10] (len sub) (sub ++ 18 :: vh ++ handler) (0 + 1))
    by (done || apply keepsSmall_int || lia).
  cbn [mbind result_bind].
  destruct (Z.ltb_spec (len sub) 0); [lia|].
  rewrite (int_small (0 + 1 + _ + len sub)) by lia.
  destruct (Z.ltb_spec (0 + 1 + sovGenerated (len sub) + len sub) 0); [lia|].
  destruct (Z.ltb_spec (len W) (0 + 1 + sovGenerated (len sub) + len sub)); [lia|].
  replace (0 + 1 + sovGenerated (len sub)) with (len (10 :: vs))
    by (rewrite len_cons; lia).
  replace W with ((10 :: vs) ++ sub ++ 18 :: vh ++ handler) at 1
    by (by rewrite <- app_comm_cons).
  rewrite slice_mid. cbn [mbind result_bind].
  rewrite Hunm. cbn [mbind result_bind].
  (* field 2: tag, length, Handler *)
  rewrite unmarshalLoop_S. cbv zeta.
  destruct (Z.ltb_spec (len (10 :: vs) + len sub) (len W));
    [|rewrite len_cons in *; lia].
  assert (HW2 : W = ((10 :: vs) ++ sub) ++ 18 :: vh ++ handler).
  { unfold W, wireImage, vs, vh. rewrite <- app_assoc. reflexivity. }
  rewrite (read_tag uint64 W ((10 :: vs) ++ sub) 18 (vh ++ handler) _
             keepsSmall_uint64 ltac:(lia) HW2 (eq_sym (len_app _ _))).
  cbn [mbind result_bind].
  change (int32 (Z.shiftr 18 3)) with 2. change (int (Z.land 18 7)) with 2.
  cbn [Z.eqb Z.leb Z.compare Pos.eqb Pos.compare Pos.compare_cont negb].
  assert (HW3 : W = ((10 :: vs) ++ sub ++ [18]) ++ vh ++ handler).
  { unfold W, wireImage, vs, vh. by rewrite <- !app_assoc. }
  rewrite (read_length uint64 W ((10 :: vs) ++ sub ++ [18]) (len handler) handler _
             keepsSmall_uint64 ltac:(lia) HW3)
    by (rewrite !len_app; change (len [18]) with 1; lia).
  cbn [mbind result_bind].
  rewrite (int_small (len handler)) by lia.
  destruct (Z.ltb_spec (len handler) 0); [lia|].
  rewrite len_cons in *.
  rewrite int_small by lia.
  match goal with |- context [?a <? 0] => destruct (Z.ltb_spec a 0); [lia|] end.
  match goal with |- context [len W <? ?a] =>
    destruct (Z.ltb_spec (len W) a); [lia|] end.
  replace (1 + len vs + len sub + 1 + sovGenerated (len handler))
    with (len ((10 :: vs) ++ sub ++ 18 :: vh))
    by (repeat first [rewrite len_app | rewrite len_cons]; lia).
  replace W with (((10 :: vs) ++ sub ++ 18 :: vh) ++ handler ++ []) at 1
    by (unfold W, wireImage, vs, vh; rewrite app_nil_r, <- !app_assoc;
        reflexivity).
  rewrite slice_mid. cbn [mbind result_bind].
  (* end of input *)
  rewrite unmarshalLoop_S. cbv zeta.
  replace (len ((10 :: vs) ++ sub ++ 18 :: vh) + len handler) with (len W)
    by (repeat first [rewrite len_app | rewrite len_cons]; lia).
  rewrite Z.ltb_irrefl. done.
Qed.

Lemma RuntimeClass_Unmarshal_image (m0 : RuntimeClass meta) sub handler om' :
  len sub < 2 ^ 63 -> len handler < 2 ^ 63 ->
  len (wireImage sub handler) < 2 ^ 63 ->
  ObjectMeta_Unmarshal meta (RuntimeClass_ObjectMeta m0) sub = Ok om' ->
  RuntimeClass_Unmarshal meta m0 (wireImage sub handler)
  = Ok (mkRuntimeClass om' handler).
Proof.
  intros Hs Hh Hfit Hunm. unfold RuntimeClass_Unmarshal.
  apply unmarshalLoop_image; try done.
  pose proof (len_nonneg sub) as H0. pose proof (len_nonneg handler) as H1.
  pose proof (wireImage_len sub handler ltac:(lia) ltac:(lia)) as Hlen.
  pose proof (sovGenerated_nonneg _ H0).
  pose proof (sovGenerated_nonneg _ H1).
  unfold len in *. lia.
Qed.


(** C10.  When the ObjectMeta sub-message of [m] marshals into [sub] as its
    own [Size] announces, and the message fits Go's [int], [Marshal]
    returns exactly [Size] bytes, and [Unmarshal] of those bytes into a zero
    [RuntimeClass] succeeds with the same [Handler] and with the ObjectMeta
    that the sub-message's own [Unmarshal] rebuilds from [sub]; when that is
    the original ObjectMeta, the round trip returns [m]. *)
Theorem RuntimeClass_Marshal_Unmarshal m (sub : list Z) (om' : ObjectMeta meta) :
  subMarshals m sub ->
  wireSize m < 2 ^ 63 ->
  ObjectMeta_Unmarshal meta (ObjectMeta_zero meta) sub = Ok om' ->
  exists dAtA,
    RuntimeClass_Marshal meta m = Ok dAtA
    /\ len dAtA = RuntimeClass_Size meta m
    /\ RuntimeClass_Unmarshal meta (RuntimeClass_zero meta) dAtA
       = Ok (mkRuntimeClass om' (Handler m))
    /\ (om' = RuntimeClass_ObjectMeta m ->
        RuntimeClass_Unmarshal meta (RuntimeClass_zero meta) dAtA = Ok m).
Proof.
  intros Hsub Hfit Hunm.
  destruct (wireSize_bounds m sub Hsub Hfit) as (Hs & Hh & Himg).
  assert (Hround : RuntimeClass_Unmarshal meta (RuntimeClass_zero meta)
                     (wireImage sub (Handler m))
                   = Ok (mkRuntimeClass om' (Handler m))).
  { apply RuntimeClass_Unmarshal_image; [lia|lia|lia|exact Hunm]. }
  exists (wireImage sub (Handler m)). split; [|split; [|split]].
  - by apply RuntimeClass_Marshal_image.
  - rewrite (RuntimeClass_Size_wireSize m sub) by done. by rewrite Himg.
  - exact Hround.
  - intros ->. rewrite Hround. by destruct m.
Qed.

End Marshal.

(** The round trip on a concrete class whose ObjectMeta is three raw
    bytes. *)
Lemma RuntimeClass_Marshal_Unmarshal_witness :
  exists dAtA,
    RuntimeClass_Marshal rawMeta runcClass = Ok dAtA
    /\ len dAtA = RuntimeClass_Size rawMeta runcClass
    /\ RuntimeClass_Unmarshal rawMeta (RuntimeClass_zero rawMeta) dAtA
       = Ok (mkRuntimeClass (meta := rawMeta) [1; 2; 3] (Handler runcClass))
    /\ ([1; 2; 3] = RuntimeClass_ObjectMeta runcClass ->
        RuntimeClass_Unmarshal rawMeta (RuntimeClass_zero rawMeta) dAtA
        = Ok runcClass).
Proof.
  apply (RuntimeClass_Marshal_Unmarshal rawMeta runcClass [1; 2; 3]).
  - split; [reflexivity|]. intros buf Hbuf. simpl.
    destruct (Z.leb_spec (len [1; 2; 3]) (len buf)); [reflexivity|lia].
  - reflexivity.
  - reflexivity.
Defined.

End NodeV1beta1Facts.

(* ===================================================================== *)
(** ** Facts about the managed-fields ledger and the pipeline             *)
(* ===================================================================== *)

Module FieldManagerFacts.
Import FieldManager.


(** *** Strings *)




Lemma splitOn_nonempty sep s : splitOn sep s <> [].
Proof.
  destruct s as [|a s]; simpl; [done|].
  destruct (Ascii.eqb a sep); [done|]. by destruct (splitOn sep s).
Qed.





(** *** Path elements *)







(** *** Field sets *)










(** *** The ledger *)







(** *** The core manager *)





(** *** Lookups in the ledger after a write *)
















Lemma keepNonEmpty_again (o : option LedgerEntry) :
  (o ≫= keepNonEmpty) ≫= keepNonEmpty = o ≫= keepNonEmpty.
Proof.
  destruct o as [e|]; [|done]. simpl. unfold keepNonEmpty at 2 3.
  destruct (decide (entryFields e = ∅)); [done|]. simpl.
  unfold keepNonEmpty. by destruct (decide (entryFields e = ∅)).
Qed.



(** *** The ledger of an Apply, and of the same Apply again *)

Section ApplyTwice.
Context (m0 : gmap string LedgerEntry) (B ver : string).
Context (I L : gmap Path Scalar) (now : Z).

Let changed := changedPaths L I.
Let mc := ledgerApply m0 B ver (dom I) changed.
Let F1 := applyFields L I (ownedByOthers B mc).
Let ms := stripAcquired m0 B mc.
Let m1 := if decide (F1 = L /\ ms !! B = m0 !! B) then ms else stamp B now ms.










End ApplyTwice.



(** *** Ownership after an Update *)






Section UpdateOnce.
Context (m0 : gmap string LedgerEntry) (B ver : string).
Context (N L : gmap Path Scalar) (now : Z).

Let changed := changedPaths L N.
Let mu := if decide (changed = ∅) then m0
          else ledgerUpdate m0 B OpUpdate ver changed.
Let ms := stripAcquired m0 B mu.
Let m1 := if decide (N ∪ L = L /\ ms !! B = m0 !! B) then ms else stamp B now ms.





End UpdateOnce.

(** *** The pipeline, stage by stage *)

Section PipelineStages.
Context (c : Collaborators).

Lemma Pipeline_Apply_invalid_manager live intent managed manager force now :
  manager = "" \/ manager ∈ reservedManagers c ->
  Apply (Pipeline c) live intent managed manager force now
  = Err (Invalid "invalid field manager").
Proof. intros H. simpl. by destruct (decide _). Qed.

Lemma Pipeline_Apply_managedFields live intent managed manager force now :
  manager <> "" -> manager ∉ reservedManagers c ->
  objManagedFields intent <> [] ->
  Apply (Pipeline c) live intent managed manager force now
  = Err (Invalid "metadata.managedFields must be nil").
Proof.
  intros H1 H2 H3. simpl.
  destruct (decide _) as [[?|?]|_]; [done|done|].
  by destruct (objManagedFields intent).
Qed.



End PipelineStages.

Section Claims.
Context (c : Collaborators).







(** C7 (amended).  An Apply whose intent carries managed-fields metadata is
    rejected as Invalid.  An Update is rejected as Invalid when the metadata
    it carries holds a row that decodes; rows that are corrupt are dropped,
    and the Update proceeds as if the document carried none. *)
Theorem forged_managedFields (live doc : Object) (manager : string) (now : Z) :
  (objManagedFields doc <> [] ->
   forall force, exists msg,
     FieldManager_Apply (Pipeline c) live doc manager force now = Err (Invalid msg))
  /\ (DecodeManagedFields (objManagedFields doc) <> ∅ ->
      exists msg,
        FieldManager_Update (Pipeline c) live doc manager now = Err (Invalid msg))
  /\ (DecodeManagedFields (objManagedFields doc) = ∅ ->
      FieldManager_Update (Pipeline c) live doc manager now
      = FieldManager_Update (Pipeline c) live (removeManagedFields doc) manager now).
Proof.
  split; [|split].
  - intros Hmf force. unfold FieldManager_Apply. cbv zeta.
    destruct (decide (manager = "" \/ manager ∈ reservedManagers c)) as [Hbad|Hok].
    + rewrite Pipeline_Apply_invalid_manager by done. eauto.
    + rewrite Pipeline_Apply_managedFields; [eauto|tauto|tauto|done].
  - intros Hmf. unfold FieldManager_Update. cbv zeta. simpl.
    destruct (decide _); [eauto|].
    destruct (decide (DecodeManagedFields (objManagedFields doc) = ∅)); [done|eauto].
  - intros Hmf. unfold FieldManager_Update. cbv zeta. simpl.
    destruct (decide _); [done|].
    by destruct (decide (DecodeManagedFields (objManagedFields doc) = ∅)).
Qed.

(** C8.  An Apply whose intent declares a version that differs from the
    live object's and that the converter cannot translate fails with a
    client error; once the outer decorators have let the request through,
    the error is VersionMismatch with status 400.  An Apply whose intent
    declares the live object's version never fails with VersionMismatch. *)
Theorem Apply_version_check (live intent : Object) (manager : string)
    (force : bool) (now : Z) :
  (objAPIVersion intent <> objAPIVersion live ->
   cannotTranslate c intent (objAPIVersion live) ->
   (exists e, FieldManager_Apply (Pipeline c) live intent manager force now = Err e
              /\ 400 <= statusCode e < 500)
   /\ (manager <> "" -> manager ∉ reservedManagers c ->
       objManagedFields intent = [] ->
       FieldManager_Apply (Pipeline c) live intent manager force now
       = Err (VersionMismatch (objAPIVersion intent) (objAPIVersion live))
       /\ statusCode (VersionMismatch (objAPIVersion intent) (objAPIVersion live))
          = 400))
  /\ (objAPIVersion intent = objAPIVersion live ->
      forall declared liveVersion,
        FieldManager_Apply (Pipeline c) live intent manager force now
        <> Err (VersionMismatch declared liveVersion)).
Proof.
  split.
  - intros Hne Hcannot.
    assert (Hcore : Apply (NewStructuredMergeManager c) (removeManagedFields live)
                      intent (DecodeManagedFields (objManagedFields live))
                      manager force now
                    = Err (VersionMismatch (objAPIVersion intent) (objAPIVersion live))).
    { simpl. destruct (decide _) as [|_]; [done|].
      destruct (Convert c intent (objAPIVersion live)) as [o|] eqn:Hconv; [|done].
      destruct (decide _) as [Heq|_]; [|done]. by apply Hcannot in Hconv. }
    split.
    + unfold FieldManager_Apply. cbv zeta.
      destruct (decide (manager = "" \/ manager ∈ reservedManagers c)) as [Hbad|Hok].
      { rewrite Pipeline_Apply_invalid_manager by done. eexists. split; [done|].
        simpl. lia. }
      destruct (objManagedFields intent) as [|pe mf] eqn:Hmf.
      * change (Apply (Pipeline c)) with
          (Apply (BuildManagerInfo c (ManagedFieldsUpdater
                    (StripMeta (NewStructuredMergeManager c))))).
        cbn [Apply BuildManagerInfo ManagedFieldsUpdater StripMeta].
        destruct (decide _) as [|_]; [done|]. rewrite Hmf, Hcore.
        eexists. split; [done|]. simpl. lia.
      * rewrite Pipeline_Apply_managedFields; [|tauto|tauto|by rewrite Hmf].
        eexists. split; [done|]. simpl. lia.
    + intros Hm1 Hm2 Hmf. split; [|done].
      unfold FieldManager_Apply. cbv zeta.
      change (Apply (Pipeline c)) with
        (Apply (BuildManagerInfo c (ManagedFieldsUpdater
                  (StripMeta (NewStructuredMergeManager c))))).
      cbn [Apply BuildManagerInfo ManagedFieldsUpdater StripMeta].
      destruct (decide _) as [[?|?]|_]; [done|done|]. by rewrite Hmf, Hcore.
  - intros Heq declared liveVersion. unfold FieldManager_Apply. cbv zeta. simpl.
    destruct (decide _); [done|].
    destruct (objManagedFields intent); [|done].
    destruct (decide (objAPIVersion intent = objAPIVersion live)); [|done].
    unfold structuredMergeApply. cbv zeta.
    destruct (decide _); [done|]. cbn [mbind Result_bind].
    by destruct (decide _).
Qed.





End Claims.

(** *** The tests of the repository, replayed *)

Lemma NewTestFieldManager_Pipeline (c : Collaborators) (apiVersion kind : string) :
  fieldManager (NewTestFieldManager c apiVersion kind) = Pipeline c.
Proof. reflexivity. Qed.

(** TestNoOpChanges: the Apply of a second manager changes the object; the
    Update and the Apply that follow do not. *)
Example TestNoOpChanges :
  snd noOp1 = None /\ snd noOp2 = None
  /\ liveObj (fst noOp2) <> liveObj (fst noOp1)
  /\ snd noOp3 = None /\ liveObj (fst noOp3) = liveObj (fst noOp2)
  /\ snd noOp4 = None /\ liveObj (fst noOp4) = liveObj (fst noOp3).
Proof.
  split; [vm_compute; reflexivity|].
  split; [vm_compute; reflexivity|].
  split.
  { intros Heq. apply (f_equal (fun o => length (objManagedFields o))) in Heq.
    vm_compute in Heq. discriminate Heq. }
  split; [vm_compute; reflexivity|].
  split; [vm_compute; reflexivity|].
  split; [vm_compute; reflexivity|].
  vm_compute; reflexivity.
Qed.

(** TestUpdateApplyConflict: the Apply is refused with a conflict on
    [spec.replicas], held by the manager of the Update. *)
Example TestUpdateApplyConflict :
  snd conflict1 = None
  /\ snd conflict2
     = Some (Conflict {[ "fieldmanager_test" := {[ field ["spec"; "replicas"] ]} ]})
  /\ statusCode (Conflict {[ "fieldmanager_test" := {[ field ["spec"; "replicas"] ]} ]})
     = 409.
Proof.
  split; [vm_compute; reflexivity|].
  split; [vm_compute; reflexivity|reflexivity].
Qed.

(** TestInvalidManagedFieldsIsDropped. *)
Example TestInvalidManagedFieldsIsDropped :
  snd dropped2 = None
  /\ Manager <$> TestFieldManager_ManagedFields (fst dropped2)
     = ["fieldmanager_test"; "fieldmanager_test_2"].
Proof. split; vm_compute; reflexivity. Qed.

(** TestApplyStripsFields. *)
Example TestApplyStripsFields :
  snd strips1 = None /\ TestFieldManager_ManagedFields (fst strips1) = [].
Proof. split; vm_compute; reflexivity. Qed.

(** TestVersionCheck and TestVersionCheckDoesNotPanic. *)
Example TestVersionCheck :
  snd version1 = None
  /\ snd version2 = Some (VersionMismatch "apps/v1beta1" "apps/v1")
  /\ snd version3 = Some (VersionMismatch "" "apps/v1")
  /\ statusCode (VersionMismatch "apps/v1beta1" "apps/v1") = 400.
Proof.
  split; [vm_compute; reflexivity|].
  split; [vm_compute; reflexivity|].
  split; [vm_compute; reflexivity|reflexivity].
Qed.

(** TestApplyDoesNotStripLabels and TestApplyFailsWithManagedFields. *)
Example TestApplyLabelsAndManagedFields :
  snd labels1 = None
  /\ length (TestFieldManager_ManagedFields (fst labels1)) = 1%nat
  /\ snd forged1 = Some (Invalid "metadata.managedFields must be nil").
Proof.
  split; [vm_compute; reflexivity|].
  split; vm_compute; reflexivity.
Qed.

(** *** The claims on the documents of the tests *)








(** C7, as stated, fails for Update: the document of TestApplyStripsFields
    carries a managed-fields row, and the Update that submits it returns no
    error. *)
Lemma forged_managedFields_Update_counterexample :
  objManagedFields strippedObj
  = [mkManagedFieldsEntry "update" OpApply "apps/v1" None "" (FieldsNode [])]
  /\ strips1 = TestFieldManager_Update deploymentManager strippedObj "fieldmanager_test" 1
  /\ snd strips1 = None
  /\ TestFieldManager_ManagedFields (fst strips1) = [].
Proof.
  split; [reflexivity|]. split; [reflexivity|].
  split; vm_compute; reflexivity.
Qed.

Lemma forged_managedFields_witness :
  (exists msg,
     FieldManager_Apply (Pipeline fakeCollaborators) (liveObj podManager) forgedObj
       "fieldmanager_test" false 1 = Err (Invalid msg))
  /\ FieldManager_Update (Pipeline fakeCollaborators) (liveObj deploymentManager)
       strippedObj "fieldmanager_test" 1
     = FieldManager_Update (Pipeline fakeCollaborators) (liveObj deploymentManager)
         (removeManagedFields strippedObj) "fieldmanager_test" 1.
Proof.
  destruct (forged_managedFields fakeCollaborators (liveObj podManager) forgedObj
              "fieldmanager_test" 1) as (Happly & _ & _).
  destruct (forged_managedFields fakeCollaborators (liveObj deploymentManager)
              strippedObj "fieldmanager_test" 1) as (_ & _ & Hupdate).
  split.
  - apply Happly. discriminate.
  - apply Hupdate. vm_compute; reflexivity.
Defined.

Lemma fake_cannotTranslate (intent : Object) (target : string) :
  objAPIVersion intent <> target -> cannotTranslate fakeCollaborators intent target.
Proof. intros Hne o [= <-]. done. Qed.

Lemma Apply_version_check_witness :
  FieldManager_Apply (Pipeline fakeCollaborators) (liveObj (fst version1))
    (versionObj "apps/v1beta1") "fieldmanager_test" false 2
  = Err (VersionMismatch "apps/v1beta1" "apps/v1")
  /\ statusCode (VersionMismatch "apps/v1beta1" "apps/v1") = 400.
Proof.
  destruct (Apply_version_check fakeCollaborators (liveObj (fst version1))
              (versionObj "apps/v1beta1") "fieldmanager_test" false 2)
    as [Hmismatch _].
  destruct Hmismatch as [_ Herr].
  - discriminate.
  - apply fake_cannotTranslate. discriminate.
  - apply Herr; [discriminate|simpl; apply not_elem_of_empty|reflexivity].
Defined.

End FieldManagerFacts.

(* ===================================================================== *)
(** ** More facts about the generated code of node/v1beta1                *)
(* ===================================================================== *)

Module NodeExtFacts.
Import NodeV1beta1 NodeV1beta1Facts NodeExt.

(** *** Integer conversions, [sovGenerated], the varint reader *)

(** *** Words *)

Lemma int_range x : - 2 ^ 63 <= int x < 2 ^ 63.
Proof. unfold int. pose proof (Z.mod_pos_bound (x + 2 ^ 63) (2 ^ 64)). lia. Qed.

Lemma uint64_range x : 0 <= uint64 x < 2 ^ 64.
Proof. unfold uint64. apply Z.mod_pos_bound. lia. Qed.

Lemma signed_word_div z : - 2 ^ 63 <= z < 2 ^ 63 <-> z / 2 ^ 63 = 0 \/ z / 2 ^ 63 = -1.
Proof.
  pose proof (Z.div_mod z (2 ^ 63) ltac:(lia)) as Hdm.
  pose proof (Z.mod_pos_bound z (2 ^ 63) ltac:(lia)) as Hm.
  split; [intros Hz|intros [Hq|Hq]]; lia.
Qed.

Lemma lor_signed_word a b :
  - 2 ^ 63 <= a < 2 ^ 63 -> - 2 ^ 63 <= b < 2 ^ 63 ->
  - 2 ^ 63 <= Z.lor a b < 2 ^ 63.
Proof.
  intros Ha Hb. apply signed_word_div in Ha, Hb. apply signed_word_div.
  rewrite <- !Z.shiftr_div_pow2 in * by lia. rewrite Z.shiftr_lor.
  destruct Ha as [-> | ->], Hb as [-> | ->]; simpl; auto.
Qed.

Lemma lor_unsigned_word a b :
  0 <= a < 2 ^ 64 -> 0 <= b < 2 ^ 64 -> 0 <= Z.lor a b < 2 ^ 64.
Proof.
  intros Ha Hb. split; [apply Z.lor_nonneg; lia|].
  destruct (Z.eq_dec (Z.lor a b) 0) as [->|Hne]; [lia|].
  assert (0 < Z.lor a b) by (pose proof (proj2 (Z.lor_nonneg a b)); lia).
  apply Z.log2_lt_pow2; [done|]. rewrite Z.log2_lor by lia.
  destruct (Z.eq_dec a 0) as [->|]; destruct (Z.eq_dec b 0) as [->|];
    simpl; try lia.
  - apply Z.max_lub_lt; [simpl; lia|]. apply Z.log2_lt_pow2; lia.
  - apply Z.max_lub_lt; [|simpl; lia]. apply Z.log2_lt_pow2; lia.
  - apply Z.max_lub_lt; apply Z.log2_lt_pow2; lia.
Qed.

(** *** [sovGenerated] *)

(** X3.  [sovGenerated] counts the base-128 digits of its argument: for a
    64-bit [x] the answer [n] lies between 1 and 10, [x] is below [128^n],
    and, when [n] exceeds 1, [x] is at least [128^(n-1)]. *)
Theorem sovGenerated_digits x :
  0 <= x < 2 ^ 64 ->
  1 <= sovGenerated x <= 10
  /\ x < 2 ^ (7 * sovGenerated x)
  /\ (1 < sovGenerated x -> 2 ^ (7 * (sovGenerated x - 1)) <= x).
Proof.
  intros Hx. split; [by apply sovGenerated_range|].
  destruct (Z.eq_dec x 0) as [->|Hne]; [vm_compute; split; [done|intros; discriminate]|].
  assert (0 < x) as Hpos by lia.
  unfold sovGenerated. rewrite Len64_lor_1 by lia.
  destruct (Z.log2_spec x Hpos) as [Hlo Hhi].
  pose proof (Z.log2_nonneg x) as Hl0.
  set (k := (Z.log2 x + 1 + 6) / 7).
  assert (7 * k <= Z.log2 x + 7 < 7 * k + 7) as Hk.
  { unfold k. pose proof (Z.div_mod (Z.log2 x + 1 + 6) 7 ltac:(lia)).
    pose proof (Z.mod_pos_bound (Z.log2 x + 1 + 6) 7 ltac:(lia)). lia. }
  split.
  - eapply Z.lt_le_trans; [exact Hhi|]. apply Z.pow_le_mono_r; lia.
  - intros _. eapply Z.le_trans; [|exact Hlo]. apply Z.pow_le_mono_r; lia.
Qed.

(** *** [readVarint] *)

Lemma readVarint_index fuel conv dAtA l shift iNdEx acc v j :
  readVarint fuel conv dAtA l shift iNdEx acc = Ok (v, j) ->
  iNdEx < j <= l.
Proof.
  revert shift iNdEx acc. induction fuel as [|fuel IH]; intros shift iNdEx acc; [done|].
  rewrite readVarint_S.
  destruct (64 <=? shift); [done|].
  destruct (Z.leb_spec l iNdEx); [done|].
  destruct (dAtA !! Z.to_nat iNdEx) as [b|]; [|done]. cbv zeta.
  destruct (b <? 128).
  - intros [= <- <-]. lia.
  - intros H'. apply IH in H'. lia.
Qed.

Lemma readVarint_returned fuel conv dAtA shift iNdEx acc :
  0 <= iNdEx -> (1 <= fuel)%nat -> 64 <= shift + 7 * (Z.of_nat fuel - 1) ->
  returned (readVarint fuel conv dAtA (len dAtA) shift iNdEx acc).
Proof.
  revert shift iNdEx acc.
  induction fuel as [|fuel IH]; intros shift iNdEx acc Hi Hf1 Hf; [lia|].
  - rewrite readVarint_S.
    destruct (Z.leb_spec 64 shift); [done|].
    destruct (Z.leb_spec (len dAtA) iNdEx); [done|].
    destruct (dAtA !! Z.to_nat iNdEx) as [b|] eqn:Hb.
    + cbv zeta. destruct (b <? 128); [done|]. apply IH; lia.
    + apply lookup_ge_None in Hb. unfold len in *. lia.
Qed.

Lemma readVarint_int fuel dAtA l shift iNdEx acc v j :
  - 2 ^ 63 <= acc < 2 ^ 63 ->
  readVarint fuel int dAtA l shift iNdEx acc = Ok (v, j) ->
  - 2 ^ 63 <= v < 2 ^ 63.
Proof.
  revert shift iNdEx acc. induction fuel as [|fuel IH]; intros shift iNdEx acc Hacc; [done|].
  rewrite readVarint_S.
  destruct (64 <=? shift); [done|].
  destruct (l <=? iNdEx); [done|].
  destruct (dAtA !! Z.to_nat iNdEx) as [b|]; [|done]. cbv zeta.
  pose proof (lor_signed_word acc _ Hacc (int_range (Z.shiftl (int (Z.land b 127)) shift))).
  destruct (b <? 128).
  - by intros [= <- <-].
  - by apply IH.
Qed.

Lemma readVarint_uint64 fuel dAtA l shift iNdEx acc v j :
  0 <= acc < 2 ^ 64 ->
  readVarint fuel uint64 dAtA l shift iNdEx acc = Ok (v, j) ->
  0 <= v < 2 ^ 64.
Proof.
  revert shift iNdEx acc. induction fuel as [|fuel IH]; intros shift iNdEx acc Hacc; [done|].
  rewrite readVarint_S.
  destruct (64 <=? shift); [done|].
  destruct (l <=? iNdEx); [done|].
  destruct (dAtA !! Z.to_nat iNdEx) as [b|]; [|done]. cbv zeta.
  pose proof (lor_unsigned_word acc _ Hacc
                (uint64_range (Z.shiftl (uint64 (Z.land b 127)) shift))).
  destruct (b <? 128).
  - by intros [= <- <-].
  - by apply IH.
Qed.

(** A varint read in a buffer is read alike when the buffer stands inside a
    longer one. *)
Lemma readVarint_relocate fuel conv rest pre post shift iNdEx acc v j :
  0 <= iNdEx ->
  readVarint fuel conv rest (len rest) shift iNdEx acc = Ok (v, j) ->
  readVarint fuel conv (pre ++ rest ++ post) (len (pre ++ rest ++ post)) shift
    (len pre + iNdEx) acc
  = Ok (v, len pre + j).
Proof.
  revert shift iNdEx acc. induction fuel as [|fuel IH]; intros shift iNdEx acc Hi; [done|].
  rewrite !readVarint_S.
  destruct (64 <=? shift); [done|].
  destruct (Z.leb_spec (len rest) iNdEx); [done|].
  pose proof (len_nonneg pre). pose proof (len_nonneg post).
  destruct (Z.leb_spec (len (pre ++ rest ++ post)) (len pre + iNdEx)) as [Hge|_].
  { rewrite !len_app in Hge. lia. }
  replace (Z.to_nat (len pre + iNdEx)) with (length pre + Z.to_nat iNdEx)%nat
    by (unfold len; lia).
  rewrite lookup_app_r by lia.
  replace (length pre + Z.to_nat iNdEx - length pre)%nat with (Z.to_nat iNdEx) by lia.
  destruct (rest !! Z.to_nat iNdEx) as [b|] eqn:Hb; [|done].
  rewrite (lookup_app_l_Some _ _ _ _ Hb). cbv zeta.
  destruct (b <? 128).
  - intros [= <- <-]. f_equal. f_equal. lia.
  - intros H'. apply IH in H'; [|lia]. rewrite <- H'. f_equal. lia.
Qed.

Section Step.
Context (meta : ObjectMetaMethods).

Lemma unmarshalLoop_step fuel dAtA (m : RuntimeClass meta) iNdEx :
  unmarshalLoop meta (S fuel) dAtA m iNdEx
  = if iNdEx <? len dAtA then
      '(m', iNdEx') ← unmarshalStep meta dAtA m iNdEx;
      unmarshalLoop meta fuel dAtA m' iNdEx'
    else if len dAtA <? iNdEx then Err ErrUnexpectedEOF
    else Ok m.
Proof.
  rewrite unmarshalLoop_S. cbv zeta. unfold unmarshalStep. cbv zeta.
  destruct (iNdEx <? len dAtA); [|done].
  destruct (readVarint 11 uint64 dAtA (len dAtA) 0 iNdEx 0) as [[wire i1]| | |]; try done.
  cbn [mbind result_bind].
  destruct (int (Z.land wire 7) =? 4); [done|].
  destruct (int32 (Z.shiftr wire 3) <=? 0); [done|].
  destruct (int32 (Z.shiftr wire 3) =? 1).
  { destruct (negb _); [done|].
    destruct (readVarint 11 int dAtA (len dAtA) 0 i1 0) as [[msglen i2]| | |]; try done.
    cbn [mbind result_bind].
    destruct (msglen <? 0); [done|]. destruct (int (i2 + msglen) <? 0); [done|].
    destruct (len dAtA <? int (i2 + msglen)); [done|].
    destruct (slice dAtA i2 (int (i2 + msglen))) as [sub| | |]; try done.
    cbn [mbind result_bind].
    by destruct (ObjectMeta_Unmarshal meta _ sub). }
  destruct (int32 (Z.shiftr wire 3) =? 2).
  { destruct (negb _); [done|].
    destruct (readVarint 11 uint64 dAtA (len dAtA) 0 i1 0) as [[stringLen i2]| | |];
      try done.
    cbn [mbind result_bind].
    destruct (int stringLen <? 0); [done|].
    destruct (int (i2 + int stringLen) <? 0); [done|].
    destruct (len dAtA <? int (i2 + int stringLen)); [done|].
    by destruct (slice dAtA i2 (int (i2 + int stringLen))). }
  destruct (slice dAtA iNdEx (len dAtA)) as [rest| | |]; try done.
  cbn [mbind result_bind].
  destruct (skipGenerated (2 * length rest + 2) rest) as [skippy| | |]; try done.
  cbn [mbind result_bind].
  destruct (skippy <? 0); [done|]. destruct (int (iNdEx + skippy) <? 0); [done|].
  by destruct (len dAtA <? int (iNdEx + skippy)).
Qed.

End Step.

(** *** Slices and [skipGenerated] *)

(** *** Slices *)

Lemma slice_tail (s : list Z) i :
  0 <= i <= len s -> slice s i (len s) = Ok (drop (Z.to_nat i) s).
Proof.
  intros Hi. unfold slice.
  destruct (Z.leb_spec 0 i); [|lia]. destruct (Z.leb_spec i (len s)); [|lia].
  rewrite Z.leb_refl. simpl. f_equal. apply take_ge.
  rewrite length_drop. unfold len in *. lia.
Qed.

Lemma slice_Ok (s : list Z) i j x :
  slice s i j = Ok x ->
  0 <= i <= j /\ j <= len s /\ x = take (Z.to_nat (j - i)) (drop (Z.to_nat i) s).
Proof.
  unfold slice.
  destruct (Z.leb_spec 0 i); [|done]. destruct (Z.leb_spec i j); [|done].
  destruct (Z.leb_spec j (len s)); [|done]. simpl. intros [= <-].
  split; [lia|]. split; [lia|done].
Qed.

Lemma slice_returned (s : list Z) i j :
  0 <= i <= j -> j <= len s -> exists x, slice s i j = Ok x /\ len x = j - i.
Proof.
  intros Hi Hj. unfold slice.
  destruct (Z.leb_spec 0 i); [|lia]. destruct (Z.leb_spec i j); [|lia].
  destruct (Z.leb_spec j (len s)); [|lia]. simpl. eexists. split; [done|].
  unfold len in *. rewrite length_take, length_drop. lia.
Qed.

Lemma slice_relocate (rest pre post : list Z) i j x :
  slice rest i j = Ok x ->
  slice (pre ++ rest ++ post) (len pre + i) (len pre + j) = Ok x.
Proof.
  intros H. apply slice_Ok in H as (Hi & Hj & ->).
  pose proof (len_nonneg pre). pose proof (len_nonneg post).
  unfold slice.
  destruct (Z.leb_spec 0 (len pre + i)); [|lia].
  destruct (Z.leb_spec (len pre + i) (len pre + j)); [|lia].
  destruct (Z.leb_spec (len pre + j) (len (pre ++ rest ++ post)));
    [|rewrite !len_app in *; lia].
  simpl. f_equal.
  replace (len pre + j - (len pre + i)) with (j - i) by lia.
  replace (Z.to_nat (len pre + i)) with (length pre + Z.to_nat i)%nat
    by (unfold len; lia).
  rewrite drop_app_add. rewrite drop_app_le by (unfold len in *; lia).
  rewrite take_app_le; [done|]. rewrite length_drop. unfold len in *. lia.
Qed.

(** *** [int] near the end of its range *)

Lemma int_sum a b :
  0 <= a < 2 ^ 63 -> 0 <= b < 2 ^ 63 ->
  (int (a + b) = a + b /\ a + b < 2 ^ 63) \/ int (a + b) < 0.
Proof.
  intros Ha Hb. unfold int.
  destruct (Z.lt_ge_cases (a + b) (2 ^ 63)).
  - left. rewrite Z.mod_small by lia. lia.
  - right. replace (a + b + 2 ^ 63) with (a + b - 2 ^ 63 + 1 * 2 ^ 64) by lia.
    rewrite Z.mod_add by lia. rewrite Z.mod_small by lia. lia.
Qed.

(** *** [skipGenerated] *)

Lemma skipVarint_S fuel dAtA l shift iNdEx :
  skipVarint (S fuel) dAtA l shift iNdEx
  = if 64 <=? shift then Err ErrIntOverflowGenerated
    else if l <=? iNdEx then Err ErrUnexpectedEOF
    else let iNdEx := iNdEx + 1 in
         match dAtA !! Z.to_nat (iNdEx - 1) with
         | None => Panic
         | Some b => if b <? 128 then Ok iNdEx
                     else skipVarint fuel dAtA l (shift + 7) iNdEx
         end.
Proof. reflexivity. Qed.

Lemma skipVarint_index fuel dAtA l shift iNdEx j :
  skipVarint fuel dAtA l shift iNdEx = Ok j -> iNdEx < j <= l.
Proof.
  revert shift iNdEx. induction fuel as [|fuel IH]; intros shift iNdEx; [done|].
  rewrite skipVarint_S.
  destruct (64 <=? shift); [done|].
  destruct (Z.leb_spec l iNdEx); [done|]. cbv zeta.
  destruct (dAtA !! Z.to_nat (iNdEx + 1 - 1)) as [b|]; [|done].
  destruct (b <? 128).
  - intros [= <-]. lia.
  - intros H'. apply IH in H'. lia.
Qed.

Lemma skipVarint_returned fuel dAtA shift iNdEx :
  0 <= iNdEx -> (1 <= fuel)%nat -> 64 <= shift + 7 * (Z.of_nat fuel - 1) ->
  returned (skipVarint fuel dAtA (len dAtA) shift iNdEx).
Proof.
  revert shift iNdEx.
  induction fuel as [|fuel IH]; intros shift iNdEx Hi Hf1 Hf; [lia|].
  rewrite skipVarint_S.
  destruct (Z.leb_spec 64 shift); [done|].
  destruct (Z.leb_spec (len dAtA) iNdEx); [done|]. cbv zeta.
  replace (iNdEx + 1 - 1) with iNdEx by lia.
  destruct (dAtA !! Z.to_nat iNdEx) as [b|] eqn:Hb.
  - destruct (b <? 128); [done|]. apply IH; lia.
  - apply lookup_ge_None in Hb. unfold len in *. lia.
Qed.

Lemma skipVarint_extend fuel s post shift iNdEx j :
  0 <= iNdEx ->
  skipVarint fuel s (len s) shift iNdEx = Ok j ->
  skipVarint fuel (s ++ post) (len (s ++ post)) shift iNdEx = Ok j.
Proof.
  revert shift iNdEx. induction fuel as [|fuel IH]; intros shift iNdEx Hi; [done|].
  rewrite !skipVarint_S.
  destruct (64 <=? shift); [done|].
  destruct (Z.leb_spec (len s) iNdEx); [done|].
  pose proof (len_nonneg post).
  destruct (Z.leb_spec (len (s ++ post)) iNdEx) as [Hge|_].
  { rewrite len_app in Hge. lia. }
  cbv zeta. replace (iNdEx + 1 - 1) with iNdEx by lia.
  destruct (s !! Z.to_nat iNdEx) as [b|] eqn:Hb; [|done].
  rewrite (lookup_app_l_Some _ _ _ _ Hb).
  destruct (b <? 128); [done|]. apply IH. lia.
Qed.

Lemma skipGenerated_S fuel dAtA :
  skipGenerated (S fuel) dAtA
  = let l := len dAtA in
    if 0 <? l then
      '(wire, iNdEx) ← readVarint 11 uint64 dAtA l 0 0 0;
      let wireType := int (Z.land wire 7) in
      if wireType =? 0 then skipVarint 11 dAtA l 0 iNdEx
      else if wireType =? 1 then Ok (int (iNdEx + 8))
      else if wireType =? 2 then
        '(length, iNdEx) ← readVarint 11 int dAtA l 0 iNdEx 0;
        if length <? 0 then Err ErrInvalidLengthGenerated
        else let iNdEx := int (iNdEx + length) in
             if iNdEx <? 0 then Err ErrInvalidLengthGenerated
             else Ok iNdEx
      else if wireType =? 3 then skipGroup fuel dAtA l iNdEx
      else if wireType =? 4 then Ok iNdEx
      else if wireType =? 5 then Ok (int (iNdEx + 4))
      else Err (ErrIllegalWireType wireType)
    else Panic.
Proof. reflexivity. Qed.

Lemma skipGroup_S fuel dAtA l iNdEx :
  skipGroup (S fuel) dAtA l iNdEx
  = let start := iNdEx in
    '(innerWire, iNdEx) ← readVarint 11 uint64 dAtA l 0 iNdEx 0;
    let innerWireType := int (Z.land innerWire 7) in
    if innerWireType =? 4 then Ok iNdEx
    else
      rest ← slice dAtA start l;
      next ← skipGenerated fuel rest;
      let iNdEx := int (start + next) in
      if iNdEx <? 0 then Err ErrInvalidLengthGenerated
      else skipGroup fuel dAtA l iNdEx.
Proof. reflexivity. Qed.

Lemma skip_ahead fuel :
  (forall dAtA,
      1 <= len dAtA -> len dAtA + 8 < 2 ^ 63 -> 2 * len dAtA <= Z.of_nat fuel ->
      skipped_ahead 1 (skipGenerated fuel dAtA))
  /\ (forall dAtA iNdEx,
      1 <= iNdEx -> len dAtA + 8 < 2 ^ 63 -> (1 <= fuel)%nat ->
      2 * (len dAtA - iNdEx) + 1 <= Z.of_nat fuel ->
      skipped_ahead (iNdEx + 1) (skipGroup fuel dAtA (len dAtA) iNdEx)).
Proof.
  induction fuel as [|fuel [IHgen IHgrp]].
  { split; [intros; lia|intros; lia]. }
  split.
  - intros dAtA Hne Hfit Hfuel. rewrite skipGenerated_S. cbv zeta.
    destruct (Z.ltb_spec 0 (len dAtA)); [|lia].
    pose proof (readVarint_returned 11 uint64 dAtA 0 0 0 ltac:(lia) ltac:(lia) ltac:(lia))
      as Hret.
    destruct (readVarint 11 uint64 dAtA (len dAtA) 0 0 0) as [[wire i1]| | |] eqn:Hrd;
      try done.
    apply readVarint_index in Hrd. cbn [mbind result_bind].
    destruct (_ =? 0).
    { pose proof (skipVarint_returned 11 dAtA 0 i1 ltac:(lia) ltac:(lia) ltac:(lia)) as Hsv.
      destruct (skipVarint 11 dAtA (len dAtA) 0 i1) as [n| | |] eqn:Hn; try done.
      apply skipVarint_index in Hn. simpl. lia. }
    destruct (_ =? 1).
    { simpl. rewrite int_small by lia. lia. }
    destruct (_ =? 2).
    { pose proof (readVarint_returned 11 int dAtA 0 i1 0 ltac:(lia) ltac:(lia) ltac:(lia))
        as Hret2.
      destruct (readVarint 11 int dAtA (len dAtA) 0 i1 0) as [[length i2]| | |] eqn:Hrd2;
        try done.
      pose proof (readVarint_int 11 dAtA (len dAtA) 0 i1 0 length i2 ltac:(lia) Hrd2)
        as Hrange.
      apply readVarint_index in Hrd2. cbn [mbind result_bind].
      destruct (Z.ltb_spec length 0); [done|]. cbv zeta.
      destruct (int_sum i2 length ltac:(lia) ltac:(lia)) as [[Heq Hlt]|Hneg].
      - rewrite Heq. destruct (Z.ltb_spec (i2 + length) 0); [done|]. simpl. lia.
      - destruct (Z.ltb_spec (int (i2 + length)) 0); [done|lia]. }
    destruct (_ =? 3).
    { assert (Hg : skipped_ahead (i1 + 1) (skipGroup fuel dAtA (len dAtA) i1))
        by (apply IHgrp; lia).
      destruct (skipGroup fuel dAtA (len dAtA) i1); try done. simpl in *. lia. }
    destruct (_ =? 4).
    { simpl. lia. }
    destruct (_ =? 5); [|done].
    simpl. rewrite int_small by lia. lia.
  - intros dAtA iNdEx Hi Hfit _ Hfuel. rewrite skipGroup_S. cbv zeta.
    pose proof (readVarint_returned 11 uint64 dAtA 0 iNdEx 0 ltac:(lia) ltac:(lia)
                  ltac:(lia)) as Hret.
    destruct (readVarint 11 uint64 dAtA (len dAtA) 0 iNdEx 0) as [[wire i1]| | |] eqn:Hrd;
      try done.
    apply readVarint_index in Hrd. cbn [mbind result_bind].
    destruct (_ =? 4).
    { simpl. lia. }
    rewrite slice_tail by lia. cbn [mbind result_bind].
    set (rest := drop (Z.to_nat iNdEx) dAtA).
    assert (Hrest : len rest = len dAtA - iNdEx).
    { unfold rest, len. rewrite length_drop. unfold len in *. lia. }
    assert (Hg : skipped_ahead 1 (skipGenerated fuel rest)) by (apply IHgen; lia).
    destruct (skipGenerated fuel rest) as [next| | |]; try done.
    simpl in Hg. cbn [mbind result_bind]. cbv zeta.
    destruct (int_sum iNdEx next ltac:(lia) ltac:(lia)) as [[Heq Hlt]|Hneg].
    + rewrite Heq. destruct (Z.ltb_spec (iNdEx + next) 0); [done|].
      assert (Hg2 : skipped_ahead (iNdEx + next + 1)
                      (skipGroup fuel dAtA (len dAtA) (iNdEx + next)))
        by (apply IHgrp; lia).
      destruct (skipGroup fuel dAtA (len dAtA) (iNdEx + next)); try done.
      simpl in *. lia.
    + destruct (Z.ltb_spec (int (iNdEx + next)) 0); [done|lia].
Qed.

(** A skip that succeeds on a buffer succeeds alike when more bytes follow
    the buffer, and with any larger budget. *)
Lemma skip_extend fuel :
  (forall s post n fuel',
      skipGenerated fuel s = Ok n -> (fuel <= fuel')%nat ->
      skipGenerated fuel' (s ++ post) = Ok n)
  /\ (forall s post iNdEx n fuel',
      0 <= iNdEx ->
      skipGroup fuel s (len s) iNdEx = Ok n -> (fuel <= fuel')%nat ->
      skipGroup fuel' (s ++ post) (len (s ++ post)) iNdEx = Ok n).
Proof.
  induction fuel as [|fuel [IHgen IHgrp]]; [done|].
  split.
  - intros s post n [|fuel'] Hs Hf; [lia|].
    rewrite skipGenerated_S in *. cbv zeta in *.
    pose proof (len_nonneg post).
    destruct (Z.ltb_spec 0 (len s)); [|done].
    destruct (Z.ltb_spec 0 (len (s ++ post))); [|rewrite len_app in *; lia].
    destruct (readVarint 11 uint64 s (len s) 0 0 0) as [[wire i1]| | |] eqn:Hrd; try done.
    pose proof (readVarint_index _ _ _ _ _ _ _ _ _ Hrd) as Hi1.
    apply (readVarint_relocate _ _ _ [] post) in Hrd; [|lia].
    change (len [] + ?x) with (0 + x) in Hrd. rewrite !Z.add_0_l in Hrd.
    change ([] ++ s ++ post) with (s ++ post) in Hrd. rewrite Hrd.
    cbn [mbind result_bind] in *.
    destruct (_ =? 0); [apply skipVarint_extend; [lia|done]|].
    destruct (_ =? 1); [done|].
    destruct (_ =? 2).
    { destruct (readVarint 11 int s (len s) 0 i1 0) as [[length i2]| | |] eqn:Hrd2;
        try done.
      apply (readVarint_relocate _ _ _ [] post) in Hrd2; [|lia].
      change (len [] + ?x) with (0 + x) in Hrd2. rewrite !Z.add_0_l in Hrd2.
      change ([] ++ s ++ post) with (s ++ post) in Hrd2. by rewrite Hrd2. }
    destruct (_ =? 3); [apply IHgrp; [lia|done|lia]|].
    done.
  - intros s post iNdEx n [|fuel'] Hi Hs Hf; [lia|].
    rewrite skipGroup_S in *. cbv zeta in *.
    pose proof (len_nonneg post).
    destruct (readVarint 11 uint64 s (len s) 0 iNdEx 0) as [[wire i1]| | |] eqn:Hrd;
      try done.
    pose proof (readVarint_index _ _ _ _ _ _ _ _ _ Hrd) as Hi1.
    apply (readVarint_relocate _ _ _ [] post) in Hrd; [|lia].
    change (len [] + ?x) with (0 + x) in Hrd. rewrite !Z.add_0_l in Hrd.
    change ([] ++ s ++ post) with (s ++ post) in Hrd. rewrite Hrd.
    cbn [mbind result_bind] in *.
    destruct (_ =? 4); [done|].
    rewrite slice_tail in * by (rewrite ?len_app; lia).
    cbn [mbind result_bind] in *.
    rewrite drop_app_le by (unfold len in *; lia).
    destruct (skipGenerated fuel (drop (Z.to_nat iNdEx) s)) as [next| | |] eqn:Hnext;
      try done.
    rewrite (IHgen _ post next fuel' Hnext) by lia.
    cbn [mbind result_bind] in *. cbv zeta in *.
    destruct (Z.ltb_spec (int (iNdEx + next)) 0); [done|].
    apply IHgrp; [lia|done|lia].
Qed.

(** *** [Unmarshal] returns; inputs one after the other *)

Section Unmarshal.
Context (meta : ObjectMetaMethods).
Implicit Types m : RuntimeClass meta.

Lemma unmarshalStep_ahead dAtA m iNdEx :
  metaReturns meta -> len dAtA + 8 < 2 ^ 63 -> 0 <= iNdEx < len dAtA ->
  stepped_ahead meta dAtA iNdEx (unmarshalStep meta dAtA m iNdEx).
Proof.
  intros Hmeta Hfit Hi. unfold unmarshalStep. cbv zeta.
  pose proof (readVarint_returned 11 uint64 dAtA 0 iNdEx 0 ltac:(lia) ltac:(lia)
                ltac:(lia)) as Hret.
  destruct (readVarint 11 uint64 dAtA (len dAtA) 0 iNdEx 0) as [[wire i1]| | |] eqn:Hrd;
    try done.
  apply readVarint_index in Hrd. cbn [mbind result_bind].
  destruct (_ =? 4); [done|]. destruct (_ <=? 0); [done|].
  destruct (_ =? 1).
  { destruct (negb _); [done|].
    pose proof (readVarint_returned 11 int dAtA 0 i1 0 ltac:(lia) ltac:(lia) ltac:(lia))
      as Hret2.
    destruct (readVarint 11 int dAtA (len dAtA) 0 i1 0) as [[msglen i2]| | |] eqn:Hrd2;
      try done.
    pose proof (readVarint_int 11 dAtA (len dAtA) 0 i1 0 msglen i2 ltac:(lia) Hrd2)
      as Hrange.
    apply readVarint_index in Hrd2. cbn [mbind result_bind].
    destruct (Z.ltb_spec msglen 0); [done|]. cbv zeta.
    destruct (int_sum i2 msglen ltac:(lia) ltac:(lia)) as [[Heq Hlt]|Hneg].
    - rewrite Heq. destruct (Z.ltb_spec (i2 + msglen) 0); [done|].
      destruct (Z.ltb_spec (len dAtA) (i2 + msglen)); [done|].
      destruct (slice_returned dAtA i2 (i2 + msglen) ltac:(lia) ltac:(lia))
        as (sub & -> & _).
      cbn [mbind result_bind]. specialize (Hmeta (RuntimeClass_ObjectMeta m) sub).
      destruct (ObjectMeta_Unmarshal meta _ sub); try done. simpl. lia.
    - destruct (Z.ltb_spec (int (i2 + msglen)) 0); [done|lia]. }
  destruct (_ =? 2).
  { destruct (negb _); [done|].
    pose proof (readVarint_returned 11 uint64 dAtA 0 i1 0 ltac:(lia) ltac:(lia) ltac:(lia))
      as Hret2.
    destruct (readVarint 11 uint64 dAtA (len dAtA) 0 i1 0) as [[stringLen i2]| | |]
      eqn:Hrd2; try done.
    apply readVarint_index in Hrd2. cbn [mbind result_bind]. cbv zeta.
    pose proof (int_range stringLen) as Hrange.
    destruct (Z.ltb_spec (int stringLen) 0); [done|].
    destruct (int_sum i2 (int stringLen) ltac:(lia) ltac:(lia)) as [[Heq Hlt]|Hneg].
    - rewrite Heq. destruct (Z.ltb_spec (i2 + int stringLen) 0); [done|].
      destruct (Z.ltb_spec (len dAtA) (i2 + int stringLen)); [done|].
      destruct (slice_returned dAtA i2 (i2 + int stringLen) ltac:(lia) ltac:(lia))
        as (sub & -> & _).
      simpl. lia.
    - destruct (Z.ltb_spec (int (i2 + int stringLen)) 0); [done|lia]. }
  rewrite slice_tail by lia. cbn [mbind result_bind].
  set (rest := drop (Z.to_nat iNdEx) dAtA).
  assert (Hrest : len rest = len dAtA - iNdEx).
  { unfold rest, len. rewrite length_drop. unfold len in *. lia. }
  assert (Hg : skipped_ahead 1 (skipGenerated (2 * length rest + 2) rest)).
  { apply (skip_ahead (2 * length rest + 2)); unfold len in *; lia. }
  destruct (skipGenerated (2 * length rest + 2) rest) as [skippy| | |]; try done.
  simpl in Hg. cbn [mbind result_bind].
  destruct (Z.ltb_spec skippy 0); [done|].
  destruct (int_sum iNdEx skippy ltac:(lia) ltac:(lia)) as [[Heq Hlt]|Hneg].
  - rewrite Heq. destruct (Z.ltb_spec (iNdEx + skippy) 0); [done|].
    destruct (Z.ltb_spec (len dAtA) (iNdEx + skippy)); [done|]. simpl. lia.
  - destruct (Z.ltb_spec (int (iNdEx + skippy)) 0); [done|lia].
Qed.

Lemma unmarshalLoop_returned fuel dAtA m iNdEx :
  metaReturns meta -> len dAtA + 8 < 2 ^ 63 -> 0 <= iNdEx <= len dAtA ->
  len dAtA - iNdEx < Z.of_nat fuel ->
  returned (unmarshalLoop meta fuel dAtA m iNdEx).
Proof.
  intros Hmeta Hfit. revert m iNdEx.
  induction fuel as [|fuel IH]; intros m iNdEx Hi Hfuel; [lia|].
  rewrite unmarshalLoop_step.
  destruct (Z.ltb_spec iNdEx (len dAtA)).
  - pose proof (unmarshalStep_ahead dAtA m iNdEx Hmeta Hfit ltac:(lia)) as Hstep.
    destruct (unmarshalStep meta dAtA m iNdEx) as [[m' i']| | |]; try done.
    simpl in Hstep. cbn [mbind result_bind]. apply IH; lia.
  - destruct (Z.ltb_spec (len dAtA) iNdEx); done.
Qed.

(** A result that is not the exhaustion of the budget does not depend on
    the budget. *)
Lemma unmarshalLoop_more fuel fuel' dAtA m iNdEx :
  unmarshalLoop meta fuel dAtA m iNdEx <> OutOfFuel -> (fuel <= fuel')%nat ->
  unmarshalLoop meta fuel' dAtA m iNdEx = unmarshalLoop meta fuel dAtA m iNdEx.
Proof.
  revert fuel' m iNdEx. induction fuel as [|fuel IH]; intros fuel' m iNdEx Hr Hf; [done|].
  destruct fuel' as [|fuel']; [lia|].
  rewrite !unmarshalLoop_step in *.
  destruct (iNdEx <? len dAtA); [|done].
  destruct (unmarshalStep meta dAtA m iNdEx) as [[m' i']| | |]; try done.
  cbn [mbind result_bind] in *. apply IH; [done|lia].
Qed.

Lemma unmarshalStep_relocate rest pre post m iNdEx m' iNdEx' :
  len (pre ++ rest ++ post) + 8 < 2 ^ 63 -> 0 <= iNdEx ->
  unmarshalStep meta rest m iNdEx = Ok (m', iNdEx') ->
  unmarshalStep meta (pre ++ rest ++ post) m (len pre + iNdEx)
  = Ok (m', len pre + iNdEx').
Proof.
  intros Hfit Hi. unfold unmarshalStep. cbv zeta.
  pose proof (len_nonneg pre). pose proof (len_nonneg post). pose proof (len_nonneg rest).
  assert (Htot : len (pre ++ rest ++ post) = len pre + len rest + len post)
    by (rewrite !len_app; lia).
  destruct (readVarint 11 uint64 rest (len rest) 0 iNdEx 0) as [[wire i1]| | |] eqn:Hrd;
    try done.
  pose proof (readVarint_index _ _ _ _ _ _ _ _ _ Hrd) as Hi1.
  rewrite (readVarint_relocate _ _ _ pre post _ _ _ _ _ Hi Hrd).
  cbn [mbind result_bind].
  destruct (_ =? 4); [done|]. destruct (_ <=? 0); [done|].
  destruct (_ =? 1).
  { destruct (negb _); [done|].
    destruct (readVarint 11 int rest (len rest) 0 i1 0) as [[msglen i2]| | |] eqn:Hrd2;
      try done.
    pose proof (readVarint_int 11 rest (len rest) 0 i1 0 msglen i2 ltac:(lia) Hrd2)
      as Hrange.
    pose proof (readVarint_index _ _ _ _ _ _ _ _ _ Hrd2) as Hi2.
    assert (0 <= i1) as Hi1' by lia.
    rewrite (readVarint_relocate _ _ _ pre post _ _ _ _ _ Hi1' Hrd2).
    cbn [mbind result_bind].
    destruct (Z.ltb_spec msglen 0); [done|]. cbv zeta.
    destruct (int_sum i2 msglen ltac:(lia) ltac:(lia)) as [[Heq Hlt]|Hneg].
    2:{ destruct (Z.ltb_spec (int (i2 + msglen)) 0); [done|lia]. }
    rewrite Heq. destruct (Z.ltb_spec (i2 + msglen) 0); [done|].
    destruct (Z.ltb_spec (len rest) (i2 + msglen)); [done|].
    replace (len pre + i2 + msglen) with (len pre + (i2 + msglen)) by lia.
    rewrite (int_small (len pre + (i2 + msglen))) by lia.
    destruct (Z.ltb_spec (len pre + (i2 + msglen)) 0); [lia|].
    destruct (Z.ltb_spec (len (pre ++ rest ++ post)) (len pre + (i2 + msglen))); [lia|].
    destruct (slice rest i2 (i2 + msglen)) as [sub| | |] eqn:Hsl; try done.
    rewrite (slice_relocate _ pre post _ _ _ Hsl). cbn [mbind result_bind].
    destruct (ObjectMeta_Unmarshal meta _ sub); try done.
    cbn [mbind result_bind]. by intros [= <- <-]. }
  destruct (_ =? 2).
  { destruct (negb _); [done|].
    destruct (readVarint 11 uint64 rest (len rest) 0 i1 0) as [[stringLen i2]| | |]
      eqn:Hrd2; try done.
    pose proof (readVarint_index _ _ _ _ _ _ _ _ _ Hrd2) as Hi2.
    assert (0 <= i1) as Hi1' by lia.
    rewrite (readVarint_relocate _ _ _ pre post _ _ _ _ _ Hi1' Hrd2).
    cbn [mbind result_bind]. cbv zeta.
    pose proof (int_range stringLen) as Hrange.
    destruct (Z.ltb_spec (int stringLen) 0); [done|].
    destruct (int_sum i2 (int stringLen) ltac:(lia) ltac:(lia)) as [[Heq Hlt]|Hneg].
    2:{ destruct (Z.ltb_spec (int (i2 + int stringLen)) 0); [done|lia]. }
    rewrite Heq. destruct (Z.ltb_spec (i2 + int stringLen) 0); [done|].
    destruct (Z.ltb_spec (len rest) (i2 + int stringLen)); [done|].
    replace (len pre + i2 + int stringLen) with (len pre + (i2 + int stringLen)) by lia.
    rewrite (int_small (len pre + (i2 + int stringLen))) by lia.
    destruct (Z.ltb_spec (len pre + (i2 + int stringLen)) 0); [lia|].
    destruct (Z.ltb_spec (len (pre ++ rest ++ post)) (len pre + (i2 + int stringLen)));
      [lia|].
    destruct (slice rest i2 (i2 + int stringLen)) as [sub| | |] eqn:Hsl; try done.
    rewrite (slice_relocate _ pre post _ _ _ Hsl). cbn [mbind result_bind].
    by intros [= <- <-]. }
  rewrite !slice_tail by lia. cbn [mbind result_bind].
  replace (Z.to_nat (len pre + iNdEx)) with (length pre + Z.to_nat iNdEx)%nat
    by (unfold len; lia).
  rewrite drop_app_add, drop_app_le by (unfold len in *; lia).
  set (r := drop (Z.to_nat iNdEx) rest).
  assert (Hr : len r = len rest - iNdEx).
  { unfold r, len. rewrite length_drop. unfold len in *. lia. }
  assert (Hg : skipped_ahead 1 (skipGenerated (2 * length r + 2) r)).
  { apply (skip_ahead (2 * length r + 2)); unfold len in *; lia. }
  destruct (skipGenerated (2 * length r + 2) r) as [skippy| | |] eqn:Hskip; try done.
  simpl in Hg.
  rewrite (proj1 (skip_extend (2 * length r + 2)) r post skippy _ Hskip)
    by (rewrite length_app; lia).
  cbn [mbind result_bind].
  destruct (Z.ltb_spec skippy 0); [done|].
  destruct (int_sum iNdEx skippy ltac:(lia) ltac:(lia)) as [[Heq Hlt]|Hneg].
  2:{ destruct (Z.ltb_spec (int (iNdEx + skippy)) 0); [done|lia]. }
  rewrite Heq. destruct (Z.ltb_spec (iNdEx + skippy) 0); [done|].
  destruct (Z.ltb_spec (len rest) (iNdEx + skippy)); [done|].
  replace (len pre + iNdEx + skippy) with (len pre + (iNdEx + skippy)) by lia.
  rewrite (int_small (len pre + (iNdEx + skippy))) by lia.
  destruct (Z.ltb_spec (len pre + (iNdEx + skippy)) 0); [lia|].
  destruct (Z.ltb_spec (len (pre ++ rest ++ post)) (len pre + (iNdEx + skippy))); [lia|].
  by intros [= <- <-].
Qed.

(** The loop over a buffer that stands inside a longer one: when it ends
    well on the buffer alone, it reaches the end of the buffer in the longer
    one, with the same receiver. *)
Lemma unmarshalLoop_relocate fuel rest pre post m iNdEx m' fuel' :
  metaReturns meta -> len (pre ++ rest ++ post) + 8 < 2 ^ 63 -> 0 <= iNdEx ->
  unmarshalLoop meta fuel rest m iNdEx = Ok m' ->
  len post < Z.of_nat fuel' ->
  unmarshalLoop meta (fuel + fuel') (pre ++ rest ++ post) m (len pre + iNdEx)
  = unmarshalLoop meta fuel' (pre ++ rest ++ post) m' (len pre + len rest).
Proof.
  intros Hmeta Hfit. revert m iNdEx.
  pose proof (len_nonneg pre). pose proof (len_nonneg post). pose proof (len_nonneg rest).
  assert (Htot : len (pre ++ rest ++ post) = len pre + len rest + len post)
    by (rewrite !len_app; lia).
  induction fuel as [|fuel IH]; intros m iNdEx Hi Hloop Hfuel'; [done|].
  rewrite unmarshalLoop_step in Hloop.
  destruct (Z.ltb_spec iNdEx (len rest)).
  - change (S fuel + fuel')%nat with (S (fuel + fuel')). rewrite unmarshalLoop_step.
    destruct (Z.ltb_spec (len pre + iNdEx) (len (pre ++ rest ++ post))); [|lia].
    destruct (unmarshalStep meta rest m iNdEx) as [[m1 i1]| | |] eqn:Hstep; try done.
    pose proof (unmarshalStep_ahead rest m iNdEx Hmeta ltac:(lia) ltac:(lia)) as Hah.
    rewrite Hstep in Hah. simpl in Hah.
    rewrite (unmarshalStep_relocate _ pre post _ _ _ _ Hfit Hi Hstep).
    cbn [mbind result_bind] in *. apply IH; [lia|done|done].
  - destruct (Z.ltb_spec (len rest) iNdEx); [done|]. injection Hloop as <-.
    assert (iNdEx = len rest) as -> by lia.
    apply unmarshalLoop_more; [|lia].
    pose proof (unmarshalLoop_returned fuel' (pre ++ rest ++ post) m (len pre + len rest)
                  Hmeta Hfit ltac:(lia) ltac:(lia)) as Hret.
    intros Hout. by rewrite Hout in Hret.
Qed.

Lemma RuntimeClass_Unmarshal_app m a b m' m'' :
  metaReturns meta -> len (a ++ b) + 8 < 2 ^ 63 ->
  RuntimeClass_Unmarshal meta m a = Ok m' ->
  RuntimeClass_Unmarshal meta m' b = Ok m'' ->
  RuntimeClass_Unmarshal meta m (a ++ b) = Ok m''.
Proof.
  intros Hmeta Hfit Ha Hb. unfold RuntimeClass_Unmarshal in *.
  pose proof (len_nonneg a). pose proof (len_nonneg b).
  assert (Hab : len (a ++ b) = len a + len b) by (rewrite len_app; lia).
  assert (Hfirst : unmarshalLoop meta (S (length (a ++ b))) (a ++ b) m 0
                   = unmarshalLoop meta (S (length b)) (a ++ b) m' (len a)).
  { pose proof (unmarshalLoop_relocate (S (length a)) a [] b m 0 m' (S (length b))
                  Hmeta Hfit ltac:(lia) Ha ltac:(unfold len; lia)) as Hrel.
    change ([] ++ a ++ b) with (a ++ b) in Hrel.
    change (len [] + ?x) with (0 + x) in Hrel. rewrite !Z.add_0_l in Hrel.
    rewrite <- Hrel. symmetry. apply unmarshalLoop_more; [|rewrite length_app; lia].
    pose proof (unmarshalLoop_returned (S (length (a ++ b))) (a ++ b) m 0
                  Hmeta Hfit ltac:(lia) ltac:(unfold len in *; lia)) as Hret.
    intros Hout. by rewrite Hout in Hret. }
  rewrite Hfirst.
  pose proof (unmarshalLoop_relocate (S (length b)) b a [] m' 0 m'' 1
                Hmeta ltac:(by rewrite app_nil_r) ltac:(lia) Hb
                ltac:(change (len []) with 0; lia)) as Hrel.
  rewrite app_nil_r, Z.add_0_r in Hrel.
  rewrite <- Hab in Hrel.
  assert (Hend : unmarshalLoop meta 1 (a ++ b) m'' (len (a ++ b)) = Ok m'').
  { rewrite unmarshalLoop_step. by rewrite !Z.ltb_irrefl. }
  rewrite Hend in Hrel. rewrite <- Hrel. symmetry.
  apply unmarshalLoop_more; [|lia].
  pose proof (unmarshalLoop_returned (S (length b)) (a ++ b) m' (len a)
                Hmeta Hfit ltac:(lia) ltac:(unfold len in *; lia)) as Hret.
  intros Hout. by rewrite Hout in Hret.
Qed.

End Unmarshal.

(** *** Varints: reading back, writing without room *)

(** [readVarint] over the bytes of a varint, for every [uint64]. *)
Lemma readVarint_uint64_varintBytes n :
  forall fuel v shift acc dAtA iNdEx rest,
    0 <= v < 2 ^ (7 * Z.of_nat (S n)) ->
    0 <= shift < 64 ->
    0 <= acc < 2 ^ shift ->
    acc + v * 2 ^ shift < 2 ^ 64 ->
    0 <= iNdEx ->
    drop (Z.to_nat iNdEx) dAtA = varintBytes (S n) v ++ rest ->
    (n < fuel)%nat ->
    readVarint fuel uint64 dAtA (len dAtA) shift iNdEx acc
    = Ok (acc + v * 2 ^ shift, iNdEx + len (varintBytes (S n) v)).
Proof.
  induction n as [|n IH];
    intros fuel v shift acc dAtA iNdEx rest Hv Hshift Hacc Hfit Hi Hd Hfuel.
  - change (2 ^ (7 * Z.of_nat 1)) with 128 in Hv.
    destruct fuel as [|fuel]; [lia|]. rewrite readVarint_S.
    rewrite (varintBytes_S 0 v) in *.
    destruct (Z.leb_spec 128 v); [lia|].
    apply drop_cons_inv in Hd as (Hb & Hlt & _); [|done].
    destruct (Z.leb_spec 64 shift); [lia|].
    destruct (Z.leb_spec (len dAtA) iNdEx); [lia|].
    rewrite Hb. cbv zeta.
    destruct (Z.ltb_spec v 128); [|lia].
    change 127 with (Z.ones 7). rewrite Z.land_ones by lia.
    rewrite Z.mod_small by (change (2 ^ 7) with 128; lia).
    assert (0 < 2 ^ shift) by (apply Z.pow_pos_nonneg; lia).
    rewrite (uint64_small v) by lia.
    rewrite Z.shiftl_mul_pow2 by lia.
    rewrite uint64_small by nia.
    rewrite lor_shifted by lia. done.
  - destruct fuel as [|fuel]; [lia|]. rewrite readVarint_S.
    rewrite (varintBytes_S (S n) v) in *.
    assert (0 < 2 ^ shift) as Hpow by (apply Z.pow_pos_nonneg; lia).
    destruct (Z.leb_spec 128 v) as [Hge|Hlt].
    + assert (0 <= v) as Hv0 by (clear -Hge; lia).
      rewrite low7_plus_flag in * by done.
      pose proof (Z.mod_pos_bound v 128 ltac:(lia)) as Hmod.
      rewrite <- app_comm_cons in Hd.
      apply drop_cons_inv in Hd as (Hb & Hlt & Hd); [|done].
      destruct (Z.leb_spec 64 shift); [lia|].
      destruct (Z.leb_spec (len dAtA) iNdEx); [lia|].
      rewrite Hb. cbv zeta.
      destruct (Z.ltb_spec (v mod 128 + 128) 128); [lia|].
      change 127 with (Z.ones 7). rewrite Z.land_ones by lia.
      change (2 ^ 7) with 128.
      replace ((v mod 128 + 128) mod 128) with (v mod 128).
      2:{ rewrite <- (Z.mul_1_l 128) at 3. rewrite Z.mod_add by lia.
          by rewrite Z.mod_mod by lia. }
      pose proof (Z.div_mod v 128 ltac:(lia)) as Hdm.
      pose proof (shiftr7_lt v Hge) as Hsh.
      pose proof (shiftr7_bound v (S n) Hv) as Hbd.
      rewrite Z.shiftr_div_pow2 in * by lia. change (2 ^ 7) with 128 in *.
      assert (v mod 128 * 2 ^ shift <= v * 2 ^ shift) by nia.
      rewrite (uint64_small (v mod 128)) by lia.
      rewrite Z.shiftl_mul_pow2 by lia.
      rewrite uint64_small by nia.
      rewrite lor_shifted by lia.
      assert (2 ^ (shift + 7) = 2 ^ shift * 128) as Hp7
        by (rewrite Z.pow_add_r by lia; done).
      assert (1 <= v / 128) by (apply Z.div_le_lower_bound; lia).
      assert (shift + 7 < 64).
      { destruct (Z.lt_ge_cases (shift + 7) 64); [done|]. exfalso.
        assert (2 ^ 64 <= 2 ^ (shift + 7)) by (apply Z.pow_le_mono_r; lia).
        nia. }
      rewrite (IH fuel (v / 128) (shift + 7) _ dAtA (iNdEx + 1) rest).
      * f_equal. f_equal; [rewrite Hp7; nia|].
        unfold len. rewrite length_cons. lia.
      * exact Hbd.
      * lia.
      * rewrite Hp7. nia.
      * rewrite Hp7. nia.
      * lia.
      * done.
      * lia.
    + apply drop_cons_inv in Hd as (Hb & Hlt' & _); [|done].
      destruct (Z.leb_spec 64 shift); [lia|].
      destruct (Z.leb_spec (len dAtA) iNdEx); [lia|].
      rewrite Hb. cbv zeta.
      destruct (Z.ltb_spec v 128); [|lia].
      change 127 with (Z.ones 7). rewrite Z.land_ones by lia.
      rewrite Z.mod_small by (change (2 ^ 7) with 128; lia).
      rewrite (uint64_small v) by lia.
      rewrite Z.shiftl_mul_pow2 by lia.
      rewrite uint64_small by nia.
      rewrite lor_shifted by lia. done.
Qed.

Lemma store_len dAtA i b dAtA' : store dAtA i b = Ok dAtA' -> len dAtA' = len dAtA.
Proof.
  unfold store. destruct (_ && _); [|done]. intros [= <-].
  unfold len. by rewrite length_insert.
Qed.

Lemma store_Panic dAtA i b : i < 0 \/ len dAtA <= i -> store dAtA i b = Panic.
Proof.
  intros Hi. unfold store.
  destruct (Z.leb_spec 0 i); destruct (Z.ltb_spec i (len dAtA)); simpl; try done; lia.
Qed.

Lemma store_cases dAtA i b :
  (exists dAtA', store dAtA i b = Ok dAtA' /\ 0 <= i < len dAtA)
  \/ (store dAtA i b = Panic /\ (i < 0 \/ len dAtA <= i)).
Proof.
  unfold store.
  destruct (Z.leb_spec 0 i); destruct (Z.ltb_spec i (len dAtA)); simpl;
    [left; eexists; split; [done|lia]|right; split; [done|lia]..].
Qed.

Lemma encodeVarintLoop_Panic n :
  forall v dAtA offset,
    0 <= v < 2 ^ (7 * Z.of_nat (S n)) ->
    offset < 0 \/ len dAtA < offset + len (varintBytes (S n) v) ->
    encodeVarintLoop (S n) dAtA offset v = Panic.
Proof.
  induction n as [|n IH]; intros v dAtA offset Hv Hroom;
    rewrite encodeVarintLoop_S; rewrite (varintBytes_S _ v) in Hroom.
  - change (2 ^ (7 * Z.of_nat 1)) with 128 in Hv.
    destruct (Z.leb_spec 128 v); [lia|].
    apply store_Panic. change (len [v]) with 1 in Hroom. lia.
  - destruct (Z.leb_spec 128 v) as [Hge|Hlt].
    + rewrite len_cons in Hroom.
      destruct (store_cases dAtA offset (uint8 (Z.lor (Z.land v 127) 128)))
        as [(dAtA' & Hst & Hin)|[Hst _]]; rewrite Hst; [|done].
      cbn [mbind result_bind]. apply IH; [by apply shiftr7_bound|].
      right. rewrite (store_len _ _ _ _ Hst). lia.
    + apply store_Panic. change (len [v]) with 1 in Hroom. lia.
Qed.

Lemma sovGenerated_len v : 0 <= v < 2 ^ 64 -> len (varintBytes 10 v) = sovGenerated v.
Proof. intros Hv. apply (varintBytes_length 9), uint64_bound_70. lia. Qed.

(** [skipVarint] over the bytes of a varint. *)
Lemma skipVarint_varintBytes n :
  forall fuel v shift dAtA iNdEx rest,
    0 <= v < 2 ^ (7 * Z.of_nat (S n)) ->
    0 <= shift -> shift + 7 * Z.of_nat n < 64 ->
    0 <= iNdEx ->
    drop (Z.to_nat iNdEx) dAtA = varintBytes (S n) v ++ rest ->
    (n < fuel)%nat ->
    skipVarint fuel dAtA (len dAtA) shift iNdEx
    = Ok (iNdEx + len (varintBytes (S n) v)).
Proof.
  induction n as [|n IH];
    intros fuel v shift dAtA iNdEx rest Hv Hs0 Hshift Hi Hd Hfuel;
    (destruct fuel as [|fuel]; [lia|]); rewrite skipVarint_S;
    rewrite (varintBytes_S _ v) in *.
  - change (2 ^ (7 * Z.of_nat 1)) with 128 in Hv.
    destruct (Z.leb_spec 128 v); [lia|].
    apply drop_cons_inv in Hd as (Hb & Hlt & _); [|done].
    destruct (Z.leb_spec 64 shift); [lia|].
    destruct (Z.leb_spec (len dAtA) iNdEx); [lia|]. cbv zeta.
    replace (iNdEx + 1 - 1) with iNdEx by lia. rewrite Hb.
    destruct (Z.ltb_spec v 128); [done|lia].
  - destruct (Z.leb_spec 128 v) as [Hge|Hlt].
    + assert (0 <= v) as Hv0 by (clear -Hge; lia).
      rewrite low7_plus_flag in * by done.
      pose proof (Z.mod_pos_bound v 128 ltac:(lia)) as Hmod.
      rewrite <- app_comm_cons in Hd.
      apply drop_cons_inv in Hd as (Hb & Hlt & Hd); [|done].
      destruct (Z.leb_spec 64 shift); [lia|].
      destruct (Z.leb_spec (len dAtA) iNdEx); [lia|]. cbv zeta.
      replace (iNdEx + 1 - 1) with iNdEx by lia. rewrite Hb.
      destruct (Z.ltb_spec (v mod 128 + 128) 128); [lia|].
      rewrite (IH fuel (Z.shiftr v 7) (shift + 7) dAtA (iNdEx + 1) rest);
        [|by apply shiftr7_bound|lia|lia|lia|done|lia].
      f_equal. rewrite len_cons. lia.
    + apply drop_cons_inv in Hd as (Hb & Hlt' & _); [|done].
      destruct (Z.leb_spec 64 shift); [lia|].
      destruct (Z.leb_spec (len dAtA) iNdEx); [lia|]. cbv zeta.
      replace (iNdEx + 1 - 1) with iNdEx by lia. rewrite Hb.
      destruct (Z.ltb_spec v 128); [done|lia].
Qed.

(** *** [sozGenerated] *)

Lemma lxor_ones64 a : 0 <= a < 2 ^ 64 -> Z.lxor a (2 ^ 64 - 1) = 2 ^ 64 - 1 - a.
Proof.
  intros Ha. change (2 ^ 64 - 1) with (Z.ones 64).
  rewrite (Z.sub_nocarry_ldiff (Z.ones 64) a).
  - apply Z.bits_inj'. intros i Hi. rewrite Z.lxor_spec, Z.ldiff_spec.
    destruct (Z.ltb_spec i 64).
    + rewrite Z.ones_spec_low by lia. by destruct (Z.testbit a i).
    + rewrite Z.ones_spec_high by lia.
      rewrite <- (Z.mod_small a (2 ^ 64)) by lia.
      by rewrite Z.mod_pow2_bits_high by lia.
  - rewrite Z.ldiff_ones_r by lia.
    rewrite Z.shiftr_div_pow2, Z.div_small by lia. apply Z.shiftl_0_l.
Qed.

(** *** Skipping a well-formed field *)

Lemma tag_parts fieldNum wt :
  0 <= fieldNum -> 0 <= wt < 8 ->
  Z.land (fieldNum * 8 + wt) 7 = wt /\ Z.shiftr (fieldNum * 8 + wt) 3 = fieldNum.
Proof.
  intros Hf Hw. split.
  - change 7 with (Z.ones 3). rewrite Z.land_ones by lia. change (2 ^ 3) with 8.
    rewrite Z.add_comm, Z.mod_add by lia. apply Z.mod_small. lia.
  - rewrite Z.shiftr_div_pow2 by lia. change (2 ^ 3) with 8.
    rewrite Z.add_comm, Z.div_add by lia. rewrite Z.div_small by lia. lia.
Qed.

Lemma wireTypeOf_range u : 0 <= wireTypeOf u < 8.
Proof. destruct u; simpl; lia. Qed.

Lemma unknownField_len fieldNum u :
  0 <= fieldNum < 2 ^ 60 -> unknownOk u ->
  len (unknownField fieldNum u)
  = sovGenerated (fieldNum * 8 + wireTypeOf u)
    + match u with
      | UVarint v => sovGenerated v
      | UFixed64 _ => 8
      | UBytes payload => sovGenerated (len payload) + len payload
      | UFixed32 _ => 4
      end.
Proof.
  intros Hf Hu. pose proof (wireTypeOf_range u).
  unfold unknownField. rewrite len_app.
  rewrite (sovGenerated_len (fieldNum * 8 + wireTypeOf u)) by lia.
  destruct u as [v|b|p|b]; cbn [unknownOk wireTypeOf] in Hu |- *.
  - by rewrite sovGenerated_len.
  - lia.
  - pose proof (len_nonneg p).
    rewrite len_app, sovGenerated_len by lia.
    done.
  - lia.
Qed.

Lemma skipGenerated_unknownField fuel fieldNum u rest :
  0 <= fieldNum < 2 ^ 60 -> unknownOk u -> (1 <= fuel)%nat ->
  len (unknownField fieldNum u ++ rest) + 8 < 2 ^ 63 ->
  skipGenerated fuel (unknownField fieldNum u ++ rest)
  = Ok (len (unknownField fieldNum u)).
Proof.
  intros Hf Hu Hfuel Hfit. destruct fuel as [|fuel]; [lia|].
  pose proof (wireTypeOf_range u) as Hwt.
  pose proof (unknownField_len fieldNum u Hf Hu) as Hlen.
  set (tag := fieldNum * 8 + wireTypeOf u) in *.
  assert (Htag : 0 <= tag < 2 ^ 63) by (unfold tag; lia).
  pose proof (sovGenerated_nonneg tag ltac:(lia)) as Hsov.
  pose proof (len_nonneg rest) as Hrest.
  rewrite len_app in Hfit.
  rewrite skipGenerated_S. cbv zeta.
  destruct (Z.ltb_spec 0 (len (unknownField fieldNum u ++ rest))) as [_|Hle].
  2:{ rewrite len_app, Hlen in Hle. clear -Hle Hsov Hrest Hu.
      destruct u as [v|b|p|b]; cbn [unknownOk] in *.
      - pose proof (sovGenerated_nonneg v ltac:(lia)). lia.
      - lia.
      - pose proof (len_nonneg p).
        pose proof (sovGenerated_nonneg (len p) ltac:(lia)). lia.
      - lia. }
  set (body := match u with
               | UVarint v => varintBytes 10 v
               | UFixed64 b => b
               | UBytes payload => varintBytes 10 (len payload) ++ payload
               | UFixed32 b => b
               end).
  assert (Hshape : unknownField fieldNum u ++ rest
                   = [] ++ varintBytes 10 tag ++ (body ++ rest)).
  { unfold unknownField. fold tag. fold body. by rewrite <- app_assoc. }
  rewrite (read_length uint64 _ [] tag (body ++ rest) 0 keepsSmall_uint64 Htag Hshape
             eq_refl).
  cbn [mbind result_bind]. rewrite Z.add_0_l.
  destruct (tag_parts fieldNum (wireTypeOf u) ltac:(lia) Hwt) as [Hland _].
  fold tag in Hland. rewrite Hland. rewrite (int_small (wireTypeOf u)) by lia.
  assert (Htagb : len (varintBytes 10 tag) = sovGenerated tag)
    by (apply sovGenerated_len; lia).
  destruct u as [v|b|p|b]; cbn [unknownOk wireTypeOf] in Hu, Hlen, Hshape |- *;
    unfold body in *; cbn [Z.eqb Pos.eqb].
  - rewrite (skipVarint_varintBytes 9 11 v 0 _ (sovGenerated tag) rest);
      [|apply uint64_bound_70; lia|lia|lia|lia| |lia].
    + rewrite sovGenerated_len by lia. f_equal. lia.
    + rewrite Hshape. rewrite app_nil_l. rewrite <- Htagb. unfold len.
      rewrite Nat2Z.id. by rewrite drop_app_length.
  - rewrite int_small by lia. f_equal. lia.
  - pose proof (len_nonneg p) as Hp.
    assert (Hshape2 : unknownField fieldNum (UBytes p) ++ rest
                      = varintBytes 10 tag ++ varintBytes 10 (len p) ++ (p ++ rest)).
    { unfold unknownField. fold tag. by rewrite <- !app_assoc. }
    pose proof (sovGenerated_nonneg (len p) Hp).
    rewrite (read_length int _ (varintBytes 10 tag) (len p) (p ++ rest)
               (sovGenerated tag) keepsSmall_int ltac:(lia) Hshape2 (eq_sym Htagb)).
    cbn [mbind result_bind].
    destruct (Z.ltb_spec (len p) 0); [lia|]. cbv zeta.
    rewrite int_small by lia.
    destruct (Z.ltb_spec (sovGenerated tag + sovGenerated (len p) + len p) 0); [lia|].
    f_equal. lia.
  - rewrite int_small by lia. f_equal. lia.
Qed.

(** *** Groups *)

Lemma Wire_ind (P : Wire -> Prop) :
  (forall fieldNum u, P (WPlain fieldNum u)) ->
  (forall fieldNum inner endNum,
      Forall P inner -> P (WGroup fieldNum inner endNum)) ->
  forall w, P w.
Proof.
  intros Hplain Hgroup.
  refine (fix IH (w : Wire) : P w :=
            match w with
            | WPlain fieldNum u => Hplain fieldNum u
            | WGroup fieldNum inner endNum =>
                Hgroup fieldNum inner endNum
                  ((fix go (l : list Wire) : Forall P l :=
                      match l with
                      | [] => Forall_nil_2 P
                      | w' :: l' => Forall_cons_2 P w' l' (IH w') (go l')
                      end) inner)
            end).
Qed.

Lemma wireOk_group fieldNum inner endNum :
  wireOk (WGroup fieldNum inner endNum)
  <-> 0 <= fieldNum < 2 ^ 60 /\ 0 <= endNum < 2 ^ 60 /\ Forall wireOk inner.
Proof.
  cbn [wireOk].
  assert (Hall : (fix all (l : list Wire) : Prop :=
                    match l with
                    | [] => True
                    | w' :: l' => wireOk w' /\ all l'
                    end) inner <-> Forall wireOk inner).
  { induction inner as [|w inner IH]; [by split; [constructor|]|].
    rewrite Forall_cons, <- IH. done. }
  by rewrite Hall.
Qed.

(** A field opens with its tag, whose wire type is not 4. *)
Lemma wireBytes_head w :
  wireOk w ->
  0 <= wireNum w < 2 ^ 60 /\ 0 <= wireType w < 8 /\ wireType w <> 4
  /\ exists body, wireBytes w = varintBytes 10 (wireNum w * 8 + wireType w) ++ body.
Proof.
  destruct w as [fieldNum u|fieldNum inner endNum].
  - intros [Hn Hu]. pose proof (wireTypeOf_range u). cbn [wireNum wireType wireBytes].
    split; [done|]. split; [done|]. split; [by destruct u|].
    unfold unknownField. by eexists.
  - intros (Hn & He & _)%wireOk_group. cbn [wireNum wireType wireBytes].
    split; [done|]. split; [lia|]. split; [lia|]. by eexists.
Qed.

Lemma wireBytes_pos w : wireOk w -> 1 <= len (wireBytes w).
Proof.
  intros Hok. destruct (wireBytes_head w Hok) as (Hn & Ht & _ & body & ->).
  rewrite len_app, sovGenerated_len by lia.
  pose proof (sovGenerated_nonneg (wireNum w * 8 + wireType w) ltac:(lia)).
  pose proof (len_nonneg body). lia.
Qed.

(** The loop of wire type 3 over the fields of a group, up to and
    including the end-group tag. *)
Lemma skipGroup_fields inner :
  forall pre fuel rest endNum,
    Forall (fun w => wireOk w /\ skipsOver w) inner ->
    0 <= endNum < 2 ^ 60 ->
    len (pre ++ concat (map wireBytes inner) ++ varintBytes 10 (endNum * 8 + 4) ++ rest)
      + 8 < 2 ^ 63 ->
    (length (concat (map wireBytes inner)) + 1 <= fuel)%nat ->
    skipGroup fuel
      (pre ++ concat (map wireBytes inner) ++ varintBytes 10 (endNum * 8 + 4) ++ rest)
      (len (pre ++ concat (map wireBytes inner)
              ++ varintBytes 10 (endNum * 8 + 4) ++ rest))
      (len pre)
    = Ok (len pre + len (concat (map wireBytes inner))
          + sovGenerated (endNum * 8 + 4)).
Proof.
  induction inner as [|w inner IH]; intros pre fuel rest endNum Hall He Hfit Hfuel;
    (destruct fuel as [|fuel]; [simpl in Hfuel; lia|]); rewrite skipGroup_S; cbv zeta.
  - cbn [map concat app] in *. change (len (@nil Z)) with 0. rewrite Z.add_0_r.
    set (tag := endNum * 8 + 4) in *.
    rewrite (read_length uint64 _ pre tag rest (len pre) keepsSmall_uint64 ltac:(lia)
               eq_refl eq_refl).
    cbn [mbind result_bind].
    destruct (tag_parts endNum 4 ltac:(lia) ltac:(lia)) as [Hland _].
    fold tag in Hland. rewrite Hland. by change (int 4 =? 4) with true.
  - apply Forall_cons in Hall as [[Hok Hskip] Hall].
    destruct (wireBytes_head w Hok) as (Hn & Ht & Hne & body & Hhead).
    pose proof (wireBytes_pos w Hok) as Hpos.
    cbn [map concat] in *.
    set (X := concat (map wireBytes inner)) in *.
    set (E := varintBytes 10 (endNum * 8 + 4)) in *.
    set (tag := wireNum w * 8 + wireType w) in *.
    pose proof (len_nonneg pre) as Hp0. pose proof (len_nonneg X) as HX0.
    pose proof (len_nonneg E) as HE0. pose proof (len_nonneg rest) as Hr0.
    set (D := pre ++ (wireBytes w ++ X) ++ E ++ rest) in *.
    assert (HD1 : D = pre ++ varintBytes 10 tag ++ (body ++ X ++ E ++ rest)).
    { unfold D. rewrite Hhead. by rewrite <- !app_assoc. }
    assert (HDlen : len D = len pre + len (wireBytes w) + len X + len E + len rest).
    { unfold D. rewrite !len_app. lia. }
    rewrite (read_length uint64 D pre tag _ (len pre) keepsSmall_uint64 ltac:(lia)
               HD1 eq_refl).
    cbn [mbind result_bind].
    destruct (tag_parts (wireNum w) (wireType w) ltac:(lia) Ht) as [Hland _].
    fold tag in Hland. rewrite Hland. rewrite (int_small (wireType w)) by lia.
    destruct (Z.eqb_spec (wireType w) 4); [done|].
    rewrite slice_tail by lia. cbn [mbind result_bind].
    assert (Hdrop : drop (Z.to_nat (len pre)) D = wireBytes w ++ (X ++ E ++ rest)).
    { unfold D. rewrite drop_len_app. by rewrite <- !app_assoc. }
    rewrite Hdrop.
    rewrite length_app in Hfuel.
    rewrite (Hskip fuel (X ++ E ++ rest));
      [|unfold len in Hpos; lia|rewrite !len_app in *; lia].
    cbn [mbind result_bind]. cbv zeta.
    rewrite int_small by lia.
    destruct (Z.ltb_spec (len pre + len (wireBytes w)) 0); [lia|].
    replace (len pre + len (wireBytes w)) with (len (pre ++ wireBytes w))
      by (by rewrite len_app).
    assert (HD2 : D = (pre ++ wireBytes w) ++ X ++ E ++ rest)
      by (unfold D; by rewrite <- !app_assoc).
    rewrite HD2. unfold E.
    rewrite (IH (pre ++ wireBytes w) fuel rest endNum Hall He).
    + fold X. rewrite !len_app. f_equal. lia.
    + fold X E. rewrite <- HD2. lia.
    + fold X. unfold len in Hpos. lia.
Qed.

Lemma skipGenerated_wire w : wireOk w -> skipsOver w.
Proof.
  induction w as [fieldNum u|fieldNum inner endNum IH] using Wire_ind.
  - intros [Hn Hu] fuel rest Hfuel Hfit. cbn [wireBytes] in *.
    apply skipGenerated_unknownField; try done.
    pose proof (wireBytes_pos (WPlain fieldNum u) (conj Hn Hu)) as Hpos.
    cbn [wireBytes] in Hpos. unfold len in Hpos. lia.
  - intros (Hn & He & Hin)%wireOk_group fuel rest Hfuel Hfit.
    assert (Hall : Forall (fun w => wireOk w /\ skipsOver w) inner).
    { apply Forall_forall. intros w Hw. rewrite Forall_forall in Hin, IH.
      split; [by apply Hin|]. apply IH; [done|]. by apply Hin. }
    cbn [wireBytes] in *.
    set (tag := fieldNum * 8 + 3) in *.
    set (X := concat (map wireBytes inner)) in *.
    set (E := varintBytes 10 (endNum * 8 + 4)) in *.
    assert (HT : len (varintBytes 10 tag) = sovGenerated tag)
      by (apply sovGenerated_len; unfold tag; lia).
    assert (HE : len E = sovGenerated (endNum * 8 + 4))
      by (apply sovGenerated_len; lia).
    pose proof (sovGenerated_nonneg tag ltac:(unfold tag; lia)) as Hsov.
    pose proof (sovGenerated_nonneg (endNum * 8 + 4) ltac:(lia)) as HsovE.
    pose proof (len_nonneg X) as HX0. pose proof (len_nonneg rest) as Hr0.
    destruct fuel as [|fuel]; [rewrite length_app in Hfuel; unfold len in HT; lia|].
    rewrite skipGenerated_S. cbv zeta.
    set (D := (varintBytes 10 tag ++ X ++ E) ++ rest) in *.
    assert (HDlen : len D = len (varintBytes 10 tag) + len X + len E + len rest)
      by (unfold D; rewrite !len_app; lia).
    destruct (Z.ltb_spec 0 (len D)); [|lia].
    assert (HD1 : D = [] ++ varintBytes 10 tag ++ (X ++ E ++ rest))
      by (unfold D; by rewrite <- !app_assoc).
    rewrite (read_length uint64 D [] tag _ 0 keepsSmall_uint64 ltac:(unfold tag; lia)
               HD1 eq_refl).
    cbn [mbind result_bind].
    destruct (tag_parts fieldNum 3 ltac:(lia) ltac:(lia)) as [Hland _].
    fold tag in Hland. rewrite Hland. change (int 3) with 3.
    cbn [Z.eqb Pos.eqb]. rewrite Z.add_0_l, <- HT.
    assert (HD2 : D = varintBytes 10 tag ++ X ++ E ++ rest)
      by (unfold D; by rewrite <- !app_assoc).
    rewrite HD2. unfold X, E.
    rewrite (skipGroup_fields inner (varintBytes 10 tag) fuel rest endNum Hall He).
    + fold X E. rewrite !len_app. f_equal. lia.
    + fold X E. rewrite <- HD2. lia.
    + fold X. rewrite !length_app in Hfuel. unfold len in HE, HT. lia.
Qed.

Section Unknown.
Context (meta : ObjectMetaMethods).
Implicit Types m : RuntimeClass meta.

Lemma RuntimeClass_Unmarshal_wire m w :
  3 <= wireNum w < 2 ^ 29 -> wireOk w ->
  len (wireBytes w) + 8 < 2 ^ 63 ->
  RuntimeClass_Unmarshal meta m (wireBytes w) = Ok m.
Proof.
  intros Hf Hok Hfit. unfold RuntimeClass_Unmarshal.
  destruct (wireBytes_head w Hok) as (_ & Hwt & Hne & body & Hshape).
  pose proof (wireBytes_pos w Hok) as Hpos.
  pose proof (skipGenerated_wire w Hok (2 * length (wireBytes w) + 2)%nat []) as Hskip.
  rewrite app_nil_r in Hskip.
  set (U := wireBytes w) in *.
  set (tag := wireNum w * 8 + wireType w) in *.
  assert (Htag : 0 <= tag < 2 ^ 63) by (unfold tag; lia).
  rewrite unmarshalLoop_step.
  destruct (Z.ltb_spec 0 (len U)); [|lia].
  assert (Hstep : unmarshalStep meta U m 0 = Ok (m, len U)).
  { unfold unmarshalStep. cbv zeta.
    rewrite (read_length uint64 U [] tag body 0 keepsSmall_uint64 Htag Hshape eq_refl).
    cbn [mbind result_bind].
    destruct (tag_parts (wireNum w) (wireType w) ltac:(lia) Hwt) as [Hland Hshr].
    fold tag in Hland, Hshr. rewrite Hland, Hshr.
    rewrite (int_small (wireType w)) by lia.
    assert (int32 (wireNum w) = wireNum w) as ->.
    { unfold int32. rewrite Z.mod_small; lia. }
    destruct (Z.eqb_spec (wireType w) 4) as [H4|_]; [done|].
    destruct (Z.leb_spec (wireNum w) 0); [lia|].
    destruct (Z.eqb_spec (wireNum w) 1); [lia|].
    destruct (Z.eqb_spec (wireNum w) 2); [lia|].
    rewrite slice_tail by lia. cbn [mbind result_bind].
    change (Z.to_nat 0) with 0%nat. rewrite drop_0.
    rewrite Hskip by (done || lia).
    cbn [mbind result_bind].
    destruct (Z.ltb_spec (len U) 0); [lia|].
    rewrite Z.add_0_l, int_small by lia.
    destruct (Z.ltb_spec (len U) 0); [lia|].
    by rewrite Z.ltb_irrefl. }
  rewrite Hstep. cbn [mbind result_bind].
  destruct (length U) as [|k] eqn:Hk; [unfold len in Hpos; lia|].
  rewrite unmarshalLoop_step. by rewrite Z.ltb_irrefl.
Qed.

End Unknown.

(** *** Errors carry over to a longer buffer *)

Lemma readVarint_shift_Ok fuel conv rest pre shift iNdEx acc v j :
  0 <= iNdEx ->
  readVarint fuel conv rest (len rest) shift iNdEx acc = Ok (v, j) ->
  readVarint fuel conv (pre ++ rest) (len (pre ++ rest)) shift (len pre + iNdEx) acc
  = Ok (v, len pre + j).
Proof.
  intros Hi H. pose proof (readVarint_relocate fuel conv rest pre [] _ _ _ _ _ Hi H) as Hr.
  by rewrite app_nil_r in Hr.
Qed.

Lemma readVarint_shift_Err fuel conv rest pre shift iNdEx acc e :
  0 <= iNdEx ->
  readVarint fuel conv rest (len rest) shift iNdEx acc = Err e ->
  readVarint fuel conv (pre ++ rest) (len (pre ++ rest)) shift (len pre + iNdEx) acc
  = Err e.
Proof.
  revert shift iNdEx acc. induction fuel as [|fuel IH]; intros shift iNdEx acc Hi; [done|].
  rewrite !readVarint_S.
  destruct (64 <=? shift); [done|].
  pose proof (len_nonneg pre).
  rewrite len_app.
  destruct (Z.leb_spec (len rest) iNdEx);
    destruct (Z.leb_spec (len pre + len rest) (len pre + iNdEx)); try lia; [done|].
  replace (Z.to_nat (len pre + iNdEx)) with (length pre + Z.to_nat iNdEx)%nat
    by (unfold len; lia).
  rewrite lookup_app_r by lia.
  replace (length pre + Z.to_nat iNdEx - length pre)%nat with (Z.to_nat iNdEx) by lia.
  destruct (rest !! Z.to_nat iNdEx) as [b|] eqn:Hb; [|done]. cbv zeta.
  destruct (b <? 128); [done|].
  intros H'. apply IH in H'; [|lia]. rewrite len_app in H'. rewrite <- H'. f_equal. lia.
Qed.

Lemma slice_shift (rest pre : list Z) i j x :
  slice rest i j = Ok x -> slice (pre ++ rest) (len pre + i) (len pre + j) = Ok x.
Proof.
  intros H. pose proof (slice_relocate rest pre [] i j x H) as Hr.
  by rewrite app_nil_r in Hr.
Qed.

(** The sum of an index and a length, both in range, one buffer further. *)
Lemma int_sum_shift a b c :
  0 <= a -> 0 <= b < 2 ^ 63 -> 0 <= c -> a + c < 2 ^ 63 ->
  int (c + b) < 0 \/ c + b < 2 ^ 63 ->
  int (a + c + b) < 0 \/ (int (a + c + b) = a + c + b /\ c + b <= a + c + b).
Proof.
  intros Ha Hb Hc Hac _.
  destruct (int_sum (a + c) b ltac:(lia) ltac:(lia)) as [[Heq _]|Hneg]; [right|left]; lia.
Qed.

Section ShiftErr.
Context (meta : ObjectMetaMethods).
Implicit Types m : RuntimeClass meta.

Lemma unmarshalStep_shift_Err rest pre m iNdEx e :
  len (pre ++ rest) + 8 < 2 ^ 63 -> 0 <= iNdEx < len rest ->
  unmarshalStep meta rest m iNdEx = Err e ->
  failed (unmarshalStep meta (pre ++ rest) m (len pre + iNdEx)).
Proof.
  intros Hfit Hi. unfold unmarshalStep. cbv zeta.
  pose proof (len_nonneg pre). pose proof (len_nonneg rest).
  assert (Htot : len (pre ++ rest) = len pre + len rest) by apply len_app.
  destruct (readVarint 11 uint64 rest (len rest) 0 iNdEx 0) as [[wire i1]|e1| |] eqn:Hrd;
    try done.
  2:{ intros _. by rewrite (readVarint_shift_Err _ _ _ pre _ _ _ _ (proj1 Hi) Hrd). }
  pose proof (readVarint_index _ _ _ _ _ _ _ _ _ Hrd) as Hi1.
  rewrite (readVarint_shift_Ok _ _ _ pre _ _ _ _ _ (proj1 Hi) Hrd).
  cbn [mbind result_bind].
  destruct (_ =? 4); [done|]. destruct (_ <=? 0); [done|].
  assert (0 <= i1) as Hi1' by lia.
  destruct (_ =? 1).
  { destruct (negb _); [done|].
    destruct (readVarint 11 int rest (len rest) 0 i1 0) as [[msglen i2]|e2| |] eqn:Hrd2;
      try done.
    2:{ intros _. by rewrite (readVarint_shift_Err _ _ _ pre _ _ _ _ Hi1' Hrd2). }
    pose proof (readVarint_int 11 rest (len rest) 0 i1 0 msglen i2 ltac:(lia) Hrd2)
      as Hrange.
    pose proof (readVarint_index _ _ _ _ _ _ _ _ _ Hrd2) as Hi2.
    rewrite (readVarint_shift_Ok _ _ _ pre _ _ _ _ _ Hi1' Hrd2).
    cbn [mbind result_bind].
    destruct (Z.ltb_spec msglen 0); [done|]. cbv zeta.
    destruct (int_sum (len pre + i2) msglen ltac:(lia) ltac:(lia)) as [[Heq' Hlt']|Hneg'].
    2:{ intros _. by destruct (Z.ltb_spec (int (len pre + i2 + msglen)) 0); [|lia]. }
    rewrite Heq'. rewrite (int_small (i2 + msglen)) by lia.
    destruct (Z.ltb_spec (len pre + i2 + msglen) 0); [done|].
    destruct (Z.ltb_spec (i2 + msglen) 0); [lia|].
    destruct (Z.ltb_spec (len rest) (i2 + msglen));
      destruct (Z.ltb_spec (len (pre ++ rest)) (len pre + i2 + msglen)); try lia; [done|].
    destruct (slice rest i2 (i2 + msglen)) as [sub| | |] eqn:Hsl; try done.
    2:{ destruct (slice_returned rest i2 (i2 + msglen) ltac:(lia) ltac:(lia))
          as (x & Hx & _). congruence. }
    replace (len pre + i2 + msglen) with (len pre + (i2 + msglen)) by lia.
    rewrite (slice_shift _ pre _ _ _ Hsl). cbn [mbind result_bind].
    by destruct (ObjectMeta_Unmarshal meta _ sub). }
  destruct (_ =? 2).
  { destruct (negb _); [done|].
    destruct (readVarint 11 uint64 rest (len rest) 0 i1 0) as [[stringLen i2]|e2| |]
      eqn:Hrd2; try done.
    2:{ intros _. by rewrite (readVarint_shift_Err _ _ _ pre _ _ _ _ Hi1' Hrd2). }
    pose proof (readVarint_index _ _ _ _ _ _ _ _ _ Hrd2) as Hi2.
    rewrite (readVarint_shift_Ok _ _ _ pre _ _ _ _ _ Hi1' Hrd2).
    cbn [mbind result_bind]. cbv zeta.
    pose proof (int_range stringLen) as Hrange.
    destruct (Z.ltb_spec (int stringLen) 0); [done|].
    destruct (int_sum (len pre + i2) (int stringLen) ltac:(lia) ltac:(lia))
      as [[Heq' Hlt']|Hneg'].
    2:{ intros _. by destruct (Z.ltb_spec (int (len pre + i2 + int stringLen)) 0); [|lia]. }
    rewrite Heq'. rewrite (int_small (i2 + int stringLen)) by lia.
    destruct (Z.ltb_spec (len pre + i2 + int stringLen) 0); [done|].
    destruct (Z.ltb_spec (i2 + int stringLen) 0); [lia|].
    destruct (Z.ltb_spec (len rest) (i2 + int stringLen));
      destruct (Z.ltb_spec (len (pre ++ rest)) (len pre + i2 + int stringLen));
      try lia; [done|].
    destruct (slice rest i2 (i2 + int stringLen)) as [sub| | |] eqn:Hsl; try done.
    destruct (slice_returned rest i2 (i2 + int stringLen) ltac:(lia) ltac:(lia))
      as (x & Hx & _). congruence. }
  rewrite !slice_tail by lia. cbn [mbind result_bind].
  replace (Z.to_nat (len pre + iNdEx)) with (length pre + Z.to_nat iNdEx)%nat
    by (unfold len; lia).
  rewrite drop_app_add.
  set (r := drop (Z.to_nat iNdEx) rest).
  assert (Hr : len r = len rest - iNdEx).
  { unfold r, len. rewrite length_drop. unfold len in *. lia. }
  assert (Hg : skipped_ahead 1 (skipGenerated (2 * length r + 2) r)).
  { apply (skip_ahead (2 * length r + 2)); unfold len in *; lia. }
  destruct (skipGenerated (2 * length r + 2) r) as [skippy| | |] eqn:Hskip; try done.
  simpl in Hg. cbn [mbind result_bind].
  destruct (Z.ltb_spec skippy 0); [done|].
  destruct (int_sum (len pre + iNdEx) skippy ltac:(lia) ltac:(lia)) as [[Heq' Hlt']|Hneg'].
  2:{ intros _. by destruct (Z.ltb_spec (int (len pre + iNdEx + skippy)) 0); [|lia]. }
  rewrite Heq'. rewrite (int_small (iNdEx + skippy)) by lia.
  destruct (Z.ltb_spec (len pre + iNdEx + skippy) 0); [done|].
  destruct (Z.ltb_spec (iNdEx + skippy) 0); [lia|].
  destruct (Z.ltb_spec (len rest) (iNdEx + skippy));
    destruct (Z.ltb_spec (len (pre ++ rest)) (len pre + iNdEx + skippy));
    try lia; done.
Qed.

Lemma unmarshalLoop_shift_Err fuel rest pre m iNdEx e :
  metaReturns meta -> len (pre ++ rest) + 8 < 2 ^ 63 -> 0 <= iNdEx <= len rest ->
  unmarshalLoop meta fuel rest m iNdEx = Err e ->
  failed (unmarshalLoop meta fuel (pre ++ rest) m (len pre + iNdEx)).
Proof.
  intros Hmeta Hfit. revert m iNdEx.
  pose proof (len_nonneg pre). pose proof (len_nonneg rest).
  assert (Htot : len (pre ++ rest) = len pre + len rest) by apply len_app.
  induction fuel as [|fuel IH]; intros m iNdEx Hi; [done|].
  rewrite !unmarshalLoop_step.
  destruct (Z.ltb_spec iNdEx (len rest));
    destruct (Z.ltb_spec (len pre + iNdEx) (len (pre ++ rest))); try lia.
  - destruct (unmarshalStep meta rest m iNdEx) as [[m1 i1]|e1| |] eqn:Hstep; try done.
    + pose proof (unmarshalStep_ahead meta rest m iNdEx Hmeta ltac:(lia) ltac:(lia)) as Hah.
      rewrite Hstep in Hah. simpl in Hah.
      pose proof (unmarshalStep_relocate meta rest pre [] m iNdEx m1 i1
                    ltac:(by rewrite app_nil_r) ltac:(lia) Hstep) as Hrel.
      rewrite app_nil_r in Hrel. rewrite Hrel.
      cbn [mbind result_bind]. apply IH. lia.
    + intros _.
      pose proof (unmarshalStep_shift_Err rest pre m iNdEx e1 Hfit ltac:(lia) Hstep) as Hf.
      by destruct (unmarshalStep meta (pre ++ rest) m (len pre + iNdEx)).
  - destruct (Z.ltb_spec (len rest) iNdEx); [lia|done].
Qed.

End ShiftErr.

(** *** [Unmarshal] field by field *)

Section Fields.
Context (meta : ObjectMetaMethods).
Implicit Types m : RuntimeClass meta.

Lemma RuntimeClass_Unmarshal_nil m : RuntimeClass_Unmarshal meta m [] = Ok m.
Proof. reflexivity. Qed.

(** The buffer [a] is consumed first; the loop then stands at its end. *)
Lemma unmarshalLoop_first m a b m' :
  metaReturns meta -> len (a ++ b) + 8 < 2 ^ 63 ->
  RuntimeClass_Unmarshal meta m a = Ok m' ->
  RuntimeClass_Unmarshal meta m (a ++ b)
  = unmarshalLoop meta (S (length b)) (a ++ b) m' (len a).
Proof.
  intros Hmeta Hfit Ha. unfold RuntimeClass_Unmarshal in *.
  pose proof (len_nonneg a). pose proof (len_nonneg b).
  assert (Hab : len (a ++ b) = len a + len b) by (rewrite len_app; lia).
  pose proof (unmarshalLoop_relocate meta (S (length a)) a [] b m 0 m' (S (length b))
                Hmeta Hfit ltac:(lia) Ha ltac:(unfold len; lia)) as Hrel.
  change ([] ++ a ++ b) with (a ++ b) in Hrel.
  change (len [] + ?x) with (0 + x) in Hrel. rewrite !Z.add_0_l in Hrel.
  rewrite <- Hrel. symmetry. apply unmarshalLoop_more; [|rewrite length_app; lia].
  pose proof (unmarshalLoop_returned meta (S (length (a ++ b))) (a ++ b) m 0
                Hmeta Hfit ltac:(lia) ltac:(unfold len in *; lia)) as Hret.
  intros Hout. by rewrite Hout in Hret.
Qed.

Lemma RuntimeClass_Unmarshal_app_Err m a b m' e :
  metaReturns meta -> len (a ++ b) + 8 < 2 ^ 63 ->
  RuntimeClass_Unmarshal meta m a = Ok m' ->
  RuntimeClass_Unmarshal meta m' b = Err e ->
  failed (RuntimeClass_Unmarshal meta m (a ++ b)).
Proof.
  intros Hmeta Hfit Ha Hb. rewrite (unmarshalLoop_first m a b m') by done.
  pose proof (len_nonneg b).
  pose proof (unmarshalLoop_shift_Err meta (S (length b)) b a m' 0 e Hmeta Hfit
                ltac:(lia) Hb) as Hf.
  by rewrite Z.add_0_r in Hf.
Qed.

Lemma unmarshalStep_metaField m sub post :
  len (10 :: varintBytes 10 (len sub) ++ sub ++ post) < 2 ^ 63 ->
  unmarshalStep meta (10 :: varintBytes 10 (len sub) ++ sub ++ post) m 0
  = om ← ObjectMeta_Unmarshal meta (RuntimeClass_ObjectMeta m) sub;
    Ok (mkRuntimeClass om (Handler m), 1 + sovGenerated (len sub) + len sub).
Proof.
  intros Hfit. pose proof (len_nonneg sub). pose proof (len_nonneg post).
  set (vs := varintBytes 10 (len sub)) in *.
  set (W := 10 :: vs ++ sub ++ post) in *.
  assert (Hs : len sub < 2 ^ 63).
  { unfold W in Hfit. rewrite len_cons, !len_app in Hfit.
    pose proof (len_nonneg vs). lia. }
  pose proof (sovGenerated_nonneg (len sub) ltac:(lia)) as Hsov.
  assert (Hvs : len vs = sovGenerated (len sub)) by (apply sovGenerated_len; lia).
  assert (HW : len W = 1 + sovGenerated (len sub) + len sub + len post).
  { unfold W. rewrite len_cons, !len_app. lia. }
  unfold unmarshalStep. cbv zeta.
  rewrite (read_tag uint64 W [] 10 (vs ++ sub ++ post) 0)
    by (done || apply keepsSmall_uint64 || lia).
  cbn [mbind result_bind].
  change (int32 (Z.shiftr 10 3)) with 1. change (int (Z.land 10 7)) with 2.
  cbn [Z.eqb Z.leb Z.compare Pos.eqb Pos.compare Pos.compare_cont negb].
  rewrite (read_length int W [10] (len sub) (sub ++ post) (0 + 1))
    by (done || apply keepsSmall_int || lia).
  cbn [mbind result_bind].
  destruct (Z.ltb_spec (len sub) 0); [lia|].
  rewrite (int_small (0 + 1 + _ + len sub)) by lia.
  destruct (Z.ltb_spec (0 + 1 + sovGenerated (len sub) + len sub) 0); [lia|].
  destruct (Z.ltb_spec (len W) (0 + 1 + sovGenerated (len sub) + len sub)); [lia|].
  replace (0 + 1 + sovGenerated (len sub)) with (len (10 :: vs))
    by (rewrite len_cons; lia).
  replace W with ((10 :: vs) ++ sub ++ post) at 1 by (by rewrite <- app_comm_cons).
  rewrite slice_mid. cbn [mbind result_bind].
  destruct (ObjectMeta_Unmarshal meta _ sub); try done.
  cbn [mbind result_bind]. rewrite len_cons. do 2 f_equal. lia.
Qed.

Lemma unmarshalStep_handlerField m handler post :
  len (18 :: varintBytes 10 (len handler) ++ handler ++ post) < 2 ^ 63 ->
  unmarshalStep meta (18 :: varintBytes 10 (len handler) ++ handler ++ post) m 0
  = Ok (mkRuntimeClass (RuntimeClass_ObjectMeta m) handler,
        1 + sovGenerated (len handler) + len handler).
Proof.
  intros Hfit. pose proof (len_nonneg handler). pose proof (len_nonneg post).
  set (vh := varintBytes 10 (len handler)) in *.
  set (W := 18 :: vh ++ handler ++ post) in *.
  assert (Hs : len handler < 2 ^ 63).
  { unfold W in Hfit. rewrite len_cons, !len_app in Hfit.
    pose proof (len_nonneg vh). lia. }
  pose proof (sovGenerated_nonneg (len handler) ltac:(lia)) as Hsov.
  assert (Hvh : len vh = sovGenerated (len handler)) by (apply sovGenerated_len; lia).
  assert (HW : len W = 1 + sovGenerated (len handler) + len handler + len post).
  { unfold W. rewrite len_cons, !len_app. lia. }
  unfold unmarshalStep. cbv zeta.
  rewrite (read_tag uint64 W [] 18 (vh ++ handler ++ post) 0)
    by (done || apply keepsSmall_uint64 || lia).
  cbn [mbind result_bind].
  change (int32 (Z.shiftr 18 3)) with 2. change (int (Z.land 18 7)) with 2.
  cbn [Z.eqb Z.leb Z.compare Pos.eqb Pos.compare Pos.compare_cont negb].
  rewrite (read_length uint64 W [18] (len handler) (handler ++ post) (0 + 1))
    by (done || apply keepsSmall_uint64 || lia).
  cbn [mbind result_bind].
  rewrite (int_small (len handler)) by lia.
  destruct (Z.ltb_spec (len handler) 0); [lia|].
  rewrite (int_small (0 + 1 + _ + len handler)) by lia.
  destruct (Z.ltb_spec (0 + 1 + sovGenerated (len handler) + len handler) 0); [lia|].
  destruct (Z.ltb_spec (len W) (0 + 1 + sovGenerated (len handler) + len handler)); [lia|].
  replace (0 + 1 + sovGenerated (len handler)) with (len (18 :: vh))
    by (rewrite len_cons; lia).
  replace W with ((18 :: vh) ++ handler ++ post) at 1 by (by rewrite <- app_comm_cons).
  rewrite slice_mid. cbn [mbind result_bind].
  rewrite len_cons. do 2 f_equal. lia.
Qed.

Lemma fieldBytes_len_known sub :
  len sub < 2 ^ 63 ->
  forall tag, len (tag :: varintBytes 10 (len sub) ++ sub)
              = 1 + sovGenerated (len sub) + len sub.
Proof.
  intros Hs tag. pose proof (len_nonneg sub).
  rewrite len_cons, len_app, sovGenerated_len by lia. lia.
Qed.

Lemma RuntimeClass_Unmarshal_field m f :
  fieldOk f -> len (fieldBytes f) + 8 < 2 ^ 63 ->
  RuntimeClass_Unmarshal meta m (fieldBytes f) = applyField meta m f.
Proof.
  intros Hok Hfit. destruct f as [sub|handler|w]; cbn [fieldBytes applyField] in *.
  - pose proof (len_nonneg sub).
    assert (Hs : len sub < 2 ^ 63).
    { rewrite len_cons, len_app in Hfit. pose proof (len_nonneg (varintBytes 10 (len sub))).
      lia. }
    pose proof (fieldBytes_len_known sub Hs 10) as Hlen.
    pose proof (sovGenerated_nonneg (len sub) ltac:(lia)).
    unfold RuntimeClass_Unmarshal. rewrite unmarshalLoop_step.
    destruct (Z.ltb_spec 0 (len (10 :: varintBytes 10 (len sub) ++ sub))); [|lia].
    pose proof (unmarshalStep_metaField m sub []) as Hstep.
    rewrite !app_nil_r in Hstep. rewrite Hstep by lia.
    destruct (ObjectMeta_Unmarshal meta _ sub) as [om| | |]; try done.
    cbn [mbind result_bind].
    destruct (length (10 :: varintBytes 10 (len sub) ++ sub)) as [|k] eqn:Hk;
      [unfold len at 1 in Hlen; rewrite Hk in Hlen; lia|].
    rewrite unmarshalLoop_step, Hlen. by rewrite Z.ltb_irrefl.
  - pose proof (len_nonneg handler).
    assert (Hs : len handler < 2 ^ 63).
    { rewrite len_cons, len_app in Hfit.
      pose proof (len_nonneg (varintBytes 10 (len handler))). lia. }
    pose proof (fieldBytes_len_known handler Hs 18) as Hlen.
    pose proof (sovGenerated_nonneg (len handler) ltac:(lia)).
    unfold RuntimeClass_Unmarshal. rewrite unmarshalLoop_step.
    destruct (Z.ltb_spec 0 (len (18 :: varintBytes 10 (len handler) ++ handler))); [|lia].
    pose proof (unmarshalStep_handlerField m handler []) as Hstep.
    rewrite !app_nil_r in Hstep. rewrite Hstep by lia.
    cbn [mbind result_bind].
    destruct (length (18 :: varintBytes 10 (len handler) ++ handler)) as [|k] eqn:Hk;
      [unfold len at 1 in Hlen; rewrite Hk in Hlen; lia|].
    rewrite unmarshalLoop_step, Hlen. by rewrite Z.ltb_irrefl.
  - destruct Hok as [Hn Hu]. by apply RuntimeClass_Unmarshal_wire.
Qed.

(** X9.  [Unmarshal] reads a sequence of well-formed fields from left to
    right: field 1 is handed to the ObjectMeta's own [Unmarshal] on the
    receiver's current ObjectMeta, field 2 replaces [Handler] (so the last
    occurrence wins), and a well-formed field with any other number in
    [3, 2^29), a group with what it holds included, is skipped without
    effect.  The empty input leaves the receiver as it is. *)
Theorem RuntimeClass_Unmarshal_stream fs :
  forall m m',
    metaReturns meta -> Forall fieldOk fs -> len (streamBytes fs) + 8 < 2 ^ 63 ->
    applyFields meta m fs = Ok m' ->
    RuntimeClass_Unmarshal meta m (streamBytes fs) = Ok m'.
Proof.
  induction fs as [|f fs IH]; intros m m' Hmeta Hok Hfit Happ.
  - by injection Happ as <-.
  - apply Forall_cons in Hok as [Hf Hfs].
    unfold streamBytes in *. rewrite fmap_cons, concat_cons in *.
    rewrite len_app in Hfit.
    pose proof (len_nonneg (fieldBytes f)). pose proof (len_nonneg (concat (fieldBytes <$> fs))).
    cbn [applyFields] in Happ.
    destruct (applyField meta m f) as [m1| | |] eqn:Hm1; try done.
    cbn [mbind result_bind] in Happ.
    apply (RuntimeClass_Unmarshal_app meta m _ _ m1 m'); [done|rewrite len_app; lia| |].
    + rewrite RuntimeClass_Unmarshal_field; [done|done|lia].
    + apply IH; [done|done|lia|done].
Qed.

End Fields.

(** *** Truncated fields *)

(** A varint whose last bytes are missing: the read runs into the end of the
    buffer. *)
Lemma readVarint_cut conv n :
  forall fuel v shift acc pre k,
    0 <= v < 2 ^ (7 * Z.of_nat (S n)) ->
    0 <= shift -> shift + 7 * Z.of_nat n < 64 ->
    (k < length (varintBytes (S n) v))%nat ->
    (n < fuel)%nat ->
    readVarint fuel conv (pre ++ take k (varintBytes (S n) v))
      (len (pre ++ take k (varintBytes (S n) v))) shift (len pre) acc
    = Err ErrUnexpectedEOF.
Proof.
  induction n as [|n IH]; intros fuel v shift acc pre k Hv Hs0 Hshift Hk Hfuel;
    (destruct fuel as [|fuel]; [lia|]); rewrite readVarint_S;
    rewrite (varintBytes_S _ v) in *;
    (destruct (Z.leb_spec 64 shift); [lia|]).
  - change (2 ^ (7 * Z.of_nat 1)) with 128 in Hv.
    destruct (Z.leb_spec 128 v); [lia|]. simpl in Hk.
    assert (k = 0)%nat as -> by lia. rewrite take_0, app_nil_r.
    by rewrite Z.leb_refl.
  - destruct (Z.leb_spec 128 v) as [Hge|Hlt].
    + destruct k as [|k].
      { rewrite take_0, app_nil_r. by rewrite Z.leb_refl. }
      rewrite firstn_cons. rewrite length_cons in Hk.
      assert (0 <= v) as Hv0 by (clear -Hge; lia).
      rewrite low7_plus_flag by done.
      pose proof (Z.mod_pos_bound v 128 ltac:(lia)) as Hmod.
      set (b := v mod 128 + 128) in *.
      set (tl := take k (varintBytes (S n) (Z.shiftr v 7))).
      pose proof (len_nonneg pre). pose proof (len_nonneg tl).
      destruct (Z.leb_spec (len (pre ++ b :: tl)) (len pre)) as [Hle|_].
      { rewrite len_app, len_cons in Hle. lia. }
      replace (Z.to_nat (len pre)) with (length pre) by (unfold len; lia).
      rewrite lookup_app_r, Nat.sub_diag by lia. cbn [lookup list_lookup]. cbv zeta.
      destruct (Z.ltb_spec b 128); [lia|].
      replace (pre ++ b :: tl) with ((pre ++ [b]) ++ tl) by (by rewrite <- app_assoc).
      replace (len pre + 1) with (len (pre ++ [b]))
        by (rewrite len_app; change (len [b]) with 1; lia).
      apply IH; [by apply shiftr7_bound|lia|lia|lia|lia].
    + simpl in Hk. assert (k = 0)%nat as -> by lia. rewrite take_0, app_nil_r.
      by rewrite Z.leb_refl.
Qed.

Section Truncated.
Context (meta : ObjectMetaMethods).
Implicit Types m : RuntimeClass meta.

(** The header of a length-delimited field: its tag and the varint of the
    length of [payload]. *)
Lemma take_field tag (payload : list Z) k :
  (0 < k < length (tag :: varintBytes 10 (len payload) ++ payload))%nat ->
  (exists j, (j < length (varintBytes 10 (len payload)))%nat
             /\ take k (tag :: varintBytes 10 (len payload) ++ payload)
                = tag :: take j (varintBytes 10 (len payload)))
  \/ (exists j, (j < length payload)%nat
                /\ take k (tag :: varintBytes 10 (len payload) ++ payload)
                   = tag :: varintBytes 10 (len payload) ++ take j payload).
Proof.
  intros Hk. destruct k as [|k]; [lia|]. rewrite firstn_cons.
  rewrite length_cons, length_app in Hk.
  destruct (Nat.lt_ge_cases k (length (varintBytes 10 (len payload)))).
  - left. exists k. split; [done|]. by rewrite take_app_le by lia.
  - right. exists (k - length (varintBytes 10 (len payload)))%nat. split; [lia|].
    by rewrite take_app_ge by lia.
Qed.

Lemma unmarshalStep_cut m tag payload k :
  tag = 10 \/ tag = 18 ->
  len payload < 2 ^ 62 ->
  (0 < k < length (tag :: varintBytes 10 (len payload) ++ payload))%nat ->
  unmarshalStep meta (take k (tag :: varintBytes 10 (len payload) ++ payload)) m 0
  = Err ErrUnexpectedEOF.
Proof.
  intros Htag Hfit Hk. pose proof (len_nonneg payload) as Hp.
  pose proof (sovGenerated_nonneg (len payload) Hp) as Hsov.
  pose proof (sovGenerated_range (len payload) ltac:(lia)) as Hsov10.
  assert (Hvs : len (varintBytes 10 (len payload)) = sovGenerated (len payload))
    by (apply sovGenerated_len; lia).
  destruct (take_field tag payload k Hk) as [(j & Hj & ->)|(j & Hj & ->)].
  - (* the length is cut *)
    set (W := tag :: take j (varintBytes 10 (len payload))).
    assert (Hcut : forall conv, readVarint 11 conv W (len W) 0 (0 + 1) 0
                                = Err ErrUnexpectedEOF).
    { intros conv. apply (readVarint_cut conv 9 11 (len payload) 0 0 [tag] j);
        [apply uint64_bound_70; lia|lia|lia|done|lia]. }
    unfold unmarshalStep. cbv zeta.
    rewrite (read_tag uint64 W [] tag (take j (varintBytes 10 (len payload))) 0)
      by (done || apply keepsSmall_uint64 || lia).
    cbn [mbind result_bind].
    destruct Htag as [-> | ->].
    + change (int32 (Z.shiftr 10 3)) with 1. change (int (Z.land 10 7)) with 2.
      cbn [Z.eqb Z.leb Z.compare Pos.eqb Pos.compare Pos.compare_cont negb].
      by rewrite Hcut.
    + change (int32 (Z.shiftr 18 3)) with 2. change (int (Z.land 18 7)) with 2.
      cbn [Z.eqb Z.leb Z.compare Pos.eqb Pos.compare Pos.compare_cont negb].
      by rewrite Hcut.
  - (* the payload is cut *)
    set (vs := varintBytes 10 (len payload)) in *.
    set (W := tag :: vs ++ take j payload).
    assert (HW : len W = 1 + sovGenerated (len payload) + Z.of_nat j).
    { unfold W. rewrite len_cons, len_app, Hvs. unfold len.
      rewrite length_take. lia. }
    unfold unmarshalStep. cbv zeta.
    rewrite (read_tag uint64 W [] tag (vs ++ take j payload) 0)
      by (done || apply keepsSmall_uint64 || lia).
    cbn [mbind result_bind].
    unfold len in Hp, Hfit.
    destruct Htag as [-> | ->].
    + change (int32 (Z.shiftr 10 3)) with 1. change (int (Z.land 10 7)) with 2.
      cbn [Z.eqb Z.leb Z.compare Pos.eqb Pos.compare Pos.compare_cont negb].
      rewrite (read_length int W [10] (len payload) (take j payload) (0 + 1))
        by (done || apply keepsSmall_int || unfold len; lia).
      cbn [mbind result_bind].
      destruct (Z.ltb_spec (len payload) 0); [unfold len in *; lia|].
      rewrite (int_small (0 + 1 + _ + len payload)) by (unfold len in *; lia).
      destruct (Z.ltb_spec (0 + 1 + sovGenerated (len payload) + len payload) 0);
        [unfold len in *; lia|].
      destruct (Z.ltb_spec (len W) (0 + 1 + sovGenerated (len payload) + len payload));
        [done|unfold len in *; lia].
    + change (int32 (Z.shiftr 18 3)) with 2. change (int (Z.land 18 7)) with 2.
      cbn [Z.eqb Z.leb Z.compare Pos.eqb Pos.compare Pos.compare_cont negb].
      rewrite (read_length uint64 W [18] (len payload) (take j payload) (0 + 1))
        by (done || apply keepsSmall_uint64 || unfold len; lia).
      cbn [mbind result_bind].
      rewrite (int_small (len payload)) by (unfold len in *; lia).
      destruct (Z.ltb_spec (len payload) 0); [unfold len in *; lia|].
      rewrite (int_small (0 + 1 + _ + len payload)) by (unfold len in *; lia).
      destruct (Z.ltb_spec (0 + 1 + sovGenerated (len payload) + len payload) 0);
        [unfold len in *; lia|].
      destruct (Z.ltb_spec (len W) (0 + 1 + sovGenerated (len payload) + len payload));
        [done|unfold len in *; lia].
Qed.

(** X10.  A field 1 or field 2 that is cut short anywhere after its first
    byte (in the middle of its length or of its payload) makes [Unmarshal]
    answer [io.ErrUnexpectedEOF]; it neither panics nor accepts the
    shorter payload. *)
Theorem RuntimeClass_Unmarshal_cut m tag payload k :
  tag = 10 \/ tag = 18 ->
  len payload < 2 ^ 62 ->
  (0 < k < length (tag :: varintBytes 10 (len payload) ++ payload))%nat ->
  RuntimeClass_Unmarshal meta m (take k (tag :: varintBytes 10 (len payload) ++ payload))
  = Err ErrUnexpectedEOF.
Proof.
  intros Htag Hfit Hk. unfold RuntimeClass_Unmarshal. rewrite unmarshalLoop_step.
  set (W := take k (tag :: varintBytes 10 (len payload) ++ payload)).
  assert (length W = k) as HkW by (unfold W; rewrite length_take; lia).
  assert (0 < len W) by (unfold len; lia).
  destruct (Z.ltb_spec 0 (len W)); [|lia].
  unfold W. by rewrite unmarshalStep_cut.
Qed.

End Truncated.

(** *** [LahsramOt] fills the end of its buffer *)

Section MarshalMore.
Context (meta : ObjectMetaMethods).
Implicit Types m : RuntimeClass meta.

(** [LahsramOt] fills the end of the buffer it is given and leaves what
    stands before. *)
Lemma RuntimeClass_LahsramOt_tail m sub P dAtA :
  subMarshals m sub -> wireSize m < 2 ^ 63 ->
  len dAtA = wireSize m -> len (P ++ dAtA) < 2 ^ 63 ->
  RuntimeClass_LahsramOt meta m (P ++ dAtA)
  = Ok (P ++ wireImage sub (Handler m), wireSize m).
Proof.
  intros Hsub Hfit Hlen Htot.
  destruct (wireSize_bounds meta m sub Hsub Hfit) as (Hs & Hh & Himg).
  destruct Hsub as [Hsz Hmar].
  pose proof (len_nonneg P) as HP.
  pose proof (sovGenerated_nonneg (len sub) ltac:(lia)) as Hsov1.
  pose proof (sovGenerated_nonneg (len (Handler m)) ltac:(lia)) as Hsov2.
  assert (Hws : wireSize m = (1 + len sub + sovGenerated (len sub))
                + (1 + len (Handler m) + sovGenerated (len (Handler m)))).
  { unfold wireSize. cbv zeta. by rewrite <- Hsz. }
  rewrite len_app in Htot.
  destruct (split_at dAtA 1 ltac:(lia)) as (A & r1 & -> & HA).
  rewrite len_app in Hlen.
  destruct (split_at r1 (sovGenerated (len sub)) ltac:(lia)) as (B & r2 & -> & HB).
  rewrite len_app in Hlen.
  destruct (split_at r2 (len sub) ltac:(lia)) as (C & r3 & -> & HC).
  rewrite len_app in Hlen.
  destruct (split_at r3 1 ltac:(lia)) as (D & r4 & -> & HD).
  rewrite len_app in Hlen.
  destruct (split_at r4 (sovGenerated (len (Handler m))) ltac:(lia))
    as (E & F & -> & HE).
  rewrite len_app in Hlen.
  assert (HF : len F = len (Handler m)) by lia.
  rewrite !len_app in Htot.
  destruct A as [|a [|]]; try (unfold len in HA; simpl in HA; lia).
  destruct D as [|d [|]]; try (unfold len in HD; simpl in HD; lia).
  unfold RuntimeClass_LahsramOt. cbv zeta.
  (* the handler bytes *)
  replace (int (len (P ++ [a] ++ B ++ C ++ [d] ++ E ++ F) - len (Handler m)))
    with (len (P ++ [a] ++ B ++ C ++ [d] ++ E)).
  2:{ rewrite !len_app in *. rewrite int_small; lia. }
  replace (P ++ [a] ++ B ++ C ++ [d] ++ E ++ F)
    with ((P ++ [a] ++ B ++ C ++ [d] ++ E) ++ F)
    by (by rewrite <- !app_assoc).
  rewrite copyAt_app by (unfold len in HF; lia).
  cbn [mbind result_bind].
  (* its length *)
  rewrite uint64_small by lia.
  replace ((P ++ [a] ++ B ++ C ++ [d] ++ E) ++ Handler m)
    with ((P ++ [a] ++ B ++ C ++ [d]) ++ E ++ Handler m)
    by (by rewrite <- !app_assoc).
  replace (len (P ++ [a] ++ B ++ C ++ [d] ++ E))
    with (len (P ++ [a] ++ B ++ C ++ [d]) + len E)
    by (rewrite !len_app; lia).
  rewrite encodeVarintGenerated_spec by (done || lia).
  cbn [mbind result_bind].
  (* the tag of field 2 *)
  replace (len (P ++ [a] ++ B ++ C ++ [d]) - 1) with (len (P ++ [a] ++ B ++ C))
    by (rewrite !len_app; unfold len; simpl; lia).
  rewrite (store_app _ (P ++ [a] ++ B ++ C) d
             (varintBytes 10 (len (Handler m)) ++ Handler m) 18)
    by (by rewrite <- !app_assoc).
  cbn [mbind result_bind].
  (* the sub-message *)
  rewrite slice_prefix. cbn [mbind result_bind].
  rewrite Hmar by (rewrite !len_app; lia).
  cbn [mbind result_bind].
  rewrite drop_len_app.
  replace (take (length (P ++ [a] ++ B ++ C) - length sub) (P ++ [a] ++ B ++ C))
    with (P ++ [a] ++ B).
  2:{ replace (P ++ [a] ++ B ++ C) with ((P ++ [a] ++ B) ++ C)
        by (by rewrite <- !app_assoc).
      rewrite length_app. unfold len in HC.
      replace (length (P ++ [a] ++ B) + length C - length sub)%nat
        with (length (P ++ [a] ++ B)) by lia.
      by rewrite take_app_length. }
  replace (int (len (P ++ [a] ++ B ++ C) - len sub)) with (len (P ++ [a]) + len B).
  2:{ rewrite !len_app. rewrite int_small; lia. }
  rewrite uint64_small by lia.
  replace (((P ++ [a] ++ B) ++ sub)
             ++ 18 :: varintBytes 10 (len (Handler m)) ++ Handler m)
    with ((P ++ [a]) ++ B
            ++ (sub ++ 18 :: varintBytes 10 (len (Handler m)) ++ Handler m))
    by (by rewrite <- !app_assoc).
  rewrite encodeVarintGenerated_spec by (done || lia).
  cbn [mbind result_bind].
  (* the tag of field 1 *)
  replace (len (P ++ [a]) - 1) with (len P)
    by (rewrite len_app; change (len [a]) with 1; lia).
  rewrite (store_app _ P a
             (varintBytes 10 (len sub)
                ++ sub ++ 18 :: varintBytes 10 (len (Handler m)) ++ Handler m) 10)
    by (by rewrite <- !app_assoc).
  cbn [mbind result_bind]. f_equal. f_equal.
  rewrite len_app.
  change (10 :: varintBytes 10 (len sub)
            ++ sub ++ 18 :: varintBytes 10 (len (Handler m)) ++ Handler m)
    with (wireImage sub (Handler m)).
  rewrite <- Himg. lia.
Qed.

End MarshalMore.

(** *** [RuntimeClassList]: size, marshalling, unmarshalling *)

Lemma itemBytes_len W :
  len W < 2 ^ 63 -> len (itemBytes W) = 1 + sovGenerated (len W) + len W.
Proof.
  intros HW. pose proof (len_nonneg W). unfold itemBytes.
  rewrite len_cons, len_app, sovGenerated_len by lia. lia.
Qed.

Lemma concat_len_nonneg (l : list (list Z)) : 0 <= len (concat l).
Proof. apply len_nonneg. Qed.

Section ListFacts.
Context (meta lmeta : ObjectMetaMethods).
Implicit Types m : RuntimeClassList meta lmeta.

Lemma marshalsTo_size (e : RuntimeClass meta) W :
  marshalsTo e W ->
  RuntimeClass_Size meta e = len W /\ len W < 2 ^ 63 /\ wireSize e = len W.
Proof.
  intros (sub & Hsub & Hfit & ->).
  destruct (wireSize_bounds meta e sub Hsub Hfit) as (_ & _ & Himg).
  rewrite (RuntimeClass_Size_wireSize meta e sub Hsub Hfit). lia.
Qed.

Lemma sizeItems_spec items :
  forall Ws n,
    Forall2 marshalsTo items Ws -> 0 <= n ->
    n + len (concat (itemBytes <$> Ws)) < 2 ^ 63 ->
    sizeItems meta items n = n + len (concat (itemBytes <$> Ws)).
Proof.
  induction items as [|e items IH]; intros Ws n Hall Hn Hfit.
  - apply Forall2_nil_inv_l in Hall as ->. simpl. change (len []) with 0. lia.
  - apply Forall2_cons_inv_l in Hall as (W & Ws' & HW & Hall & ->).
    destruct (marshalsTo_size e W HW) as (Hsz & HWlt & _).
    rewrite fmap_cons, concat_cons, len_app in Hfit |- *.
    pose proof (len_nonneg W). pose proof (concat_len_nonneg (itemBytes <$> Ws')).
    pose proof (sovGenerated_nonneg (len W) ltac:(lia)).
    rewrite itemBytes_len in Hfit |- * by done.
    cbn [sizeItems]. cbv zeta. rewrite Hsz.
    rewrite uint64_small by lia.
    rewrite (int_small (1 + len W)) by lia.
    rewrite (int_small (1 + len W + _)) by lia.
    rewrite (int_small (n + _)) by lia.
    rewrite (IH Ws') by (done || lia). lia.
Qed.

Lemma lahsramItems_spec itemsRev :
  forall WsRev P gap done,
    Forall2 marshalsTo itemsRev WsRev ->
    len gap = len (concat (itemBytes <$> WsRev)) ->
    len (P ++ gap ++ done) < 2 ^ 63 ->
    lahsramItems meta itemsRev (P ++ gap ++ done) (len P + len gap)
    = Ok (P ++ concat (itemBytes <$> rev WsRev) ++ done, len P).
Proof.
  induction itemsRev as [|e itemsRev IH]; intros WsRev P gap done Hall Hgap Hfit.
  - apply Forall2_nil_inv_l in Hall as ->. simpl in *.
    change (len []) with 0 in Hgap.
    assert (gap = []) as -> by (destruct gap; [done|rewrite len_cons in Hgap;
                                  pose proof (len_nonneg gap); lia]).
    simpl. change (len []) with 0. by rewrite Z.add_0_r.
  - apply Forall2_cons_inv_l in Hall as (W & Ws' & HW & Hall & ->).
    pose proof (marshalsTo_size e W HW) as (Hsz & HWlt & Hws).
    destruct HW as (sub & Hsub & Hwfit & HWeq).
    rewrite fmap_cons, concat_cons, len_app in Hgap.
    pose proof (len_nonneg W) as HW0. pose proof (len_nonneg P) as HP0.
    pose proof (len_nonneg done) as Hd0.
    pose proof (concat_len_nonneg (itemBytes <$> Ws')) as Hc0.
    pose proof (sovGenerated_nonneg (len W) ltac:(lia)) as Hsov.
    rewrite itemBytes_len in Hgap by done.
    rewrite !len_app in Hfit.
    (* the end of the gap is where this item goes *)
    assert (Hs1 : 0 <= len (concat (itemBytes <$> Ws')) <= len gap) by lia.
    destruct (split_at gap _ Hs1) as (gap' & r1 & -> & Hgap'). clear Hs1.
    rewrite len_app in Hgap, Hfit.
    assert (Hs2 : 0 <= 1 <= len r1) by lia.
    destruct (split_at r1 _ Hs2) as (T & r2 & -> & HT). clear Hs2.
    rewrite len_app in Hgap, Hfit.
    assert (Hs3 : 0 <= sovGenerated (len W) <= len r2) by lia.
    destruct (split_at r2 _ Hs3) as (V & body & -> & HV). clear Hs3.
    rewrite len_app in Hgap, Hfit.
    destruct T as [|t [|]]; try (unfold len in HT; simpl in HT; lia).
    assert (Hbody : len body = len W) by lia.
    cbn [lahsramItems].
    replace (len P + len (gap' ++ [t] ++ V ++ body))
      with (len ((P ++ gap' ++ [t] ++ V) ++ body))
      by (rewrite !len_app; lia).
    replace (P ++ (gap' ++ [t] ++ V ++ body) ++ done)
      with (((P ++ gap' ++ [t] ++ V) ++ body) ++ done)
      by (by rewrite <- !app_assoc).
    rewrite slice_prefix. cbn [mbind result_bind].
    rewrite (RuntimeClass_LahsramOt_tail meta e sub (P ++ gap' ++ [t] ++ V) body Hsub Hwfit)
      by (rewrite ?len_app; lia).
    cbn [mbind result_bind]. cbv zeta.
    rewrite drop_len_app. rewrite <- HWeq, Hws.
    replace (int (len ((P ++ gap' ++ [t] ++ V) ++ body) - len W))
      with (len (P ++ gap' ++ [t]) + len V).
    2:{ rewrite !len_app. rewrite int_small; lia. }
    rewrite uint64_small by lia.
    replace (((P ++ gap' ++ [t] ++ V) ++ W) ++ done)
      with ((P ++ gap' ++ [t]) ++ V ++ (W ++ done))
      by (by rewrite <- !app_assoc).
    rewrite encodeVarintGenerated_spec by (done || lia).
    cbn [mbind result_bind].
    replace (len (P ++ gap' ++ [t]) - 1) with (len (P ++ gap'))
      by (rewrite !len_app; change (len [t]) with 1; lia).
    rewrite (store_app _ (P ++ gap') t (varintBytes 10 (len W) ++ W ++ done) 18)
      by (by rewrite <- !app_assoc).
    cbn [mbind result_bind].
    replace ((P ++ gap') ++ 18 :: varintBytes 10 (len W) ++ W ++ done)
      with (P ++ gap' ++ (itemBytes W ++ done))
      by (unfold itemBytes; rewrite <- !app_assoc; cbn [app];
          by rewrite <- ?app_assoc).
    rewrite len_app.
    rewrite (IH Ws' P gap' (itemBytes W ++ done)); [|done|done|].
    + f_equal. f_equal. f_equal. cbn [rev]. rewrite fmap_app, concat_app.
      cbn [fmap list_fmap concat]. by rewrite app_nil_r, <- app_assoc.
    + rewrite !len_app, itemBytes_len by done. lia.
Qed.

Lemma Forall2_rev {A B} (R : A -> B -> Prop) l k :
  Forall2 R l k -> Forall2 R (rev l) (rev k).
Proof.
  induction 1 as [|x y l k Hxy Hlk IH]; [constructor|].
  cbn [rev]. apply Forall2_app; [done|]. by repeat constructor.
Qed.

Lemma concat_items_rev_len (Ws : list (list Z)) :
  len (concat (itemBytes <$> rev Ws)) = len (concat (itemBytes <$> Ws)).
Proof.
  induction Ws as [|W Ws IH]; [done|].
  cbn [rev]. rewrite fmap_app, concat_app, len_app, IH.
  rewrite !fmap_cons, !concat_cons, !len_app.
  cbn [fmap list_fmap concat]. change (len (@nil Z)) with 0. lia.
Qed.

Lemma listImage_len lsub Ws :
  len lsub < 2 ^ 63 ->
  len (listImage lsub Ws)
  = 1 + sovGenerated (len lsub) + len lsub + len (concat (itemBytes <$> Ws)).
Proof.
  intros Hl. pose proof (len_nonneg lsub). unfold listImage.
  rewrite len_cons, !len_app, sovGenerated_len by lia. lia.
Qed.

Lemma listImage_sub_fits lsub Ws :
  len (listImage lsub Ws) < 2 ^ 63 -> len lsub < 2 ^ 63.
Proof.
  unfold listImage. rewrite len_cons, !len_app.
  pose proof (len_nonneg (varintBytes 10 (len lsub))).
  pose proof (concat_len_nonneg (itemBytes <$> Ws)). lia.
Qed.

Lemma RuntimeClassList_Size_image m lsub Ws :
  metaMarshals lmeta (ListMeta m) lsub ->
  Forall2 marshalsTo (Items m) Ws ->
  len (listImage lsub Ws) < 2 ^ 63 ->
  RuntimeClassList_Size meta lmeta m = len (listImage lsub Ws).
Proof.
  intros [Hsz _] Hall Hfit.
  pose proof (listImage_sub_fits _ _ Hfit) as Hl.
  rewrite listImage_len in Hfit |- * by done.
  pose proof (len_nonneg lsub).
  pose proof (sovGenerated_nonneg (len lsub) ltac:(lia)).
  pose proof (concat_len_nonneg (itemBytes <$> Ws)).
  unfold RuntimeClassList_Size. cbv zeta. rewrite <- Hsz.
  rewrite uint64_small by lia.
  rewrite (int_small (1 + len lsub)) by lia.
  rewrite (int_small (1 + len lsub + _)) by lia.
  rewrite (int_small (0 + _)) by lia.
  rewrite (sizeItems_spec _ Ws) by (done || lia). lia.
Qed.

Lemma RuntimeClassList_LahsramOt_tail m lsub Ws P dAtA :
  metaMarshals lmeta (ListMeta m) lsub ->
  Forall2 marshalsTo (Items m) Ws ->
  len dAtA = len (listImage lsub Ws) ->
  len (P ++ dAtA) < 2 ^ 63 ->
  RuntimeClassList_LahsramOt meta lmeta m (P ++ dAtA)
  = Ok (P ++ listImage lsub Ws, len (listImage lsub Ws)).
Proof.
  intros [Hsz Hmar] Hall Hlen Htot.
  pose proof (len_nonneg P) as HP.
  rewrite len_app in Htot.
  assert (Hfit : len (listImage lsub Ws) < 2 ^ 63) by lia.
  pose proof (listImage_sub_fits _ _ Hfit) as Hl.
  rewrite listImage_len in Hlen, Hfit by done.
  pose proof (len_nonneg lsub) as Hl0.
  pose proof (sovGenerated_nonneg (len lsub) ltac:(lia)) as Hsov.
  pose proof (concat_len_nonneg (itemBytes <$> Ws)) as Hc0.
  assert (Hs1 : 0 <= 1 <= len dAtA) by lia.
  destruct (split_at dAtA _ Hs1) as (A & r1 & -> & HA). clear Hs1.
  rewrite len_app in Hlen.
  assert (Hs2 : 0 <= sovGenerated (len lsub) <= len r1) by lia.
  destruct (split_at r1 _ Hs2) as (B & r2 & -> & HB). clear Hs2.
  rewrite len_app in Hlen.
  assert (Hs3 : 0 <= len lsub <= len r2) by lia.
  destruct (split_at r2 _ Hs3) as (C & gap & -> & HC). clear Hs3.
  rewrite len_app in Hlen.
  destruct A as [|a [|]]; try (unfold len in HA; simpl in HA; lia).
  assert (Hgap : len gap = len (concat (itemBytes <$> rev Ws)))
    by (rewrite concat_items_rev_len; lia).
  rewrite !len_app in Htot.
  unfold RuntimeClassList_LahsramOt. cbv zeta.
  (* the items, from the last to the first *)
  replace (P ++ [a] ++ B ++ C ++ gap) with ((P ++ [a] ++ B ++ C) ++ gap ++ [])
    by (by rewrite app_nil_r, <- !app_assoc).
  replace (len ((P ++ [a] ++ B ++ C) ++ gap ++ []))
    with (len (P ++ [a] ++ B ++ C) + len gap)
    by (rewrite !len_app; change (len []) with 0; lia).
  rewrite (lahsramItems_spec (rev (Items m)) (rev Ws))
    by (first [by apply Forall2_rev | done
              | rewrite !len_app; change (len []) with 0; lia]).
  cbn [mbind result_bind]. rewrite rev_involutive, app_nil_r.
  set (X := concat (itemBytes <$> Ws)).
  (* the ListMeta *)
  rewrite slice_prefix. cbn [mbind result_bind].
  rewrite Hmar by (rewrite !len_app; lia).
  cbn [mbind result_bind].
  rewrite drop_len_app.
  replace (take (length (P ++ [a] ++ B ++ C) - length lsub) (P ++ [a] ++ B ++ C))
    with (P ++ [a] ++ B).
  2:{ replace (P ++ [a] ++ B ++ C) with ((P ++ [a] ++ B) ++ C)
        by (by rewrite <- !app_assoc).
      rewrite length_app. unfold len in HC.
      replace (length (P ++ [a] ++ B) + length C - length lsub)%nat
        with (length (P ++ [a] ++ B)) by lia.
      by rewrite take_app_length. }
  replace (int (len (P ++ [a] ++ B ++ C) - len lsub)) with (len (P ++ [a]) + len B).
  2:{ rewrite !len_app. rewrite int_small; lia. }
  rewrite uint64_small by lia.
  replace (((P ++ [a] ++ B) ++ lsub) ++ X) with ((P ++ [a]) ++ B ++ (lsub ++ X))
    by (by rewrite <- !app_assoc).
  rewrite encodeVarintGenerated_spec by (done || lia).
  cbn [mbind result_bind].
  replace (len (P ++ [a]) - 1) with (len P)
    by (rewrite len_app; change (len [a]) with 1; lia).
  rewrite (store_app _ P a (varintBytes 10 (len lsub) ++ lsub ++ X) 10)
    by (by rewrite <- !app_assoc).
  cbn [mbind result_bind]. f_equal. f_equal.
  change (10 :: varintBytes 10 (len lsub) ++ lsub ++ X) with (listImage lsub Ws).
  rewrite len_app. lia.
Qed.

Lemma RuntimeClassList_Marshal_image m lsub Ws :
  metaMarshals lmeta (ListMeta m) lsub ->
  Forall2 marshalsTo (Items m) Ws ->
  len (listImage lsub Ws) < 2 ^ 63 ->
  RuntimeClassList_Marshal meta lmeta m = Ok (listImage lsub Ws).
Proof.
  intros Hsub Hall Hfit.
  unfold RuntimeClassList_Marshal. cbv zeta.
  rewrite (RuntimeClassList_Size_image m lsub Ws) by done.
  pose proof (len_nonneg (listImage lsub Ws)).
  unfold make. destruct (Z.leb_spec 0 (len (listImage lsub Ws))); [|lia].
  cbn [mbind result_bind].
  set (buf := replicate (Z.to_nat (len (listImage lsub Ws))) 0).
  assert (Hbuf : len buf = len (listImage lsub Ws))
    by (unfold buf, len; rewrite length_replicate; lia).
  rewrite <- Hbuf at 1. rewrite <- (app_nil_r buf) at 1.
  rewrite slice_prefix. cbn [mbind result_bind].
  change buf with ([] ++ buf).
  rewrite (RuntimeClassList_LahsramOt_tail m lsub Ws [] buf)
    by (done || (cbn [app]; lia)).
  cbn [mbind result_bind app].
  rewrite <- (app_nil_r (listImage _ _)) at 1.
  apply slice_prefix.
Qed.

Lemma items_count_le (Ws : list (list Z)) :
  (length Ws <= length (concat (itemBytes <$> Ws)))%nat.
Proof.
  induction Ws as [|W Ws IH]; [done|].
  rewrite fmap_cons, concat_cons, length_app. unfold itemBytes at 1.
  cbn [length]. lia.
Qed.

Lemma listUnmarshalLoop_items Ws :
  forall classes fuel pre m,
    Forall2 (itemUnmarshals meta) Ws classes ->
    len (pre ++ concat (itemBytes <$> Ws)) < 2 ^ 63 ->
    (length Ws < fuel)%nat ->
    listUnmarshalLoop meta lmeta fuel (pre ++ concat (itemBytes <$> Ws)) m (len pre)
    = Ok (mkRuntimeClassList (ListMeta m) (Items m ++ classes)).
Proof.
  induction Ws as [|W Ws IH]; intros classes fuel pre m Hall Hfit Hfuel.
  - apply Forall2_nil_inv_l in Hall as ->.
    destruct fuel as [|fuel]; [simpl in Hfuel; lia|].
    cbn [listUnmarshalLoop fmap list_fmap concat]. cbv zeta.
    rewrite !app_nil_r, Z.ltb_irrefl. by destruct m.
  - apply Forall2_cons_inv_l in Hall as (c & cs & Hc & Hall & ->).
    destruct fuel as [|fuel]; [simpl in Hfuel; lia|].
    rewrite fmap_cons, concat_cons in Hfit |- *.
    set (rest := concat (itemBytes <$> Ws)) in *.
    set (vs := varintBytes 10 (len W)).
    rewrite !len_app in Hfit. unfold itemBytes in Hfit. rewrite len_cons, len_app in Hfit.
    pose proof (len_nonneg pre) as Hp0. pose proof (len_nonneg W) as HW0.
    pose proof (len_nonneg rest) as Hr0. pose proof (len_nonneg (varintBytes 10 (len W))).
    assert (Hvs : len vs = sovGenerated (len W)) by (apply sovGenerated_len; lia).
    fold vs in Hfit.
    pose proof (sovGenerated_nonneg (len W) HW0) as Hsov.
    set (D := pre ++ itemBytes W ++ rest).
    assert (HD1 : D = pre ++ 18 :: vs ++ W ++ rest).
    { unfold D, itemBytes, vs. cbn [app]. by rewrite <- !app_assoc. }
    assert (HDlen : len D = len pre + (1 + len vs + len W) + len rest).
    { rewrite HD1. rewrite len_app, len_cons, !len_app. lia. }
    cbn [listUnmarshalLoop]. cbv zeta.
    destruct (Z.ltb_spec (len pre) (len D)); [|lia].
    rewrite (read_tag uint64 D pre 18 (vs ++ W ++ rest) (len pre))
      by (done || apply keepsSmall_uint64 || lia).
    cbn [mbind result_bind].
    change (int32 (Z.shiftr 18 3)) with 2. change (int (Z.land 18 7)) with 2.
    cbn [Z.eqb Z.leb Z.compare Pos.eqb Pos.compare Pos.compare_cont negb].
    assert (HD2 : D = (pre ++ [18]) ++ vs ++ W ++ rest)
      by (rewrite HD1; by rewrite <- app_assoc).
    rewrite (read_length int D (pre ++ [18]) (len W) (W ++ rest) (len pre + 1)
               keepsSmall_int ltac:(lia) HD2)
      by (rewrite len_app; change (len [18]) with 1; lia).
    cbn [mbind result_bind].
    destruct (Z.ltb_spec (len W) 0); [lia|].
    rewrite int_small by lia.
    match goal with |- context [?a <? 0] => destruct (Z.ltb_spec a 0); [lia|] end.
    match goal with |- context [len D <? ?a] =>
      destruct (Z.ltb_spec (len D) a); [lia|] end.
    replace (len pre + 1 + sovGenerated (len W)) with (len (pre ++ 18 :: vs))
      by (rewrite len_app, len_cons; lia).
    assert (HD3 : D = (pre ++ 18 :: vs) ++ W ++ rest)
      by (rewrite HD1; by rewrite <- app_assoc).
    rewrite HD3 at 1. rewrite slice_mid. cbn [mbind result_bind].
    unfold itemUnmarshals in Hc. rewrite Hc. cbn [mbind result_bind].
    replace (len (pre ++ 18 :: vs) + len W) with (len (pre ++ itemBytes W))
      by (unfold itemBytes; fold vs; rewrite !len_app, !len_cons, len_app; lia).
    assert (HD4 : D = (pre ++ itemBytes W) ++ rest)
      by (unfold D; by rewrite <- app_assoc).
    rewrite HD4. unfold rest.
    rewrite (IH cs fuel (pre ++ itemBytes W)); [| done | | simpl in Hfuel; lia].
    + cbn [ListMeta Items]. by rewrite <- app_assoc.
    + fold rest. rewrite <- HD4, HDlen. lia.
Qed.

Lemma listUnmarshalLoop_image fuel m0 lsub Ws lom' classes :
  len (listImage lsub Ws) < 2 ^ 63 ->
  ObjectMeta_Unmarshal lmeta (ListMeta m0) lsub = Ok lom' ->
  Forall2 (itemUnmarshals meta) Ws classes ->
  (length Ws + 1 < fuel)%nat ->
  listUnmarshalLoop meta lmeta fuel (listImage lsub Ws) m0 0
  = Ok (mkRuntimeClassList lom' (Items m0 ++ classes)).
Proof.
  intros Hfit Hunm Hall Hfuel.
  pose proof (listImage_sub_fits _ _ Hfit) as Hl.
  pose proof (listImage_len lsub Ws Hl) as Hlen.
  pose proof (len_nonneg lsub) as Hl0.
  pose proof (sovGenerated_nonneg (len lsub) Hl0) as Hsov.
  set (X := concat (itemBytes <$> Ws)) in *.
  pose proof (len_nonneg X) as HX0.
  set (vs := varintBytes 10 (len lsub)).
  assert (Hvs : len vs = sovGenerated (len lsub)) by (apply sovGenerated_len; lia).
  set (D := listImage lsub Ws) in *.
  destruct fuel as [|fuel]; [lia|].
  cbn [listUnmarshalLoop]. cbv zeta.
  destruct (Z.ltb_spec 0 (len D)); [|lia].
  rewrite (read_tag uint64 D [] 10 (vs ++ lsub ++ X) 0)
    by (done || apply keepsSmall_uint64 || lia).
  cbn [mbind result_bind].
  change (int32 (Z.shiftr 10 3)) with 1. change (int (Z.land 10 7)) with 2.
  cbn [Z.eqb Z.leb Z.compare Pos.eqb Pos.compare Pos.compare_cont negb].
  rewrite (read_length int D [10] (len lsub) (lsub ++ X) (0 + 1))
    by (done || apply keepsSmall_int || lia).
  cbn [mbind result_bind].
  destruct (Z.ltb_spec (len lsub) 0); [lia|].
  rewrite int_small by lia.
  match goal with |- context [?a <? 0] => destruct (Z.ltb_spec a 0); [lia|] end.
  match goal with |- context [len D <? ?a] =>
    destruct (Z.ltb_spec (len D) a); [lia|] end.
  replace (0 + 1 + sovGenerated (len lsub)) with (len (10 :: vs))
    by (rewrite len_cons; lia).
  replace D with ((10 :: vs) ++ lsub ++ X) at 1
    by (by rewrite <- app_comm_cons).
  rewrite slice_mid. cbn [mbind result_bind].
  rewrite Hunm. cbn [mbind result_bind].
  replace (len (10 :: vs) + len lsub) with (len ((10 :: vs) ++ lsub))
    by (by rewrite len_app).
  replace D with (((10 :: vs) ++ lsub) ++ X)
    by (unfold D, listImage, vs; by rewrite <- app_assoc).
  unfold X.
  rewrite (listUnmarshalLoop_items Ws classes); [done|done| |lia].
  fold X. replace (((10 :: vs) ++ lsub) ++ X) with D
    by (unfold D, listImage, vs; by rewrite <- app_assoc).
  done.
Qed.

Lemma listImage_budget lsub (Ws : list (list Z)) :
  (length Ws + 1 < S (length (listImage lsub Ws)))%nat.
Proof.
  pose proof (items_count_le Ws).
  unfold listImage. cbn [length]. rewrite !length_app. lia.
Qed.

End ListFacts.

(** *** [sozGenerated], [MarshalTo], [XXX_Marshal] *)

(** X4.  [sozGenerated] sizes the zigzag encoding: on the 64-bit pattern
    of a signed [n] it answers the varint size of [2n] when [n] is not
    negative and of [-2n - 1] when it is, so that values close to zero of
    either sign take few bytes. *)
Theorem sozGenerated_zigzag n :
  - 2 ^ 63 <= n < 2 ^ 63 ->
  sozGenerated (uint64 n) = sovGenerated (if n <? 0 then - 2 * n - 1 else 2 * n).
Proof.
  intros Hn. unfold sozGenerated. f_equal.
  assert (Hi : int64 (uint64 n) = n).
  { unfold int64, uint64. rewrite Zplus_mod_idemp_l.
    rewrite Z.mod_small by lia. lia. }
  rewrite Hi. rewrite Z.shiftl_mul_pow2 by lia. change (2 ^ 1) with 2.
  rewrite Z.shiftr_div_pow2 by lia.
  destruct (Z.ltb_spec n 0).
  - assert (Hq : n / 2 ^ 63 = -1).
    { symmetry. apply (Z.div_unique n (2 ^ 63) (-1) (n + 2 ^ 63)); lia. }
    rewrite Hq. change (uint64 (-1)) with (2 ^ 64 - 1).
    assert (Hx : uint64 n = n + 2 ^ 64).
    { unfold uint64. symmetry. apply (Z.mod_unique n (2 ^ 64) (-1)); lia. }
    rewrite Hx.
    assert (Hs : uint64 ((n + 2 ^ 64) * 2) = 2 * n + 2 ^ 64).
    { unfold uint64. symmetry. apply (Z.mod_unique _ (2 ^ 64) 1); lia. }
    rewrite Hs, lxor_ones64 by lia.
    unfold uint64. rewrite Z.mod_small by lia. lia.
  - rewrite Z.div_small by lia. change (uint64 0) with 0.
    rewrite (uint64_small n) by lia.
    rewrite (uint64_small (n * 2)) by lia.
    rewrite Z.lxor_0_r. rewrite uint64_small by lia. lia.
Qed.

Section MarshalToFacts.
Context (meta : ObjectMetaMethods).
Implicit Types m : RuntimeClass meta.

Lemma RuntimeClass_MarshalTo_image m sub dAtA :
  subMarshals m sub -> wireSize m < 2 ^ 63 ->
  wireSize m <= len dAtA ->
  RuntimeClass_MarshalTo meta m dAtA
  = Ok (wireImage sub (Handler m) ++ drop (Z.to_nat (wireSize m)) dAtA, wireSize m).
Proof.
  intros Hsub Hfit Hroom.
  destruct (wireSize_bounds meta m sub Hsub Hfit) as (Hs & Hh & Himg).
  pose proof (len_nonneg (wireImage sub (Handler m))) as H0.
  unfold RuntimeClass_MarshalTo. cbv zeta.
  rewrite (RuntimeClass_Size_wireSize meta m sub) by done.
  assert (Hsp : 0 <= wireSize m <= len dAtA) by lia.
  destruct (split_at dAtA _ Hsp) as (head & tail & -> & Hhead).
  rewrite <- Hhead at 1. rewrite slice_prefix. cbn [mbind result_bind].
  rewrite (RuntimeClass_LahsramOt_image meta m sub) by done.
  cbn [mbind result_bind]. rewrite <- Hhead, drop_len_app. by rewrite Hhead.
Qed.

Lemma RuntimeClass_MarshalTo_short m sub dAtA :
  subMarshals m sub -> wireSize m < 2 ^ 63 ->
  len dAtA < wireSize m ->
  RuntimeClass_MarshalTo meta m dAtA = Panic.
Proof.
  intros Hsub Hfit Hshort.
  unfold RuntimeClass_MarshalTo. cbv zeta.
  rewrite (RuntimeClass_Size_wireSize meta m sub) by done.
  unfold slice.
  destruct (Z.leb_spec (wireSize m) (len dAtA)); [lia|].
  by rewrite andb_false_r.
Qed.

Lemma RuntimeClass_XXX_Marshal_image m sub b deterministic :
  subMarshals m sub -> wireSize m < 2 ^ 63 ->
  wireSize m <= len b ->
  RuntimeClass_XXX_Marshal meta m b deterministic = Ok (wireImage sub (Handler m)).
Proof.
  intros Hsub Hfit Hroom.
  destruct (wireSize_bounds meta m sub Hsub Hfit) as (Hs & Hh & Himg).
  unfold RuntimeClass_XXX_Marshal.
  rewrite (RuntimeClass_MarshalTo_image m sub) by done.
  cbn [mbind result_bind]. rewrite Himg. apply slice_prefix.
Qed.

End MarshalToFacts.

(** *** [RuntimeClassList.Unmarshal] returns *)

Section ListReturns.
Context (meta lmeta : ObjectMetaMethods).
Implicit Types m : RuntimeClassList meta lmeta.

Lemma listUnmarshalLoop_returned fuel dAtA m iNdEx :
  metaReturns meta -> metaReturns lmeta ->
  len dAtA + 8 < 2 ^ 63 -> 0 <= iNdEx <= len dAtA ->
  len dAtA - iNdEx < Z.of_nat fuel ->
  returned (listUnmarshalLoop meta lmeta fuel dAtA m iNdEx).
Proof.
  intros Hmeta Hlmeta Hfit. revert m iNdEx.
  induction fuel as [|fuel IH]; intros m iNdEx Hi Hfuel; [lia|].
  cbn [listUnmarshalLoop]. cbv zeta.
  destruct (Z.ltb_spec iNdEx (len dAtA)) as [Hlt|Hge];
    [|destruct (Z.ltb_spec (len dAtA) iNdEx); done].
  pose proof (readVarint_returned 11 uint64 dAtA 0 iNdEx 0 ltac:(lia) ltac:(lia)
                ltac:(lia)) as Hret.
  destruct (readVarint 11 uint64 dAtA (len dAtA) 0 iNdEx 0) as [[wire i1]| | |] eqn:Hrd;
    try done.
  apply readVarint_index in Hrd. cbn [mbind result_bind].
  destruct (_ =? 4); [done|]. destruct (_ <=? 0); [done|].
  destruct (_ =? 1).
  { destruct (negb _); [done|].
    pose proof (readVarint_returned 11 int dAtA 0 i1 0 ltac:(lia) ltac:(lia) ltac:(lia))
      as Hret2.
    destruct (readVarint 11 int dAtA (len dAtA) 0 i1 0) as [[msglen i2]| | |] eqn:Hrd2;
      try done.
    pose proof (readVarint_int 11 dAtA (len dAtA) 0 i1 0 msglen i2 ltac:(lia) Hrd2)
      as Hrange.
    apply readVarint_index in Hrd2. cbn [mbind result_bind].
    destruct (Z.ltb_spec msglen 0); [done|]. cbv zeta.
    destruct (int_sum i2 msglen ltac:(lia) ltac:(lia)) as [[Heq Hlt']|Hneg].
    - rewrite Heq. destruct (Z.ltb_spec (i2 + msglen) 0); [done|].
      destruct (Z.ltb_spec (len dAtA) (i2 + msglen)); [done|].
      destruct (slice_returned dAtA i2 (i2 + msglen) ltac:(lia) ltac:(lia))
        as (sub & -> & _).
      cbn [mbind result_bind]. specialize (Hlmeta (ListMeta m) sub).
      destruct (ObjectMeta_Unmarshal lmeta _ sub); try done.
      cbn [mbind result_bind]. apply IH; lia.
    - destruct (Z.ltb_spec (int (i2 + msglen)) 0); [done|lia]. }
  destruct (_ =? 2).
  { destruct (negb _); [done|].
    pose proof (readVarint_returned 11 int dAtA 0 i1 0 ltac:(lia) ltac:(lia) ltac:(lia))
      as Hret2.
    destruct (readVarint 11 int dAtA (len dAtA) 0 i1 0) as [[msglen i2]| | |] eqn:Hrd2;
      try done.
    pose proof (readVarint_int 11 dAtA (len dAtA) 0 i1 0 msglen i2 ltac:(lia) Hrd2)
      as Hrange.
    apply readVarint_index in Hrd2. cbn [mbind result_bind].
    destruct (Z.ltb_spec msglen 0); [done|]. cbv zeta.
    destruct (int_sum i2 msglen ltac:(lia) ltac:(lia)) as [[Heq Hlt']|Hneg].
    - rewrite Heq. destruct (Z.ltb_spec (i2 + msglen) 0); [done|].
      destruct (Z.ltb_spec (len dAtA) (i2 + msglen)); [done|].
      destruct (slice_returned dAtA i2 (i2 + msglen) ltac:(lia) ltac:(lia))
        as (sub & -> & Hsub).
      cbn [mbind result_bind].
      pose proof (len_nonneg sub) as Hsub0.
      assert (Hitem : returned (RuntimeClass_Unmarshal meta (RuntimeClass_zero meta) sub)).
      { unfold RuntimeClass_Unmarshal.
        apply unmarshalLoop_returned; try done; unfold len in *; lia. }
      destruct (RuntimeClass_Unmarshal meta _ sub); try done.
      cbn [mbind result_bind]. apply IH; lia.
    - destruct (Z.ltb_spec (int (i2 + msglen)) 0); [done|lia]. }
  rewrite slice_tail by lia. cbn [mbind result_bind].
  set (rest := drop (Z.to_nat iNdEx) dAtA).
  assert (Hrest : len rest = len dAtA - iNdEx).
  { unfold rest, len. rewrite length_drop. unfold len in *. lia. }
  assert (Hg : skipped_ahead 1 (skipGenerated (2 * length rest + 2) rest)).
  { apply (skip_ahead (2 * length rest + 2)); unfold len in *; lia. }
  destruct (skipGenerated (2 * length rest + 2) rest) as [skippy| | |]; try done.
  simpl in Hg. cbn [mbind result_bind].
  destruct (Z.ltb_spec skippy 0); [done|].
  destruct (int_sum iNdEx skippy ltac:(lia) ltac:(lia)) as [[Heq Hlt']|Hneg].
  - rewrite Heq. destruct (Z.ltb_spec (iNdEx + skippy) 0); [done|].
    destruct (Z.ltb_spec (len dAtA) (iNdEx + skippy)); [done|]. apply IH; lia.
  - destruct (Z.ltb_spec (int (iNdEx + skippy)) 0); [done|lia].
Qed.

End ListReturns.

(** *** Errors on tags; items are only appended *)

(** Bytes that all announce a continuation exhaust the shift. *)
Lemma readVarint_long cont :
  forall fuel conv pre rest shift acc,
    Forall (fun b => 128 <= b) cont ->
    0 <= shift -> 64 <= shift + 7 * len cont ->
    (length cont < fuel)%nat ->
    readVarint fuel conv (pre ++ cont ++ rest) (len (pre ++ cont ++ rest))
      shift (len pre) acc
    = Err ErrIntOverflowGenerated.
Proof.
  induction cont as [|b cont IH]; intros fuel conv pre rest shift acc Hall Hs Hlong Hfuel;
    (destruct fuel as [|fuel]; [simpl in Hfuel; lia|]); rewrite readVarint_S.
  - change (len []) with 0 in Hlong. destruct (Z.leb_spec 64 shift); [done|lia].
  - apply Forall_cons in Hall as [Hb Hall]. rewrite len_cons in Hlong.
    destruct (Z.leb_spec 64 shift); [done|].
    pose proof (len_nonneg pre). pose proof (len_nonneg cont). pose proof (len_nonneg rest).
    destruct (Z.leb_spec (len (pre ++ (b :: cont) ++ rest)) (len pre)) as [Hle|_].
    { rewrite len_app, len_app, len_cons in Hle. lia. }
    assert (Hlk : (pre ++ (b :: cont) ++ rest) !! Z.to_nat (len pre) = Some b).
    { unfold len. rewrite Nat2Z.id. rewrite lookup_app_r by lia.
      by rewrite Nat.sub_diag. }
    rewrite Hlk. cbv zeta.
    destruct (Z.ltb_spec b 128); [lia|].
    replace (pre ++ (b :: cont) ++ rest) with ((pre ++ [b]) ++ cont ++ rest)
      by (by rewrite <- app_assoc).
    replace (len pre + 1) with (len (pre ++ [b]))
      by (rewrite len_app; change (len [b]) with 1; lia).
    apply IH; [done|lia|lia|simpl in Hfuel; lia].
Qed.

Section Headers.
Context (meta : ObjectMetaMethods).
Implicit Types m : RuntimeClass meta.

(** X18.  An input that opens with ten bytes that all carry the
    continuation bit is refused with [ErrIntOverflowGenerated], whatever
    follows: the tag's varint may not run past 64 bits of shift. *)
Theorem RuntimeClass_Unmarshal_overflow m cont rest :
  Forall (fun b => 128 <= b) cont -> len cont = 10 ->
  RuntimeClass_Unmarshal meta m (cont ++ rest) = Err ErrIntOverflowGenerated.
Proof.
  intros Hall Hlen. unfold RuntimeClass_Unmarshal. rewrite unmarshalLoop_S. cbv zeta.
  pose proof (len_nonneg rest).
  destruct (Z.ltb_spec 0 (len (cont ++ rest))) as [_|Hle];
    [|rewrite len_app in Hle; lia].
  assert (Hfuel : (length cont < 11)%nat) by (unfold len in Hlen; lia).
  pose proof (readVarint_long cont 11 uint64 [] rest 0 0 Hall ltac:(lia) ltac:(lia)
                Hfuel) as Hrd.
  change ([] ++ cont ++ rest) with (cont ++ rest) in Hrd.
  change (len (@nil Z)) with 0 in Hrd. by rewrite Hrd.
Qed.

(** X19.  The errors [Unmarshal] answers on a one-byte tag, whatever
    follows it: wire type 4 is "end group for non-group"; field number 0
    is the illegal tag; field 1 and field 2 with a wire type other than 2
    are the wrong wire type for ObjectMeta and for Handler, the error
    carrying the wire type found. *)
Theorem RuntimeClass_Unmarshal_tag m tag rest :
  0 <= tag < 128 ->
  (Z.land tag 7 = 4 ->
   RuntimeClass_Unmarshal meta m (tag :: rest) = Err ErrEndGroupForNonGroup)
  /\ (tag < 8 -> tag <> 4 ->
      RuntimeClass_Unmarshal meta m (tag :: rest) = Err (ErrIllegalTag 0 tag))
  /\ (8 <= tag < 16 -> tag <> 10 -> tag <> 12 ->
      RuntimeClass_Unmarshal meta m (tag :: rest)
      = Err (ErrWrongWireType (tag - 8) "ObjectMeta"))
  /\ (16 <= tag < 24 -> tag <> 18 -> tag <> 20 ->
      RuntimeClass_Unmarshal meta m (tag :: rest)
      = Err (ErrWrongWireType (tag - 16) "Handler")).
Proof.
  intros Htag.
  assert (Hland : Z.land tag 7 = tag mod 8)
    by (change 7 with (Z.ones 3); rewrite Z.land_ones by lia; reflexivity).
  assert (Hshift : Z.shiftr tag 3 = tag / 8)
    by (rewrite Z.shiftr_div_pow2 by lia; reflexivity).
  pose proof (Z.div_mod tag 8 ltac:(lia)) as Hdm.
  pose proof (Z.mod_pos_bound tag 8 ltac:(lia)) as Hmod.
  assert (Hq : 0 <= tag / 8 < 16)
    by (split; [apply Z.div_pos; lia|apply Z.div_lt_upper_bound; lia]).
  assert (Hi32 : int32 (tag / 8) = tag / 8).
  { unfold int32. rewrite Z.mod_small by lia. lia. }
  pose proof (len_nonneg rest) as Hrest.
  unfold RuntimeClass_Unmarshal. rewrite unmarshalLoop_S. cbv zeta.
  destruct (Z.ltb_spec 0 (len (tag :: rest))) as [_|Hle];
    [|rewrite len_cons in Hle; lia].
  rewrite (read_tag uint64 (tag :: rest) [] tag rest 0)
    by (done || apply keepsSmall_uint64 || lia).
  cbn [mbind result_bind].
  rewrite Hland, Hshift, (int_small (tag mod 8)), Hi32 by lia.
  repeat split.
  - intros H4. by rewrite H4.
  - intros Hlt Hne. replace (tag / 8) with 0 by (symmetry; apply Z.div_small; lia).
    rewrite Z.mod_small by lia.
    destruct (Z.eqb_spec tag 4); [lia|]. done.
  - intros Hr H10 H12.
    replace (tag / 8) with 1 by (apply (Z.div_unique tag 8 1 (tag - 8)); lia).
    replace (tag mod 8) with (tag - 8) by (apply (Z.mod_unique tag 8 1); lia).
    destruct (Z.eqb_spec (tag - 8) 4); [lia|].
    change (1 <=? 0) with false. change (1 =? 1) with true. cbv iota.
    destruct (Z.eqb_spec (tag - 8) 2); [lia|]. done.
  - intros Hr H18 H20.
    replace (tag / 8) with 2 by (apply (Z.div_unique tag 8 2 (tag - 16)); lia).
    replace (tag mod 8) with (tag - 16) by (apply (Z.mod_unique tag 8 2); lia).
    destruct (Z.eqb_spec (tag - 16) 4); [lia|].
    change (2 <=? 0) with false. change (2 =? 1) with false. change (2 =? 2) with true.
    cbv iota.
    destruct (Z.eqb_spec (tag - 16) 2); [lia|]. done.
Qed.

End Headers.

Section ListAppend.
Context (meta lmeta : ObjectMetaMethods).
Implicit Types m : RuntimeClassList meta lmeta.

(** The loop never drops or reorders an item the receiver holds. *)
Lemma listUnmarshalLoop_prefix fuel :
  forall dAtA m iNdEx m',
    listUnmarshalLoop meta lmeta fuel dAtA m iNdEx = Ok m' ->
    Items m `prefix_of` Items m'.
Proof.
  induction fuel as [|fuel IH]; intros dAtA m iNdEx m'; [done|].
  cbn [listUnmarshalLoop]. cbv zeta.
  destruct (iNdEx <? len dAtA).
  2:{ destruct (len dAtA <? iNdEx); [done|]. by intros [= <-]. }
  destruct (readVarint 11 uint64 dAtA (len dAtA) 0 iNdEx 0) as [[wire i1]| | |]; try done.
  cbn [mbind result_bind].
  destruct (_ =? 4); [done|]. destruct (_ <=? 0); [done|].
  destruct (_ =? 1).
  { destruct (negb _); [done|].
    destruct (readVarint 11 int dAtA (len dAtA) 0 i1 0) as [[msglen i2]| | |]; try done.
    cbn [mbind result_bind].
    destruct (msglen <? 0); [done|]. destruct (int (i2 + msglen) <? 0); [done|].
    destruct (len dAtA <? int (i2 + msglen)); [done|].
    destruct (slice dAtA i2 (int (i2 + msglen))) as [sub| | |]; try done.
    cbn [mbind result_bind].
    destruct (ObjectMeta_Unmarshal lmeta _ sub) as [om| | |]; try done.
    cbn [mbind result_bind]. intros Hr. by apply IH in Hr. }
  destruct (_ =? 2).
  { destruct (negb _); [done|].
    destruct (readVarint 11 int dAtA (len dAtA) 0 i1 0) as [[msglen i2]| | |]; try done.
    cbn [mbind result_bind].
    destruct (msglen <? 0); [done|]. destruct (int (i2 + msglen) <? 0); [done|].
    destruct (len dAtA <? int (i2 + msglen)); [done|].
    destruct (slice dAtA i2 (int (i2 + msglen))) as [sub| | |]; try done.
    cbn [mbind result_bind].
    destruct (RuntimeClass_Unmarshal meta _ sub) as [item| | |]; try done.
    cbn [mbind result_bind]. intros Hr. apply IH in Hr. cbn [Items] in Hr.
    etrans; [|exact Hr]. by apply prefix_app_r. }
  destruct (slice dAtA iNdEx (len dAtA)) as [rest| | |]; try done.
  cbn [mbind result_bind].
  destruct (skipGenerated (2 * length rest + 2) rest) as [skippy| | |]; try done.
  cbn [mbind result_bind].
  destruct (skippy <? 0); [done|]. destruct (int (iNdEx + skippy) <? 0); [done|].
  destruct (len dAtA <? int (iNdEx + skippy)); [done|]. apply IH.
Qed.

End ListAppend.

(** *** Truncated fields the message does not know *)

(** A varint whose last bytes are missing, under [skipGenerated]. *)
Lemma skipVarint_cut n :
  forall fuel v shift pre k,
    0 <= v < 2 ^ (7 * Z.of_nat (S n)) ->
    0 <= shift -> shift + 7 * Z.of_nat n < 64 ->
    (k < length (varintBytes (S n) v))%nat ->
    (n < fuel)%nat ->
    skipVarint fuel (pre ++ take k (varintBytes (S n) v))
      (len (pre ++ take k (varintBytes (S n) v))) shift (len pre)
    = Err ErrUnexpectedEOF.
Proof.
  induction n as [|n IH]; intros fuel v shift pre k Hv Hs0 Hshift Hk Hfuel;
    (destruct fuel as [|fuel]; [lia|]); rewrite skipVarint_S;
    rewrite (varintBytes_S _ v) in *;
    (destruct (Z.leb_spec 64 shift); [lia|]).
  - change (2 ^ (7 * Z.of_nat 1)) with 128 in Hv.
    destruct (Z.leb_spec 128 v); [lia|]. simpl in Hk.
    assert (k = 0)%nat as -> by lia. rewrite take_0, app_nil_r.
    by rewrite Z.leb_refl.
  - destruct (Z.leb_spec 128 v) as [Hge|Hlt].
    + destruct k as [|k].
      { rewrite take_0, app_nil_r. by rewrite Z.leb_refl. }
      rewrite firstn_cons. rewrite length_cons in Hk.
      assert (0 <= v) as Hv0 by (clear -Hge; lia).
      rewrite low7_plus_flag by done.
      pose proof (Z.mod_pos_bound v 128 ltac:(lia)) as Hmod.
      set (b := v mod 128 + 128) in *.
      set (tl := take k (varintBytes (S n) (Z.shiftr v 7))).
      pose proof (len_nonneg pre). pose proof (len_nonneg tl).
      destruct (Z.leb_spec (len (pre ++ b :: tl)) (len pre)) as [Hle|_].
      { rewrite len_app, len_cons in Hle. lia. }
      cbv zeta. replace (len pre + 1 - 1) with (len pre) by lia.
      replace (Z.to_nat (len pre)) with (length pre) by (unfold len; lia).
      rewrite lookup_app_r, Nat.sub_diag by lia. cbn [lookup list_lookup].
      destruct (Z.ltb_spec b 128); [lia|].
      replace (pre ++ b :: tl) with ((pre ++ [b]) ++ tl) by (by rewrite <- app_assoc).
      replace (len pre + 1) with (len (pre ++ [b]))
        by (rewrite len_app; change (len [b]) with 1; lia).
      apply IH; [by apply shiftr7_bound|lia|lia|lia|lia].
    + simpl in Hk. assert (k = 0)%nat as -> by lia. rewrite take_0, app_nil_r.
      by rewrite Z.leb_refl.
Qed.

(** What [skipGenerated] answers on a field of a plain wire type that is
    cut short after its tag: the end of the input, or a count that runs
    past the bytes there are. *)
Lemma skipGenerated_cut fieldNum u j fuel :
  0 <= fieldNum < 2 ^ 60 -> unknownOk u ->
  len (unknownField fieldNum u) + 8 < 2 ^ 63 ->
  (j < length (unknownField fieldNum u)
       - length (varintBytes 10 (fieldNum * 8 + wireTypeOf u)))%nat ->
  (1 <= fuel)%nat ->
  let W := take (length (varintBytes 10 (fieldNum * 8 + wireTypeOf u)) + j)
             (unknownField fieldNum u) in
  skipGenerated fuel W = Err ErrUnexpectedEOF
  \/ exists n, skipGenerated fuel W = Ok n /\ len W < n < 2 ^ 63.
Proof.
  intros Hf Hu Hfit Hj Hfuel. destruct fuel as [|fuel]; [lia|].
  pose proof (wireTypeOf_range u) as Hwt.
  pose proof (unknownField_len fieldNum u Hf Hu) as Hlen.
  set (tag := fieldNum * 8 + wireTypeOf u) in *.
  assert (Htag : 0 <= tag < 2 ^ 63) by (unfold tag; lia).
  pose proof (sovGenerated_nonneg tag ltac:(lia)) as Hsov.
  set (T := varintBytes 10 tag) in *.
  assert (HT : len T = sovGenerated tag) by (apply sovGenerated_len; lia).
  set (body := match u with
               | UVarint v => varintBytes 10 v
               | UFixed64 b => b
               | UBytes payload => varintBytes 10 (len payload) ++ payload
               | UFixed32 b => b
               end).
  assert (HU : unknownField fieldNum u = T ++ body) by done.
  rewrite HU, length_app in Hj. rewrite HU in Hlen, Hfit.
  cbv zeta. rewrite HU, take_app_ge by lia.
  replace (length T + j - length T)%nat with j by lia.
  set (cut := take j body).
  assert (Hcut : len cut = Z.of_nat j).
  { unfold cut, len. rewrite length_take. lia. }
  rewrite len_app in Hlen, Hfit.
  assert (HWlen : len (T ++ cut) = sovGenerated tag + Z.of_nat j)
    by (rewrite len_app; lia).
  rewrite skipGenerated_S. cbv zeta. rewrite HWlen.
  destruct (Z.ltb_spec 0 (sovGenerated tag + Z.of_nat j)); [|lia].
  rewrite <- HWlen.
  rewrite (read_length uint64 (T ++ cut) [] tag cut 0 keepsSmall_uint64 Htag eq_refl
             eq_refl).
  cbn [mbind result_bind]. rewrite Z.add_0_l.
  destruct (tag_parts fieldNum (wireTypeOf u) ltac:(lia) Hwt) as [Hland _].
  fold tag in Hland. rewrite Hland. rewrite (int_small (wireTypeOf u)) by lia.
  rewrite <- HT.
  assert (Hjb : Z.of_nat j < len body) by (unfold len; lia).
  destruct u as [v|b|p|b]; cbn [unknownOk wireTypeOf] in Hu, Hlen |- *;
    unfold body, cut in *; cbn [Z.eqb Pos.eqb].
  - left.
    apply (skipVarint_cut 9 11 v 0 T j); [by apply uint64_bound_70|lia|lia|lia|lia].
  - right. eexists. split; [done|]. rewrite HWlen, int_small; lia.
  - change (take j _) with (take j (varintBytes 10 (len p) ++ p)).
    change (Z.of_nat j < len (varintBytes 10 (len p) ++ p)) in Hjb.
    destruct (Nat.lt_ge_cases j (length (varintBytes 10 (len p)))) as [Hin|Hout].
    + left. rewrite take_app_le by lia.
      pose proof (len_nonneg p).
      rewrite (readVarint_cut int 9 11 (len p) 0 0 T j);
        [done|apply uint64_bound_70; lia|lia|lia|done|lia].
    + right. rewrite take_app_ge by lia.
      pose proof (len_nonneg p) as Hp.
      pose proof (sovGenerated_nonneg (len p) Hp) as Hsovp.
      assert (Hvs : len (varintBytes 10 (len p)) = sovGenerated (len p))
        by (apply sovGenerated_len; lia).
      rewrite length_app in Hj. rewrite len_app in Hfit.
      set (j' := (j - length (varintBytes 10 (len p)))%nat) in *.
      assert (HD : T ++ varintBytes 10 (len p) ++ take j' p
                   = T ++ varintBytes 10 (len p) ++ take j' p) by done.
      rewrite (read_length int _ T (len p) (take j' p) (len T) keepsSmall_int
                 ltac:(lia) HD eq_refl).
      cbn [mbind result_bind].
      destruct (Z.ltb_spec (len p) 0); [lia|]. cbv zeta.
      rewrite int_small by lia.
      destruct (Z.ltb_spec (len T + sovGenerated (len p) + len p) 0); [lia|].
      eexists. split; [done|].
      assert (Hc : len (take j' p) < len p).
      { rewrite len_app in Hjb. unfold len in *. rewrite length_take. lia. }
      rewrite !len_app, Hvs. lia.
  - right. eexists. split; [done|]. rewrite HWlen, int_small; lia.
Qed.

Section TruncatedUnknown.
Context (meta : ObjectMetaMethods).
Implicit Types m : RuntimeClass meta.

(** X21.  A field that the message does not know (number 3 and up, wire
    type 0, 1, 2 or 5) and that is cut short anywhere, in its tag, its
    length or its value, makes [Unmarshal] answer [io.ErrUnexpectedEOF]:
    the count [skipGenerated] answers is checked against the bytes there
    are. *)
Theorem RuntimeClass_Unmarshal_cut_unknown m fieldNum u k :
  3 <= fieldNum < 2 ^ 29 -> unknownOk u ->
  len (unknownField fieldNum u) + 8 < 2 ^ 63 ->
  (0 < k < length (unknownField fieldNum u))%nat ->
  RuntimeClass_Unmarshal meta m (take k (unknownField fieldNum u))
  = Err ErrUnexpectedEOF.
Proof.
  intros Hf Hu Hfit Hk.
  pose proof (wireTypeOf_range u) as Hwt.
  set (tag := fieldNum * 8 + wireTypeOf u).
  assert (Htag : 0 <= tag < 2 ^ 63) by (unfold tag; lia).
  set (T := varintBytes 10 tag).
  assert (HT : len T = sovGenerated tag) by (apply sovGenerated_len; lia).
  pose proof (sovGenerated_nonneg tag ltac:(lia)) as Hsov.
  assert (HU : exists body, unknownField fieldNum u = T ++ body)
    by (unfold unknownField; by eexists).
  destruct HU as (body & HU).
  unfold RuntimeClass_Unmarshal. rewrite unmarshalLoop_step.
  set (W := take k (unknownField fieldNum u)).
  assert (HkW : length W = k) by (unfold W; rewrite length_take; lia).
  destruct (Z.ltb_spec 0 (len W)); [|unfold len in *; lia].
  assert (Hstep : unmarshalStep meta W m 0 = Err ErrUnexpectedEOF); [|by rewrite Hstep].
  unfold unmarshalStep. cbv zeta.
  destruct (Nat.lt_ge_cases k (length T)) as [Hin|Hout].
  - (* the tag is cut *)
    assert (HW : W = [] ++ take k (varintBytes 10 tag))
      by (unfold W; rewrite HU, take_app_le by lia; done).
    rewrite HW.
    pose proof (readVarint_cut uint64 9 11 tag 0 0 [] k ltac:(apply uint64_bound_70; lia)
                  ltac:(lia) ltac:(lia) Hin ltac:(lia)) as Hrd.
    change (len (@nil Z)) with 0 in Hrd. by rewrite Hrd.
  - (* the value is cut *)
    set (j := (k - length T)%nat).
    assert (Hkj : k = (length T + j)%nat) by (unfold j; lia).
    assert (HW : W = T ++ take j body).
    { unfold W. rewrite HU, take_app_ge by lia. done. }
    assert (Hjb : (j < length (unknownField fieldNum u) - length T)%nat) by lia.
    pose proof (skipGenerated_cut fieldNum u j (2 * length W + 2) ltac:(lia) Hu Hfit
                  Hjb ltac:(lia)) as Hskip.
    cbv zeta in Hskip. fold tag T in Hskip. rewrite <- Hkj in Hskip. fold W in Hskip.
    rewrite (read_length uint64 W [] tag (take j body) 0 keepsSmall_uint64 Htag HW
               eq_refl).
    cbn [mbind result_bind].
    destruct (tag_parts fieldNum (wireTypeOf u) ltac:(lia) Hwt) as [Hland Hshr].
    fold tag in Hland, Hshr. rewrite Hland, Hshr.
    rewrite (int_small (wireTypeOf u)) by lia.
    assert (int32 fieldNum = fieldNum) as ->.
    { unfold int32. rewrite Z.mod_small; lia. }
    destruct (Z.eqb_spec (wireTypeOf u) 4) as [H4|_]; [destruct u; discriminate|].
    destruct (Z.leb_spec fieldNum 0); [lia|].
    destruct (Z.eqb_spec fieldNum 1); [lia|].
    destruct (Z.eqb_spec fieldNum 2); [lia|].
    rewrite slice_tail by lia. cbn [mbind result_bind].
    change (Z.to_nat 0) with 0%nat. rewrite drop_0.
    destruct Hskip as [->|(n' & -> & Hn')]; [done|].
    cbn [mbind result_bind].
    destruct (Z.ltb_spec n' 0); [lia|].
    rewrite Z.add_0_l, int_small by lia.
    destruct (Z.ltb_spec n' 0); [lia|].
    destruct (Z.ltb_spec (len W) n'); [done|lia].
Qed.

End TruncatedUnknown.

(** *** The operations as their callers use them *)

(** The stand-in sub-message marshals into its own bytes and its
    [Unmarshal] always returns. *)
Lemma rawMeta_marshals (om buf : list Z) :
  len om <= len buf ->
  ObjectMeta_LahsramOt rawMeta om buf
  = Ok (take (length buf - length om) buf ++ om, len om).
Proof.
  intros Hbuf. simpl. destruct (Z.leb_spec (len om) (len buf)); [done|lia].
Qed.

Lemma rawMeta_subMarshals (m : RuntimeClass rawMeta) :
  subMarshals m (RuntimeClass_ObjectMeta m).
Proof. split; [done|]. intros buf. apply rawMeta_marshals. Qed.

Lemma rawMeta_metaMarshals (om : list Z) : metaMarshals rawMeta om om.
Proof. split; [done|]. intros buf. apply rawMeta_marshals. Qed.

Lemma rawMeta_returns : metaReturns rawMeta.
Proof. intros om sub. exact I. Qed.

(** X1.  [encodeVarintGenerated] writes the varint of [v] into the
    [sovGenerated v] bytes that end at [offset], leaves every byte before
    and after them as it was, and answers the index of the first byte
    written; the varint loop of [Unmarshal], started at that index, reads
    [v] back and stops right after the bytes written. *)
Theorem encodeVarintGenerated_readVarint v pre mid post :
  0 <= v < 2 ^ 64 -> len mid = sovGenerated v ->
  exists enc,
    len enc = sovGenerated v
    /\ encodeVarintGenerated (pre ++ mid ++ post) (len pre + len mid) v
       = Ok (pre ++ enc ++ post, len pre)
    /\ readVarint 11 uint64 (pre ++ enc ++ post) (len (pre ++ enc ++ post)) 0 (len pre) 0
       = Ok (v, len pre + sovGenerated v).
Proof.
  intros Hv Hmid. exists (varintBytes 10 v).
  split; [by apply sovGenerated_len|]. split; [by apply encodeVarintGenerated_spec|].
  rewrite (readVarint_uint64_varintBytes 9 11 v 0 0 _ (len pre) post).
  - rewrite sovGenerated_len by done. change (2 ^ 0) with 1.
    by rewrite Z.add_0_l, Z.mul_1_r.
  - by apply uint64_bound_70.
  - lia.
  - change (2 ^ 0) with 1. lia.
  - change (2 ^ 0) with 1. lia.
  - apply len_nonneg.
  - apply drop_len_app.
  - lia.
Qed.

Lemma encodeVarintGenerated_readVarint_witness :
  exists enc,
    len enc = sovGenerated 300
    /\ encodeVarintGenerated ([9] ++ [0; 0] ++ [7]) (len [9] + len [0; 0]) 300
       = Ok ([9] ++ enc ++ [7], len [9])
    /\ readVarint 11 uint64 ([9] ++ enc ++ [7]) (len ([9] ++ enc ++ [7])) 0 (len [9]) 0
       = Ok (300, len [9] + sovGenerated 300).
Proof.
  apply (encodeVarintGenerated_readVarint 300 [9] [0; 0] [7]); [lia|reflexivity].
Defined.

(** X2.  [encodeVarintGenerated] panics (index out of range) when fewer
    than [sovGenerated v] bytes lie before [offset], or when [offset] lies
    beyond the end of the buffer. *)
Theorem encodeVarintGenerated_no_room dAtA offset v :
  0 <= v < 2 ^ 64 -> offset < sovGenerated v \/ len dAtA < offset ->
  encodeVarintGenerated dAtA offset v = Panic.
Proof.
  intros Hv Hroom. unfold encodeVarintGenerated. cbv zeta.
  rewrite (encodeVarintLoop_Panic 9); [done|by apply uint64_bound_70|].
  rewrite sovGenerated_len by done. lia.
Qed.

Lemma encodeVarintGenerated_no_room_witness :
  encodeVarintGenerated [0] 1 300 = Panic.
Proof.
  apply (encodeVarintGenerated_no_room [0] 1 300); [lia|].
  left. vm_compute. reflexivity.
Defined.

Lemma sovGenerated_digits_witness :
  1 <= sovGenerated 300 <= 10
  /\ 300 < 2 ^ (7 * sovGenerated 300)
  /\ (1 < sovGenerated 300 -> 2 ^ (7 * (sovGenerated 300 - 1)) <= 300).
Proof. apply (sovGenerated_digits 300). lia. Defined.

Lemma sozGenerated_zigzag_witness :
  sozGenerated (uint64 (-70))
  = sovGenerated (if -70 <? 0 then - 2 * -70 - 1 else 2 * -70).
Proof. apply (sozGenerated_zigzag (-70)). lia. Defined.

(** X5.  On a non-empty buffer [skipGenerated] returns: either an error,
    or a count of at least one byte that fits an [int]; it does not panic
    and its loops end.  On the empty buffer it reaches
    [panic("unreachable")]. *)
Theorem skipGenerated_progress fuel dAtA :
  len dAtA + 8 < 2 ^ 63 -> (1 <= fuel)%nat -> 2 * len dAtA <= Z.of_nat fuel ->
  match dAtA with
  | [] => skipGenerated fuel dAtA = Panic
  | _ :: _ => skipped_ahead 1 (skipGenerated fuel dAtA)
  end.
Proof.
  intros Hfit Hfuel Hbudget. destruct dAtA as [|b dAtA].
  - destruct fuel as [|fuel]; [lia|]. reflexivity.
  - apply (proj1 (skip_ahead fuel)); [|done|done].
    rewrite len_cons. pose proof (len_nonneg dAtA). lia.
Qed.

Lemma skipGenerated_progress_witness :
  skipped_ahead 1 (skipGenerated 6 [8; 255; 255]).
Proof.
  apply (skipGenerated_progress 6 [8; 255; 255]);
    [vm_compute; reflexivity|lia|vm_compute; discriminate].
Defined.

(** X6.  On a buffer that opens with a well-formed field, [skipGenerated]
    answers the length of that field, whatever follows it: the tag and a
    varint, eight bytes, a length with its payload, or four bytes; and for
    a group, the start tag, the fields inside it (groups among them, to
    any depth) and the end-group tag. *)
Theorem skipGenerated_field w fuel rest :
  wireOk w -> (length (wireBytes w) <= fuel)%nat ->
  len (wireBytes w ++ rest) + 8 < 2 ^ 63 ->
  skipGenerated fuel (wireBytes w ++ rest) = Ok (len (wireBytes w)).
Proof. intros Hok. by apply skipGenerated_wire. Qed.

Lemma skipGenerated_field_witness :
  skipGenerated 12
    (wireBytes (WGroup 4 [WPlain 1 (UBytes [1; 2]); WGroup 2 [WPlain 7 (UVarint 300)] 2] 4)
       ++ [9; 9])
  = Ok (len (wireBytes
               (WGroup 4 [WPlain 1 (UBytes [1; 2]); WGroup 2 [WPlain 7 (UVarint 300)] 2]
                  4))).
Proof.
  apply (skipGenerated_field
           (WGroup 4 [WPlain 1 (UBytes [1; 2]); WGroup 2 [WPlain 7 (UVarint 300)] 2] 4)
           12 [9; 9]).
  - cbn [wireOk unknownOk]. change (len [1; 2]) with 2. lia.
  - vm_compute. lia.
  - vm_compute. reflexivity.
Defined.

Section Finals.
Context (meta : ObjectMetaMethods).
Implicit Types m : RuntimeClass meta.

(** X7.  [Unmarshal] returns on every input: whatever the bytes, it
    answers a message or an error, without a panic (no index or slice out
    of range) and within as many iterations as the input has bytes,
    provided the ObjectMeta's own [Unmarshal] returns. *)
Theorem RuntimeClass_Unmarshal_returns m dAtA :
  metaReturns meta -> len dAtA + 8 < 2 ^ 63 ->
  returned (RuntimeClass_Unmarshal meta m dAtA).
Proof.
  intros Hmeta Hfit. unfold RuntimeClass_Unmarshal.
  pose proof (len_nonneg dAtA).
  apply unmarshalLoop_returned; try done; unfold len in *; lia.
Qed.

(** X8.  [Unmarshal] of two inputs one after the other: when the first
    input alone is accepted with the message [m'], the concatenation is
    accepted exactly as the second input is from [m'], and an error on the
    second input from [m'] is an error on the concatenation. *)
Theorem RuntimeClass_Unmarshal_concat m a b m' :
  metaReturns meta -> len (a ++ b) + 8 < 2 ^ 63 ->
  RuntimeClass_Unmarshal meta m a = Ok m' ->
  (forall m'', RuntimeClass_Unmarshal meta m' b = Ok m'' ->
               RuntimeClass_Unmarshal meta m (a ++ b) = Ok m'')
  /\ (forall e, RuntimeClass_Unmarshal meta m' b = Err e ->
                failed (RuntimeClass_Unmarshal meta m (a ++ b))).
Proof.
  intros Hmeta Hfit Ha. split.
  - intros m'' Hb. by apply (RuntimeClass_Unmarshal_app meta m a b m' m'').
  - intros e Hb. by apply (RuntimeClass_Unmarshal_app_Err meta m a b m' e).
Qed.

(** X11.  [XXX_Marshal] into a buffer whose capacity has room for [Size]
    bytes returns the same bytes as [Marshal]; [MarshalTo] writes them at
    the front of the buffer, leaves the bytes after them as they were and
    reports [Size].  With a capacity below [Size], [XXX_Marshal] panics on
    the slice [dAtA[:size]]. *)
Theorem RuntimeClass_XXX_Marshal_room m sub b deterministic :
  subMarshals m sub -> wireSize m < 2 ^ 63 ->
  (wireSize m <= len b ->
   RuntimeClass_XXX_Marshal meta m b deterministic = RuntimeClass_Marshal meta m
   /\ RuntimeClass_MarshalTo meta m b
      = Ok (wireImage sub (Handler m) ++ drop (Z.to_nat (wireSize m)) b,
            RuntimeClass_Size meta m))
  /\ (len b < wireSize m ->
      RuntimeClass_XXX_Marshal meta m b deterministic = Panic).
Proof.
  intros Hsub Hfit. split.
  - intros Hroom. split.
    + rewrite (RuntimeClass_XXX_Marshal_image meta m sub) by done.
      symmetry. by apply RuntimeClass_Marshal_image.
    + rewrite (RuntimeClass_Size_wireSize meta m sub) by done.
      by apply RuntimeClass_MarshalTo_image.
  - intros Hshort. unfold RuntimeClass_XXX_Marshal.
    by rewrite (RuntimeClass_MarshalTo_short meta m sub b Hsub Hfit Hshort).
Qed.

(** X12.  [LahsramOt] fills its buffer from the end: given a buffer with
    at least [Size] bytes, it writes the message into the last [Size]
    bytes, leaves every byte before them as it was, and reports [Size]. *)
Theorem RuntimeClass_LahsramOt_frame m sub P dAtA :
  subMarshals m sub -> wireSize m < 2 ^ 63 ->
  len dAtA = wireSize m -> len (P ++ dAtA) < 2 ^ 63 ->
  RuntimeClass_LahsramOt meta m (P ++ dAtA)
  = Ok (P ++ wireImage sub (Handler m), RuntimeClass_Size meta m).
Proof.
  intros Hsub Hfit Hlen Htot.
  rewrite (RuntimeClass_Size_wireSize meta m sub) by done.
  by apply RuntimeClass_LahsramOt_tail.
Qed.

End Finals.

Lemma RuntimeClass_Unmarshal_returns_witness :
  returned (RuntimeClass_Unmarshal rawMeta runcClass [18; 200; 1; 7]).
Proof.
  apply (RuntimeClass_Unmarshal_returns rawMeta runcClass [18; 200; 1; 7]);
    [exact rawMeta_returns|vm_compute; reflexivity].
Defined.

Lemma RuntimeClass_Unmarshal_concat_witness :
  RuntimeClass_Unmarshal rawMeta runcClass ([10; 1; 5] ++ [18; 1; 120])
  = Ok (mkRuntimeClass (meta := rawMeta) [5] [120]).
Proof.
  apply (proj1 (RuntimeClass_Unmarshal_concat rawMeta runcClass [10; 1; 5] [18; 1; 120]
                  (mkRuntimeClass (meta := rawMeta) [5] [114; 117; 110; 99])
                  rawMeta_returns ltac:(vm_compute; reflexivity) ltac:(reflexivity)));
    reflexivity.
Defined.

Lemma RuntimeClass_Unmarshal_stream_witness :
  RuntimeClass_Unmarshal rawMeta runcClass
    (streamBytes [FHandler [120]; FUnknown (WPlain 3 (UVarint 300)); FObjectMeta [5];
                  FUnknown (WGroup 4 [WPlain 1 (UBytes [1; 2])] 4); FHandler [121]])
  = Ok (mkRuntimeClass (meta := rawMeta) [5] [121]).
Proof.
  apply (RuntimeClass_Unmarshal_stream rawMeta
           [FHandler [120]; FUnknown (WPlain 3 (UVarint 300)); FObjectMeta [5];
            FUnknown (WGroup 4 [WPlain 1 (UBytes [1; 2])] 4); FHandler [121]]
           runcClass).
  - exact rawMeta_returns.
  - repeat constructor; cbn [wireNum wireOk unknownOk];
      try change (len [1; 2]) with 2; lia.
  - vm_compute. reflexivity.
  - reflexivity.
Defined.

Lemma RuntimeClass_Unmarshal_cut_witness :
  RuntimeClass_Unmarshal rawMeta runcClass
    (take 3 (18 :: varintBytes 10 (len [1; 2; 3]) ++ [1; 2; 3]))
  = Err ErrUnexpectedEOF.
Proof.
  apply (RuntimeClass_Unmarshal_cut rawMeta runcClass 18 [1; 2; 3] 3);
    [by right|vm_compute; reflexivity|simpl; lia].
Defined.

Lemma RuntimeClass_Unmarshal_cut_unknown_witness :
  RuntimeClass_Unmarshal rawMeta runcClass
    (take 4 (unknownField 3 (UFixed64 [1; 2; 3; 4; 5; 6; 7; 8])))
  = Err ErrUnexpectedEOF.
Proof.
  apply (RuntimeClass_Unmarshal_cut_unknown rawMeta runcClass 3
           (UFixed64 [1; 2; 3; 4; 5; 6; 7; 8]) 4);
    [lia|reflexivity|vm_compute; reflexivity|vm_compute; lia].
Defined.

Lemma RuntimeClass_XXX_Marshal_room_witness :
  RuntimeClass_XXX_Marshal rawMeta runcClass (replicate 12 0) false
  = RuntimeClass_Marshal rawMeta runcClass
  /\ RuntimeClass_MarshalTo rawMeta runcClass (replicate 12 0)
     = Ok (wireImage [1; 2; 3] (Handler runcClass)
             ++ drop (Z.to_nat (wireSize runcClass)) (replicate 12 0),
           RuntimeClass_Size rawMeta runcClass).
Proof.
  apply (proj1 (RuntimeClass_XXX_Marshal_room rawMeta runcClass [1; 2; 3]
                  (replicate 12 0) false (rawMeta_subMarshals runcClass)
                  ltac:(vm_compute; reflexivity))).
  vm_compute. discriminate.
Defined.

Lemma RuntimeClass_LahsramOt_frame_witness :
  RuntimeClass_LahsramOt rawMeta runcClass ([8; 8] ++ replicate 11 0)
  = Ok ([8; 8] ++ wireImage [1; 2; 3] (Handler runcClass),
        RuntimeClass_Size rawMeta runcClass).
Proof.
  apply (RuntimeClass_LahsramOt_frame rawMeta runcClass [1; 2; 3] [8; 8] (replicate 11 0)
           (rawMeta_subMarshals runcClass));
    vm_compute; reflexivity.
Defined.

Lemma RuntimeClass_Unmarshal_overflow_witness :
  RuntimeClass_Unmarshal rawMeta runcClass (replicate 10 128 ++ [1])
  = Err ErrIntOverflowGenerated.
Proof.
  apply (RuntimeClass_Unmarshal_overflow rawMeta runcClass (replicate 10 128) [1]);
    [repeat constructor; lia|reflexivity].
Defined.

Lemma RuntimeClass_Unmarshal_tag_witness :
  RuntimeClass_Unmarshal rawMeta runcClass [17; 1] = Err (ErrWrongWireType (17 - 16) "Handler").
Proof.
  apply (proj2 (proj2 (proj2 (RuntimeClass_Unmarshal_tag rawMeta runcClass 17 [1]
                                ltac:(lia))))); lia.
Defined.

Section ListFinals.
Context (meta lmeta : ObjectMetaMethods).
Implicit Types m : RuntimeClassList meta lmeta.

(** X13.  [RuntimeClassList.Marshal] lays the list out as field 1 with the
    bytes of the ListMeta, followed by one field 2 per item in the order
    of [Items], each with the length and the bytes of the item's own
    wire image; [Size] is the length of that layout. *)
Theorem RuntimeClassList_Marshal_layout m lsub Ws :
  metaMarshals lmeta (ListMeta m) lsub ->
  Forall2 marshalsTo (Items m) Ws ->
  len (listImage lsub Ws) < 2 ^ 63 ->
  RuntimeClassList_Marshal meta lmeta m = Ok (listImage lsub Ws)
  /\ RuntimeClassList_Size meta lmeta m = len (listImage lsub Ws).
Proof.
  intros Hsub Hall Hfit. split.
  - by apply RuntimeClassList_Marshal_image.
  - by apply RuntimeClassList_Size_image.
Qed.

(** X14.  [RuntimeClassList.Unmarshal] merges into its receiver: on the
    wire image of a list it hands the ListMeta bytes to the ListMeta's own
    [Unmarshal] on the receiver's ListMeta, and appends the decoded items,
    in wire order, after the items the receiver already holds; each item
    is decoded from the zero value. *)
Theorem RuntimeClassList_Unmarshal_appends m0 lsub Ws lom' classes :
  len (listImage lsub Ws) < 2 ^ 63 ->
  ObjectMeta_Unmarshal lmeta (ListMeta m0) lsub = Ok lom' ->
  Forall2 (itemUnmarshals meta) Ws classes ->
  RuntimeClassList_Unmarshal meta lmeta m0 (listImage lsub Ws)
  = Ok (mkRuntimeClassList lom' (Items m0 ++ classes)).
Proof.
  intros Hfit Hunm Hall. unfold RuntimeClassList_Unmarshal.
  apply listUnmarshalLoop_image; try done. apply listImage_budget.
Qed.

(** X15.  Round trip of a list: when the ListMeta and the ObjectMeta of
    every item marshal as their [Size] announces and unmarshal back to
    themselves, and the list fits an [int], [Marshal] returns [Size]
    bytes and [Unmarshal] of those bytes into the zero value returns the
    list, with its items in order. *)
Theorem RuntimeClassList_Marshal_Unmarshal m lsub Ws :
  metaMarshals lmeta (ListMeta m) lsub ->
  ObjectMeta_Unmarshal lmeta (ObjectMeta_zero lmeta) lsub = Ok (ListMeta m) ->
  Forall2 itemRoundTrips (Items m) Ws ->
  len (listImage lsub Ws) < 2 ^ 63 ->
  exists dAtA,
    RuntimeClassList_Marshal meta lmeta m = Ok dAtA
    /\ len dAtA = RuntimeClassList_Size meta lmeta m
    /\ RuntimeClassList_Unmarshal meta lmeta (RuntimeClassList_zero meta lmeta) dAtA
       = Ok m.
Proof.
  intros Hsub Hunm Hall Hfit.
  assert (Hmar : Forall2 marshalsTo (Items m) Ws).
  { eapply Forall2_impl; [exact Hall|]. intros e W (sub & H1 & H2 & H3 & _).
    by exists sub. }
  assert (Hback : Forall2 (itemUnmarshals meta) Ws (Items m)).
  { apply Forall2_flip. eapply Forall2_impl; [exact Hall|].
    intros e W (sub & H1 & H2 & -> & H4). unfold itemUnmarshals.
    destruct (wireSize_bounds meta e sub H1 H2) as (Hs & Hh & Himg).
    rewrite (RuntimeClass_Unmarshal_image meta (RuntimeClass_zero meta) sub (Handler e)
               (RuntimeClass_ObjectMeta e)); [by destruct e|lia|lia|lia|done]. }
  exists (listImage lsub Ws). split; [by apply RuntimeClassList_Marshal_image|].
  split; [symmetry; by apply RuntimeClassList_Size_image|].
  unfold RuntimeClassList_Unmarshal.
  rewrite (listUnmarshalLoop_image meta lmeta _ _ lsub Ws (ListMeta m) (Items m))
    by (done || apply listImage_budget).
  by destruct m.
Qed.

(** X16.  [RuntimeClassList.Unmarshal] returns on every input: it answers
    a list or an error, without a panic and within as many iterations as
    the input has bytes, provided the [Unmarshal] of the ListMeta and of
    the ObjectMeta return. *)
Theorem RuntimeClassList_Unmarshal_returns m dAtA :
  metaReturns meta -> metaReturns lmeta -> len dAtA + 8 < 2 ^ 63 ->
  returned (RuntimeClassList_Unmarshal meta lmeta m dAtA).
Proof.
  intros Hmeta Hlmeta Hfit. unfold RuntimeClassList_Unmarshal.
  pose proof (len_nonneg dAtA).
  apply listUnmarshalLoop_returned; try done; unfold len in *; lia.
Qed.

(** X17.  [RuntimeClassList.Unmarshal] only appends: whatever the input,
    when it succeeds the items the receiver held are still there, in
    their places, at the front of [Items]. *)
Theorem RuntimeClassList_Unmarshal_keeps_items m dAtA m' :
  RuntimeClassList_Unmarshal meta lmeta m dAtA = Ok m' ->
  Items m `prefix_of` Items m'.
Proof. apply listUnmarshalLoop_prefix. Qed.

End ListFinals.

Lemma runcList_marshalsTo :
  Forall2 marshalsTo (Items runcList)
    [wireImage [1; 2; 3] (Handler runcClass); wireImage [9] (Handler kataClass)].
Proof.
  repeat constructor.
  - exists [1; 2; 3]. split; [apply (rawMeta_subMarshals runcClass)|].
    split; [vm_compute|]; reflexivity.
  - exists [9]. split; [apply (rawMeta_subMarshals kataClass)|].
    split; [vm_compute|]; reflexivity.
Qed.

Lemma runcList_roundTrips :
  Forall2 itemRoundTrips (Items runcList)
    [wireImage [1; 2; 3] (Handler runcClass); wireImage [9] (Handler kataClass)].
Proof.
  repeat constructor.
  - exists [1; 2; 3]. split; [apply (rawMeta_subMarshals runcClass)|].
    split; [vm_compute; reflexivity|]. split; reflexivity.
  - exists [9]. split; [apply (rawMeta_subMarshals kataClass)|].
    split; [vm_compute; reflexivity|]. split; reflexivity.
Qed.

Lemma RuntimeClassList_Marshal_layout_witness :
  RuntimeClassList_Marshal rawMeta rawMeta runcList
  = Ok (listImage [7; 7]
          [wireImage [1; 2; 3] (Handler runcClass); wireImage [9] (Handler kataClass)])
  /\ RuntimeClassList_Size rawMeta rawMeta runcList
     = len (listImage [7; 7]
              [wireImage [1; 2; 3] (Handler runcClass);
               wireImage [9] (Handler kataClass)]).
Proof.
  apply (RuntimeClassList_Marshal_layout rawMeta rawMeta runcList [7; 7] _
           (rawMeta_metaMarshals [7; 7]) runcList_marshalsTo).
  vm_compute. reflexivity.
Defined.

Lemma RuntimeClassList_Unmarshal_appends_witness :
  RuntimeClassList_Unmarshal rawMeta rawMeta runcList
    (listImage [4] [wireImage [9] (Handler kataClass)])
  = Ok (mkRuntimeClassList (meta := rawMeta) (lmeta := rawMeta) [4]
          (Items runcList ++ [kataClass])).
Proof.
  apply (RuntimeClassList_Unmarshal_appends rawMeta rawMeta runcList [4]
           [wireImage [9] (Handler kataClass)] [4] [kataClass]).
  - vm_compute. reflexivity.
  - reflexivity.
  - repeat constructor.
Defined.

Lemma RuntimeClassList_Marshal_Unmarshal_witness :
  exists dAtA,
    RuntimeClassList_Marshal rawMeta rawMeta runcList = Ok dAtA
    /\ len dAtA = RuntimeClassList_Size rawMeta rawMeta runcList
    /\ RuntimeClassList_Unmarshal rawMeta rawMeta (RuntimeClassList_zero rawMeta rawMeta) dAtA
       = Ok runcList.
Proof.
  apply (RuntimeClassList_Marshal_Unmarshal rawMeta rawMeta runcList [7; 7] _
           (rawMeta_metaMarshals [7; 7]) ltac:(reflexivity) runcList_roundTrips).
  vm_compute. reflexivity.
Defined.

Lemma RuntimeClassList_Unmarshal_returns_witness :
  returned (RuntimeClassList_Unmarshal rawMeta rawMeta runcList [18; 3; 18; 9; 1]).
Proof.
  apply (RuntimeClassList_Unmarshal_returns rawMeta rawMeta runcList [18; 3; 18; 9; 1]
           rawMeta_returns rawMeta_returns).
  vm_compute. reflexivity.
Defined.

Lemma RuntimeClassList_Unmarshal_keeps_items_witness :
  Items runcList
  `prefix_of` Items (mkRuntimeClassList (meta := rawMeta) (lmeta := rawMeta) [7; 7]
                       (Items runcList ++ [RuntimeClass_zero rawMeta])).
Proof.
  apply (RuntimeClassList_Unmarshal_keeps_items rawMeta rawMeta runcList [18; 0]).
  reflexivity.
Defined.

End NodeExtFacts.

(* ===================================================================== *)
(** ** Package openapi: what an answer of the lookup means                *)
(* ===================================================================== *)

Module OpenAPIExtFacts.
Import OpenAPI OpenAPIFacts OpenAPIExt.

(** A parsed triple comes from an entry of the extension list. *)
Lemma parseGroupVersionKind_elem s gvk :
  gvk ∈ parseGroupVersionKind s
  <-> exists l e, GetExtensions s !! groupVersionKindExtensionKey = Some (ISlice l)
                  /\ e ∈ l /\ isGVKMap e gvk.
Proof.
  unfold parseGroupVersionKind. split.
  - destruct (GetExtensions s !! groupVersionKindExtensionKey) as [[| | | |l| |]|];
      try (intros H; by apply elem_of_nil in H).
    rewrite parseLoop_omap. intros (e & He & Hp)%list_elem_of_omap.
    exists l, e. split; [done|]. split; [done|]. by apply parseEntry_Some.
  - intros (l & e & -> & He & Hm). rewrite parseLoop_omap.
    apply list_elem_of_omap. exists e. split; [done|]. by apply parseEntry_Some.
Qed.

Lemma lookupLoop_scanned models gvk names :
  scanned models gvk names (lookupLoop models gvk names).
Proof.
  induction names as [|n names IH]; simpl; [by repeat split|].
  destruct (LookupModel models n) as [model|] eqn:Hm.
  - destruct (containsGVK (parseGroupVersionKind model) gvk) eqn:Hc.
    + exists [], n, names. split; [done|]. split; [constructor|]. split; [done|].
      by apply parseGroupVersionKind_elem, containsGVK_true.
    + assert (Hskip : skipped models gvk n)
        by (exists model; split; [done|by apply containsGVK_false]).
      destruct (lookupLoop models gvk names) as [model'|[|key g]]; simpl in *.
      * destruct IH as (pre & name & post & -> & Hpre & Hl & Hin).
        exists (n :: pre), name, post. split; [done|]. split; [by constructor|].
        by split.
      * destruct IH as (pre & name & post & -> & Hpre & Hl).
        exists (n :: pre), name, post. repeat split; try done. by constructor.
      * destruct IH as (-> & -> & Hall). repeat split. by constructor.
  - exists [], n, names. repeat split; [constructor|done].
Qed.

(** X20.  What every answer of [LookupProtoSchema] means.  A model it
    returns is the one of a listed name, every name listed before it
    resolves to a model that does not carry [gvk], and its extension is a
    list holding a map whose string fields group, version and kind are
    those of [gvk]: the lookup never returns a model that lacks the tag or
    is not listed.  The look-up error means a listed name resolves to nil
    with no match before it; the no-model error carries the extension key
    and [gvk] and means every listed name resolves to a model without
    [gvk]. *)
Theorem LookupProtoSchema_scanned (models : Models) (gvk : GroupVersionKind) :
  scanned models gvk (ListModels models) (LookupProtoSchema models gvk).
Proof. apply lookupLoop_scanned. Qed.

End OpenAPIExtFacts.
